(** * Call-graph editor: signature normalisation, symbol relocation, graph building

    A shallow embedding of the algorithmic core of the call-graph editor
    extension (TypeScript) and the properties its specification states about
    it.  The embedded functions keep the names they have in the sources:

    - [services/methodLibrary.ts]: [normalizeSymbolName], [MethodLibrary],
      [sanitizeFileName], [getSymbolAtCursor] with [findSymbolAtPosition]
      and [findContainerName];
    - [services/callGraphGenerator.ts]: [splitParams], [detectParamStyle],
      [looksLikeType], [extractTypeFromSingleParam], [extractTypesFromParams],
      [processCallers], [processCallees], [convertToGraphData],
      [generateFromCodePosition];
    - [services/lspIntegration.ts]: [getCallHierarchy] and its two recursive
      helpers;
    - [callGraphEditorReactFlow.ts]: [findSymbol], [findSymbolByLine],
      [navigateToCode];
    - the Markdown module of the webview: [toggleCheckbox].  *)

From Stdlib Require Import NArith ZArith List Bool Lia String Ascii DecimalString.
From stdpp Require Import base decidable list strings gmap.
Import ListNotations.

Local Open Scope N_scope.

(** ** JavaScript strings

    A JavaScript string is a sequence of UTF-16 code units.  Code units are
    modelled as [N]; string literals of the sources are written [js "..."]. *)

Abbreviation jsstring := (list N).

Definition js (s : string) : jsstring :=
  List.map N_of_ascii (list_ascii_of_string s).

(** ECMAScript [LineTerminator]: LF, CR, LS, PS. *)
Definition is_line_terminator (c : N) : bool :=
  (c =? 10) || (c =? 13) || (c =? 8232) || (c =? 8233).

(** ECMAScript [WhiteSpace] and [LineTerminator] together: what [\s] matches
    and what [String.prototype.trim] strips. *)
Definition is_space (c : N) : bool :=
  (c =? 9) || (c =? 10) || (c =? 11) || (c =? 12) || (c =? 13) || (c =? 32)
  || (c =? 160) || (c =? 5760) || ((8192 <=? c) && (c <=? 8202))
  || (c =? 8232) || (c =? 8233) || (c =? 8239) || (c =? 8287)
  || (c =? 12288) || (c =? 65279).

(** [\w]: ASCII letters, digits and underscore. *)
Definition is_word (c : N) : bool :=
  ((48 <=? c) && (c <=? 57)) || ((65 <=? c) && (c <=? 90)) || (c =? 95)
  || ((97 <=? c) && (c <=? 122)).

(** [.] without the [s] flag: any code unit but a line terminator. *)
Definition is_dot (c : N) : bool := negb (is_line_terminator c).

Definition is_upper (c : N) : bool := (65 <=? c) && (c <=? 90).

Definition chr (a : ascii) (c : N) : bool := c =? N_of_ascii a.
Definition not_chr (a : ascii) (c : N) : bool := negb (c =? N_of_ascii a).

(** [skip p s] drops the longest prefix of [s] whose code units satisfy [p]. *)
Fixpoint skip (p : N -> bool) (s : jsstring) : jsstring :=
  match s with
  | c :: s' => if p c then skip p s' else s
  | [] => []
  end.

(** [span p s] is the longest prefix of [s] whose code units satisfy [p]. *)
Fixpoint span (p : N -> bool) (s : jsstring) : jsstring :=
  match s with
  | c :: s' => if p c then c :: span p s' else []
  | [] => []
  end.

Definition trimStart (s : jsstring) : jsstring := skip is_space s.
Definition trimEnd (s : jsstring) : jsstring := rev (skip is_space (rev s)).
Definition trim (s : jsstring) : jsstring := trimEnd (trimStart s).

(** [a === b] on strings. *)
Definition str_eq (a b : jsstring) : bool := bool_decide (a = b).

Fixpoint startsWith (p s : jsstring) : bool :=
  match p, s with
  | [], _ => true
  | a :: p', b :: s' => (a =? b) && startsWith p' s'
  | _ :: _, [] => false
  end.

Definition endsWith (p s : jsstring) : bool := startsWith (rev p) (rev s).

Fixpoint includes (p s : jsstring) : bool :=
  startsWith p s || match s with [] => false | _ :: s' => includes p s' end.

(** [s.indexOf(c)] for a one-unit needle; [None] stands for [-1]. *)
Fixpoint indexOf (c : N) (s : jsstring) : option nat :=
  match s with
  | [] => None
  | d :: s' => if d =? c then Some 0%nat else option_map S (indexOf c s')
  end.

(** [parts.join(sep)]. *)
Fixpoint join (sep : jsstring) (parts : list jsstring) : jsstring :=
  match parts with
  | [] => []
  | [p] => p
  | p :: rest => p ++ sep ++ join sep rest
  end.

(** [String(n)] for a non-negative integer that JavaScript prints in full
    (below 10^21), as line numbers, columns and clock readings are. *)
Definition dec (n : N) : jsstring := js (NilZero.string_of_uint (N.to_uint n)).

(** ** Regular expressions

    The regular expressions of the sources are kept as syntax trees and run
    by one backtracking matcher that follows the ECMAScript priorities:
    alternatives left to right, quantifiers greedy, an iteration of a
    quantifier that consumes nothing is not taken.  The anchor [^] only
    occurs at the head of a pattern and is rendered by the entry point used
    ([exec_start] against [exec]).  Patterns are quoted in the comments with
    blanks between their atoms. *)

Inductive regex : Type :=
| RSet (p : N -> bool)           (* one code unit of a class *)
| RSeq (r1 r2 : regex)
| RAlt (r1 r2 : regex)
| RStar (r : regex)              (* r*   *)
| RLazyStar (r : regex)          (* r*?  *)
| ROpt (r : regex)               (* r?   *)
| RGroup (i : nat) (r : regex)   (* capture group number i *)
| REps
| REnd                           (* $ without the m flag *)
| REndLine.                      (* $ with the m flag *)

Definition RPlus (r : regex) : regex := RSeq r (RStar r).

Definition RLit (a : ascii) : regex := RSet (chr a).

(** Captures, most recent first. *)
Abbreviation captures := (list (nat * jsstring)).

Fixpoint capture (i : nat) (c : captures) : option jsstring :=
  match c with
  | [] => None
  | (j, v) :: c' => if Nat.eqb i j then Some v else capture i c'
  end.

(** [rmatch r s c k]: match [r] at the head of [s], then hand the rest of the
    input and the captures to the continuation [k]; [None] makes the matcher
    backtrack. *)
Fixpoint rmatch {R : Type} (r : regex) (s : jsstring) (c : captures)
    (k : jsstring -> captures -> option R) {struct r} : option R :=
  match r with
  | RSet p =>
      match s with
      | ch :: s' => if p ch then k s' c else None
      | [] => None
      end
  | RSeq r1 r2 => rmatch r1 s c (fun s' c' => rmatch r2 s' c' k)
  | RAlt r1 r2 =>
      match rmatch r1 s c k with
      | Some x => Some x
      | None => rmatch r2 s c k
      end
  | RStar r' =>
      (fix star (fuel : nat) (s : jsstring) (c : captures) {struct fuel} : option R :=
         match fuel with
         | O => k s c
         | S fuel' =>
             match rmatch r' s c
                     (fun s' c' =>
                        if (length s' <? length s)%nat then star fuel' s' c' else None) with
             | Some x => Some x
             | None => k s c
             end
         end) (length s) s c
  | RLazyStar r' =>
      (fix lazy (fuel : nat) (s : jsstring) (c : captures) {struct fuel} : option R :=
         match fuel with
         | O => k s c
         | S fuel' =>
             match k s c with
             | Some x => Some x
             | None =>
                 rmatch r' s c
                   (fun s' c' =>
                      if (length s' <? length s)%nat then lazy fuel' s' c' else None)
             end
         end) (length s) s c
  | ROpt r' =>
      match rmatch r' s c k with
      | Some x => Some x
      | None => k s c
      end
  | RGroup i r' =>
      rmatch r' s c
        (fun s' c' => k s' ((i, take (length s - length s')%nat s) :: c'))
  | REps => k s c
  | REnd => match s with [] => k s c | _ :: _ => None end
  | REndLine =>
      match s with
      | [] => k s c
      | ch :: _ => if is_line_terminator ch then k s c else None
      end
  end.

(** The result of a successful match: the input left after it, and the
    captures. *)
Definition accept (s : jsstring) (c : captures) : option (jsstring * captures) :=
  Some (s, c).

(** [exec_start r s]: a pattern that starts with [^]. *)
Definition exec_start (r : regex) (s : jsstring) : option (jsstring * captures) :=
  rmatch r s [] accept.

(** [exec r s]: the leftmost match of an unanchored pattern; the result gives
    the text before the match, the text after it, and the captures. *)
Fixpoint exec_from (r : regex) (before : jsstring) (s : jsstring)
    : option (jsstring * jsstring * captures) :=
  match rmatch r s [] accept with
  | Some (rest, c) => Some (before, rest, c)
  | None =>
      match s with
      | [] => None
      | ch :: s' => exec_from r (before ++ [ch]) s'
      end
  end.

Definition exec (r : regex) (s : jsstring) : option (jsstring * jsstring * captures) :=
  exec_from r [] s.

Definition isSome {A : Type} (o : option A) : bool :=
  match o with Some _ => true | None => false end.

(** [re.test(s)]. *)
Definition test (r : regex) (s : jsstring) : bool := isSome (exec r s).

(** [s.replace(re, '')] for a pattern without the [g] flag. *)
Definition replace_empty (r : regex) (s : jsstring) : jsstring :=
  match exec r s with
  | Some (before, rest, _) => before ++ rest
  | None => s
  end.

(** [s.split(re)], after the ECMAScript algorithm: [cur] is the piece being
    collected since the last split point, [s] the input from the position
    under test. *)
Fixpoint split_loop (r : regex) (fuel : nat) (cur s : jsstring) : list jsstring :=
  match fuel with
  | O => [cur ++ s]
  | S fuel' =>
      match s with
      | [] => [cur]
      | ch :: s' =>
          match rmatch r s [] accept with
          | Some (rest, _) =>
              if (length rest =? length s)%nat && bool_decide (cur = [])
              then split_loop r fuel' (cur ++ [ch]) s'
              else cur :: split_loop r fuel' [] rest
          | None => split_loop r fuel' (cur ++ [ch]) s'
          end
      end
  end.

Definition split_by (r : regex) (s : jsstring) : list jsstring :=
  match s with
  | [] => match rmatch r [] [] accept with Some _ => [] | None => [[]] end
  | _ :: _ => split_loop r (2 * length s + 1) [] s
  end.

Fixpoint RCat (rs : list regex) : regex :=
  match rs with
  | [] => REps
  | [r] => r
  | r :: rs' => RSeq r (RCat rs')
  end.

Definition group (i : nat) (c : captures) : jsstring := default [] (capture i c).

(** [first_some f l]: a [for (const x of l)] loop whose body [f] may return. *)
Definition first_some {A B : Type} (f : A -> option B) : list A -> option B :=
  fix go (l : list A) : option B :=
    match l with
    | [] => None
    | x :: l' => match f x with Some y => Some y | None => go l' end
    end.

(** [v || undefined] for an optional string: the empty string is falsy. *)
Definition truthy (v : option jsstring) : option jsstring :=
  match v with
  | Some [] => None
  | _ => v
  end.

(** ** Symbol names ([services/methodLibrary.ts]) *)

Record NormalizedSymbol : Type := mkNormalized {
  bareName : jsstring;
  signature : option jsstring
}.

(** The pattern  ^([^(]+) \( ([^)]* ) \) \s* (?: : \s* .* )? $  (written here
    with blanks between its atoms). *)
Definition re_symbolName : regex :=
  RCat [ RGroup 1 (RPlus (RSet (not_chr "(")));
         RLit "(";
         RGroup 2 (RStar (RSet (not_chr ")")));
         RLit ")";
         RStar (RSet is_space);
         ROpt (RCat [RLit ":"; RStar (RSet is_space); RStar (RSet is_dot)]);
         REnd ].

Definition normalizeSymbolName (rawName : jsstring) (rawDetail : option jsstring)
    : NormalizedSymbol :=
  match exec_start re_symbolName rawName with
  | Some (_, c) =>
      let bareName := trim (group 1 c) in
      let paramsStr := trim (group 2 c) in
      {| bareName := bareName; signature := Some (js "(" ++ paramsStr ++ js ")") |}
  | None =>
      {| bareName := rawName; signature := truthy rawDetail |}
  end.

(** ** Symbol relocation ([callGraphEditorReactFlow.ts])

    A [vscode.DocumentSymbol] as the relocator reads it: its name, the start
    of its selection range, and its children.  The sources guard every use of
    [children] with a truthiness test; an absent [children] behaves there like
    an empty list, which is how it is represented. *)

Inductive DocumentSymbol : Type :=
  mkSymbol (name : jsstring) (selLine selCharacter : N)
           (children : list DocumentSymbol).

Definition sym_name (s : DocumentSymbol) : jsstring :=
  match s with mkSymbol n _ _ _ => n end.
Definition sym_line (s : DocumentSymbol) : N :=
  match s with mkSymbol _ l _ _ => l end.
Definition sym_character (s : DocumentSymbol) : N :=
  match s with mkSymbol _ _ c _ => c end.
Definition sym_children (s : DocumentSymbol) : list DocumentSymbol :=
  match s with mkSymbol _ _ _ cs => cs end.

(** [Array.prototype.includes] on an array of strings. *)
Definition includes_str (l : list jsstring) (x : jsstring) : bool :=
  existsb (str_eq x) l.

Fixpoint findSymbolByLine_node (line : N) (symbol : DocumentSymbol)
    : option DocumentSymbol :=
  if sym_line symbol =? line then Some symbol
  else first_some (findSymbolByLine_node line) (sym_children symbol).

Definition findSymbolByLine (symbols : list DocumentSymbol) (line : N)
    : option DocumentSymbol :=
  first_some (findSymbolByLine_node line) symbols.

(** The search inside a container found by name: exact name, then bare name,
    then line. *)
Definition findInContainer (children : list DocumentSymbol) (name : jsstring)
    (line : option N) : option DocumentSymbol :=
  let targetBareName := bareName (normalizeSymbolName name None) in
  match List.find (fun c => str_eq (sym_name c) name) children with
  | Some exactChild => Some exactChild
  | None =>
      match List.find (fun c => str_eq (bareName (normalizeSymbolName (sym_name c) None))
                                       targetBareName) children with
      | Some bareChild => Some bareChild
      | None =>
          match line with
          | Some l => List.find (fun c => sym_line c =? l) children
          | None => None
          end
      end
  end.

(** The tests of one turn of the loop of [findSymbol] that do not look at the
    children of [symbol] for their own sake: the container search, the
    qualified names, the suffixes, the exact name and the bare name. *)
Definition matchSymbol (name : jsstring) (containerName : option jsstring)
    (line : option N) (symbol : DocumentSymbol) : option DocumentSymbol :=
  let targetBareName := bareName (normalizeSymbolName name None) in
  let symbolBareName := bareName (normalizeSymbolName (sym_name symbol) None) in
  let inContainer :=
    match truthy containerName with
    | Some container =>
        let qualifiedNames :=
          [ container ++ js "." ++ name; container ++ js ":" ++ name;
            container ++ js "." ++ targetBareName;
            container ++ js ":" ++ targetBareName ] in
        let suffixes :=
          [ js "." ++ name; js ":" ++ name;
            js "." ++ targetBareName; js ":" ++ targetBareName ] in
        match (if str_eq (sym_name symbol) container
               then findInContainer (sym_children symbol) name line
               else None) with
        | Some child => Some child
        | None =>
            if includes_str qualifiedNames (sym_name symbol) then Some symbol
            else if includes_str qualifiedNames symbolBareName
                    && negb (str_eq symbolBareName (sym_name symbol))
            then Some symbol
            else if existsb (fun s => endsWith s (sym_name symbol)
                                      || endsWith s symbolBareName) suffixes
            then Some symbol
            else None
        end
    | None => None
    end in
  match inContainer with
  | Some found => Some found
  | None =>
      if str_eq (sym_name symbol) name then Some symbol
      else if str_eq symbolBareName targetBareName
              && negb (str_eq symbolBareName (sym_name symbol))
      then Some symbol
      else None
  end.

(** One turn of the loop of [findSymbol] at depth [depth]; the recursive call
    on the children is the whole of [findSymbol] one level down, where the
    line fallback of the root level is switched off by its own test on the
    depth. *)
Fixpoint findSymbol_node (name : jsstring) (containerName : option jsstring)
    (line : option N) (depth : N) (symbol : DocumentSymbol) {struct symbol}
    : option DocumentSymbol :=
  match matchSymbol name containerName line symbol with
  | Some found => Some found
  | None =>
      match symbol with
      | mkSymbol _ _ _ children =>
          match first_some (findSymbol_node name containerName line (depth + 1)) children with
          | Some found => Some found
          | None =>
              if depth + 1 =? 0
              then match line with
                   | Some l => findSymbolByLine children l
                   | None => None
                   end
              else None
          end
      end
  end.

Definition findSymbol (symbols : list DocumentSymbol) (name : jsstring)
    (containerName : option jsstring) (line : option N) (depth : N)
    : option DocumentSymbol :=
  match first_some (findSymbol_node name containerName line depth) symbols with
  | Some found => Some found
  | None =>
      if depth =? 0
      then match line with
           | Some l => findSymbolByLine symbols l
           | None => None
           end
      else None
  end.

(** ** Parameter signatures ([services/callGraphGenerator.ts]) *)

Inductive ParamStyle : Type :=
| colon            (* 'colon':         name: Type  *)
| type_before      (* 'type-before':   Type name   *)
| type_after_go    (* 'type-after-go': name Type   *)
| php              (* 'php':           Type $name  *)
| dynamic.         (* 'dynamic':       name        *)

Definition is_open_bracket (c : N) : bool :=
  chr "<" c || chr "[" c || chr "{" c.
Definition is_close_bracket (c : N) : bool :=
  chr ">" c || chr "]" c || chr "}" c.

(** The loop of [splitParams]: [result], [current] and [depth] are its three
    local variables.  The source iterates by code point; a surrogate pair is
    appended whole and neither of its halves is a bracket or a comma, so the
    loop by code unit computes the same pieces. *)
Fixpoint splitParams_loop (s : jsstring) (result : list jsstring)
    (current : jsstring) (depth : Z) : list jsstring * jsstring :=
  match s with
  | [] => (result, current)
  | char :: s' =>
      if is_open_bracket char then
        splitParams_loop s' result (current ++ [char]) (depth + 1)%Z
      else if is_close_bracket char then
        splitParams_loop s' result (current ++ [char]) (depth - 1)%Z
      else if chr "," char && (depth =? 0)%Z then
        splitParams_loop s' (result ++ [current]) [] depth
      else
        splitParams_loop s' result (current ++ [char]) depth
  end.

Definition is_empty (s : jsstring) : bool :=
  match s with [] => true | _ :: _ => false end.

Definition splitParams (paramsStr : jsstring) : list jsstring :=
  let '(result, current) := splitParams_loop paramsStr [] [] 0%Z in
  if is_empty (trim current) then result else result ++ [current].

Definition typeKeywords : list jsstring :=
  List.map js
    [ "int"; "float"; "double"; "long"; "short"; "byte"; "char"; "bool"; "boolean";
      "string"; "void"; "unsigned"; "signed"; "const";
      "String"; "Object"; "List"; "Map"; "Set"; "Array"; "Dictionary";
      "Int32"; "Int64"; "Single"; "Double"; "Boolean"; "Byte";
      "ArrayList"; "HashMap"; "HashSet"; "LinkedList"; "TreeMap" ]%string.

(** The pattern  ^[A-Z] . *)
Definition re_upperFirst : regex := RSet is_upper.

(** The pattern  [*&]$ . *)
Definition re_pointerSuffix : regex :=
  RCat [RSet (fun c => chr "*" c || chr "&" c); REnd].

Definition looksLikeType (token : jsstring) : bool :=
  if includes_str typeKeywords token then true
  else if isSome (exec_start re_upperFirst token) then true
  else if endsWith (js "[]") token then true
  else if test re_pointerSuffix token then true
  else false.

(** The pattern  \w \s* \?? \s* :  . *)
Definition re_colonStyle : regex :=
  RCat [RSet is_word; RStar (RSet is_space); ROpt (RLit "?");
        RStar (RSet is_space); RLit ":"].

(** The pattern  \s* = \s* .* $  . *)
Definition re_defaultValue : regex :=
  RCat [RStar (RSet is_space); RLit "="; RStar (RSet is_space);
        RStar (RSet is_dot); REnd].

(** The pattern  \s+  . *)
Definition re_spaces : regex := RPlus (RSet is_space).

Definition nonEmpty (t : jsstring) : bool := negb (is_empty t).

Fixpoint detectParamStyle (params : list jsstring) : ParamStyle :=
  match params with
  | [] => dynamic
  | param :: rest =>
      let trimmed := trim param in
      if is_empty trimmed then detectParamStyle rest
      else if startsWith (js "*") trimmed || startsWith (js "...") trimmed
      then detectParamStyle rest
      else if str_eq trimmed (js "self") || str_eq trimmed (js "cls")
              || str_eq trimmed (js "this")
      then detectParamStyle rest
      else if includes (js "$") trimmed then php
      else if test re_colonStyle trimmed then colon
      else
        let cleanParam := replace_empty re_defaultValue trimmed in
        let tokens := List.filter nonEmpty (split_by re_spaces cleanParam) in
        if (2 <=? length tokens)%nat then
          if looksLikeType (nth 0 tokens []) then type_before else type_after_go
        else detectParamStyle rest
  end.

(** The pattern  ^(\w+) \s* =  . *)
Definition re_nameDefault : regex :=
  RCat [RGroup 1 (RPlus (RSet is_word)); RStar (RSet is_space); RLit "="].

(** The pattern  ^(\w+)  . *)
Definition re_name : regex := RGroup 1 (RPlus (RSet is_word)).

Definition extractParamName (param : jsstring) : jsstring :=
  match exec_start re_nameDefault param with
  | Some (_, c) => group 1 c
  | None =>
      match exec_start re_name param with
      | Some (_, c) => group 1 c
      | None => param
      end
  end.

(** The patterns  ^ \*\* \w+ \s* : \s* (.+) ,  ^ \* \w+ \s* : \s* (.+)  and
    ^ \.\.\. \w+ \s* : \s* (.+)  : a variadic marker, a name, a colon, a type. *)
Definition re_variadic (marker : list regex) : regex :=
  RCat (marker ++
        [RPlus (RSet is_word); RStar (RSet is_space); RLit ":";
         RStar (RSet is_space); RGroup 1 (RPlus (RSet is_dot))]).

Definition re_kwargs : regex := re_variadic [RLit "*"; RLit "*"].
Definition re_args : regex := re_variadic [RLit "*"].
Definition re_rest : regex := re_variadic [RLit "."; RLit "."; RLit "."].

(** The pattern  ^ \w [\w?]* \s* \?? \s* : \s* (.+)  . *)
Definition re_colonParam : regex :=
  RCat [RSet is_word; RStar (RSet (fun c => is_word c || chr "?" c));
        RStar (RSet is_space); ROpt (RLit "?"); RStar (RSet is_space); RLit ":";
        RStar (RSet is_space); RGroup 1 (RPlus (RSet is_dot))].

(** The pattern  ^ ( \?? \w [\w\\]* ) \s+ \$  . *)
Definition re_phpTyped : regex :=
  RCat [RGroup 1 (RCat [ROpt (RLit "?"); RSet is_word;
                        RStar (RSet (fun c => is_word c || chr "\" c))]);
        RPlus (RSet is_space); RLit "$"].

(** The pattern  \$ (\w+)  . *)
Definition re_phpName : regex :=
  RCat [RLit "$"; RGroup 1 (RPlus (RSet is_word))].

Definition style_eqb (a b : ParamStyle) : bool :=
  match a, b with
  | colon, colon | type_before, type_before | type_after_go, type_after_go
  | php, php | dynamic, dynamic => true
  | _, _ => false
  end.

(** The treatment of a variadic parameter, shared by the three markers. *)
Definition extractVariadic (re : regex) (marker param : jsstring) : jsstring :=
  match exec_start re param with
  | Some (_, c) => marker ++ trim (group 1 c)
  | None => param
  end.

Definition extractTypeFromSingleParam (param : jsstring) (style : ParamStyle)
    : jsstring :=
  if is_empty param then []
  else if startsWith (js "**") param then extractVariadic re_kwargs (js "**") param
  else if startsWith (js "*") param then extractVariadic re_args (js "*") param
  else if startsWith (js "...") param then extractVariadic re_rest (js "...") param
  else if str_eq param (js "self") || str_eq param (js "cls") || str_eq param (js "this")
  then []
  else
    let isOptional :=
      includes (js "?:") param || (includes (js "?") param && style_eqb style colon) in
    match style with
    | colon =>
        match exec_start re_colonParam param with
        | Some (_, c) =>
            let type := trim (group 1 c) in
            let type :=
              match indexOf 61 type with
              | Some eqIndex => trim (take eqIndex type)
              | None => type
              end in
            if isOptional then type ++ js "?" else type
        | None => extractParamName param
        end
    | type_before =>
        let cleanParam := trim (replace_empty re_defaultValue param) in
        let tokens := split_by re_spaces cleanParam in
        if (2 <=? length tokens)%nat
        then join (js " ") (take (length tokens - 1)%nat tokens)
        else param
    | type_after_go =>
        let tokens := split_by re_spaces (trim param) in
        if (2 <=? length tokens)%nat
        then join (js " ") (drop 1 tokens)
        else param
    | php =>
        match exec_start re_phpTyped param with
        | Some (_, c) => group 1 c
        | None =>
            match exec re_phpName param with
            | Some (_, _, c) => group 1 c
            | None => param
            end
        end
    | dynamic => extractParamName param
    end.

(** [paramTokens.map(...).filter(t => t !== '')] of [extractTypesFromParams]. *)
Definition extractedTypes (paramTokens : list jsstring) (style : ParamStyle)
    : list jsstring :=
  List.filter nonEmpty
    (List.map (fun param => extractTypeFromSingleParam (trim param) style) paramTokens).

Definition extractTypesFromParams (paramsStr : jsstring) : jsstring :=
  if is_empty (trim paramsStr) then js "()"
  else
    let paramTokens := splitParams paramsStr in
    let style := detectParamStyle paramTokens in
    let types := extractedTypes paramTokens style in
    js "(" ++ join (js ", ") types ++ js ")".

(** The pattern  ``` \w* \s* \n? ([\s\S]*?) \n? ```  : a fenced code block. *)
Definition re_codeBlock : regex :=
  RCat [RLit "`"; RLit "`"; RLit "`"; RStar (RSet is_word); RStar (RSet is_space);
        ROpt (RSet (N.eqb 10)); RGroup 1 (RLazyStar (RSet (fun _ => true)));
        ROpt (RSet (N.eqb 10)); RLit "`"; RLit "`"; RLit "`"].

(** The pattern  \( ([^)]* ) \) \s* (?: : | => | -> )  . *)
Definition re_withReturnType : regex :=
  RCat [RLit "("; RGroup 1 (RStar (RSet (not_chr ")"))); RLit ")";
        RStar (RSet is_space);
        RAlt (RLit ":") (RAlt (RCat [RLit "="; RLit ">"]) (RCat [RLit "-"; RLit ">"]))].

(** The pattern  \( ([^)]* ) \) \s* $  with the m flag. *)
Definition re_atEnd : regex :=
  RCat [RLit "("; RGroup 1 (RStar (RSet (not_chr ")"))); RLit ")";
        RStar (RSet is_space); REndLine].

Definition extractSignatureFromHover (hoverText : jsstring) : option jsstring :=
  if is_empty hoverText then None
  else
    let signatureText :=
      match exec re_codeBlock hoverText with
      | Some (_, _, c) => trim (group 1 c)
      | None => hoverText
      end in
    match exec re_withReturnType signatureText with
    | Some (_, _, c) => Some (extractTypesFromParams (group 1 c))
    | None =>
        match exec re_atEnd signatureText with
        | Some (_, _, c) => Some (extractTypesFromParams (group 1 c))
        | None => None
        end
    end.

(** ** Node identifiers: MD5 ([crypto.createHash('md5')])

    [generateNodeId] hashes a key with MD5 and keeps the first sixteen
    hexadecimal digits.  The digest is the one of RFC 1321, computed here on
    the UTF-8 encoding of the string, which is what [hash.update(string)]
    feeds it. *)

Definition utf8_3 (c : N) : list N :=
  [ N.lor 224 (N.shiftr c 12);
    N.lor 128 (N.land (N.shiftr c 6) 63);
    N.lor 128 (N.land c 63) ].

Fixpoint utf8 (s : jsstring) : list N :=
  match s with
  | [] => []
  | c :: s' =>
      if c <? 128 then c :: utf8 s'
      else if c <? 2048 then
        N.lor 192 (N.shiftr c 6) :: N.lor 128 (N.land c 63) :: utf8 s'
      else if (55296 <=? c) && (c <=? 56319) then
        match s' with
        | d :: s'' =>
            if (56320 <=? d) && (d <=? 57343) then
              let p := 65536 + N.shiftl (c - 55296) 10 + (d - 56320) in
              N.lor 240 (N.shiftr p 18)
              :: N.lor 128 (N.land (N.shiftr p 12) 63)
              :: N.lor 128 (N.land (N.shiftr p 6) 63)
              :: N.lor 128 (N.land p 63) :: utf8 s''
            else 239 :: 191 :: 189 :: utf8 s'
        | [] => [239; 191; 189]
        end
      else if (56320 <=? c) && (c <=? 57343) then 239 :: 191 :: 189 :: utf8 s'
      else utf8_3 c ++ utf8 s'
  end.

Module MD5.

Definition mask32 : N := 4294967295.
Definition add32 (a b : N) : N := N.land (a + b) mask32.
Definition not32 (a : N) : N := N.lxor a mask32.
Definition rotl32 (x : N) (n : N) : N :=
  N.land (N.lor (N.shiftl x n) (N.shiftr x (32 - n))) mask32.

Definition shifts : list N :=
  [ 7; 12; 17; 22; 7; 12; 17; 22; 7; 12; 17; 22; 7; 12; 17; 22;
    5; 9; 14; 20; 5; 9; 14; 20; 5; 9; 14; 20; 5; 9; 14; 20;
    4; 11; 16; 23; 4; 11; 16; 23; 4; 11; 16; 23; 4; 11; 16; 23;
    6; 10; 15; 21; 6; 10; 15; 21; 6; 10; 15; 21; 6; 10; 15; 21 ].

(** [floor (2^32 * abs (sin (i + 1)))] for [i] from 0 to 63. *)
Definition sines : list N :=
  [ 3614090360; 3905402710; 606105819; 3250441966;
    4118548399; 1200080426; 2821735955; 4249261313;
    1770035416; 2336552879; 4294925233; 2304563134;
    1804603682; 4254626195; 2792965006; 1236535329;
    4129170786; 3225465664; 643717713; 3921069994;
    3593408605; 38016083; 3634488961; 3889429448;
    568446438; 3275163606; 4107603335; 1163531501;
    2850285829; 4243563512; 1735328473; 2368359562;
    4294588738; 2272392833; 1839030562; 4259657740;
    2763975236; 1272893353; 4139469664; 3200236656;
    681279174; 3936430074; 3572445317; 76029189;
    3654602809; 3873151461; 530742520; 3299628645;
    4096336452; 1126891415; 2878612391; 4237533241;
    1700485571; 2399980690; 4293915773; 2240044497;
    1873313359; 4264355552; 2734768916; 1309151649;
    4149444226; 3174756917; 718787259; 3951481745 ].

(** Little-endian bytes of a word. *)
Fixpoint le_bytes (n : nat) (w : N) : list N :=
  match n with
  | O => []
  | S n' => N.land w 255 :: le_bytes n' (N.shiftr w 8)
  end.

Fixpoint le_word (bytes : list N) : N :=
  match bytes with
  | [] => 0
  | b :: bytes' => b + 256 * le_word bytes'
  end.

Definition pad (msg : list N) : list N :=
  let len := length msg in
  let zeros := ((119 - len mod 64) mod 64)%nat in
  msg ++ [128] ++ List.repeat 0 zeros ++ le_bytes 8 (8 * N.of_nat len).

(** The sixteen words of a 64-byte block. *)
Fixpoint words (n : nat) (block : list N) : list N :=
  match n with
  | O => []
  | S n' => le_word (take 4 block) :: words n' (drop 4 block)
  end.

Definition step (m : list N) (st : N * N * N * N) (i : nat) : N * N * N * N :=
  let '(a, b, c, d) := st in
  let '(f, g) :=
    if (i <? 16)%nat then
      (N.lor (N.land b c) (N.land (not32 b) d), i)
    else if (i <? 32)%nat then
      (N.lor (N.land d b) (N.land (not32 d) c), ((5 * i + 1) mod 16)%nat)
    else if (i <? 48)%nat then
      (N.lxor (N.lxor b c) d, ((3 * i + 5) mod 16)%nat)
    else
      (N.lxor c (N.lor b (not32 d)), ((7 * i) mod 16)%nat) in
  let f' := add32 (add32 (add32 f a) (nth i sines 0)) (nth g m 0) in
  (d, add32 b (rotl32 f' (nth i shifts 0)), b, c).

Definition block (st : N * N * N * N) (blk : list N) : N * N * N * N :=
  let '(a0, b0, c0, d0) := st in
  let '(a, b, c, d) := fold_left (step (words 16 blk)) (seq 0 64) st in
  (add32 a0 a, add32 b0 b, add32 c0 c, add32 d0 d).

Fixpoint blocks (n : nat) (st : N * N * N * N) (bytes : list N) : N * N * N * N :=
  match n with
  | O => st
  | S n' => blocks n' (block st (take 64 bytes)) (drop 64 bytes)
  end.

Definition digest (msg : list N) : list N :=
  let padded := pad msg in
  let '(a, b, c, d) :=
    blocks (length padded / 64)%nat
           (1732584193, 4023233417, 2562383102, 271733878) padded in
  le_bytes 4 a ++ le_bytes 4 b ++ le_bytes 4 c ++ le_bytes 4 d.

Definition hex_digit (n : N) : N := if n <? 10 then 48 + n else 87 + n.

Definition hex (bytes : list N) : jsstring :=
  flat_map (fun b => [hex_digit (N.shiftr b 4); hex_digit (N.land b 15)]) bytes.

End MD5.

(** [crypto.createHash('md5').update(data).digest('hex')]. *)
Definition md5_hex (data : jsstring) : jsstring := MD5.hex (MD5.digest (utf8 data)).

(** ** The host: what the editor and the language servers answer

    The extension talks to VS Code through commands; their answers are the
    parameters of the model.  A command that throws and a command that answers
    [undefined] are both [None]: every caller below treats the two alike
    (each call sits in a [try] whose handler returns what the test for
    [undefined] returns). *)

Inductive SymbolKind : Type := Method | Function | Constructor | OtherKind.

Record Position : Type := mkPosition { line : N; character : N }.

Record Uri : Type := mkUri {
  fsPath : jsstring;        (* uri.fsPath *)
  uriString : jsstring      (* uri.toString() *)
}.

Record CallHierarchyItem : Type := mkItem {
  name : jsstring;
  kind : SymbolKind;
  uri : Uri;
  rangeStart : Position;                   (* range.start *)
  detail : option jsstring;
  selectionStart : option Position         (* selectionRange?.start *)
}.

Record WorkspaceFolder : Type := mkFolder {
  folderName : jsstring;
  folderPath : jsstring                    (* folder.uri.fsPath *)
}.

Record Host : Type := mkHost {
  workspaceFolders : option (list WorkspaceFolder);
  pathRelative : jsstring -> jsstring -> jsstring;      (* path.relative *)
  prepareCallHierarchy : Uri -> Position -> option (list CallHierarchyItem);
  provideIncomingCalls : CallHierarchyItem -> option (list CallHierarchyItem);
  provideOutgoingCalls : CallHierarchyItem -> option (list CallHierarchyItem);
  (* vscode.executeHoverProvider: the hovers, each with the texts of its contents *)
  executeHoverProvider : Uri -> Position -> option (list (list jsstring))
}.

(** A text handed to [vscode.l10n.t]: the template and its arguments. *)
Record L10n : Type := mkL10n { template : string; arguments : list jsstring }.

(** ** Call hierarchy acquisition ([services/lspIntegration.ts]) *)

Inductive CallHierarchyNode : Type :=
  mkCallNode (item : CallHierarchyItem)
             (callers callees : list CallHierarchyNode).

Definition node_item (n : CallHierarchyNode) : CallHierarchyItem :=
  match n with mkCallNode i _ _ => i end.
Definition node_callers (n : CallHierarchyNode) : list CallHierarchyNode :=
  match n with mkCallNode _ cs _ => cs end.
Definition node_callees (n : CallHierarchyNode) : list CallHierarchyNode :=
  match n with mkCallNode _ _ cs => cs end.

Definition getNodeKey (i : CallHierarchyItem) : jsstring :=
  uriString (uri i) ++ js ":" ++ dec (line (rangeStart i)) ++ js ":"
  ++ dec (character (rangeStart i)) ++ js ":" ++ name i.

(** [x || []] for the answer of a command. *)
Definition answered {A : Type} (r : option (list A)) : list A := default [] r.

(** [getIncomingCalls] for a remaining depth that is not negative, given as a
    natural number; [visited] is the provider's [visitedNodes], threaded
    through the loop. *)
Fixpoint getIncomingCalls_at (host : Host) (remaining : nat)
    (item : CallHierarchyItem) (visited : gset jsstring)
    : list CallHierarchyNode * gset jsstring :=
  fold_left
    (fun (acc : list CallHierarchyNode * gset jsstring) callerItem =>
       let '(callers, visited) := acc in
       let nodeKey := getNodeKey callerItem in
       if bool_decide (nodeKey ∈ visited) then (callers, visited)
       else
         let visited := {[nodeKey]} ∪ visited in
         let '(sub, visited) :=
           match remaining with
           | S remaining' => getIncomingCalls_at host remaining' callerItem visited
           | O => ([], visited)
           end in
         (callers ++ [mkCallNode callerItem sub []], visited))
    (answered (provideIncomingCalls host item)) ([], visited).

Definition getIncomingCalls (host : Host) (item : CallHierarchyItem)
    (remainingDepth : Z) (visited : gset jsstring)
    : list CallHierarchyNode * gset jsstring :=
  if (remainingDepth <? 0)%Z then ([], visited)
  else getIncomingCalls_at host (Z.to_nat remainingDepth) item visited.

Fixpoint getOutgoingCalls_at (host : Host) (remaining : nat)
    (item : CallHierarchyItem) (visited : gset jsstring)
    : list CallHierarchyNode * gset jsstring :=
  fold_left
    (fun (acc : list CallHierarchyNode * gset jsstring) calleeItem =>
       let '(callees, visited) := acc in
       let nodeKey := getNodeKey calleeItem in
       if bool_decide (nodeKey ∈ visited) then (callees, visited)
       else
         let visited := {[nodeKey]} ∪ visited in
         let '(sub, visited) :=
           match remaining with
           | S remaining' => getOutgoingCalls_at host remaining' calleeItem visited
           | O => ([], visited)
           end in
         (callees ++ [mkCallNode calleeItem [] sub], visited))
    (answered (provideOutgoingCalls host item)) ([], visited).

Definition getOutgoingCalls (host : Host) (item : CallHierarchyItem)
    (remainingDepth : Z) (visited : gset jsstring)
    : list CallHierarchyNode * gset jsstring :=
  if (remainingDepth <? 0)%Z then ([], visited)
  else getOutgoingCalls_at host (Z.to_nat remainingDepth) item visited.

(** [getCallHierarchy]: the provider is created for the call, so its
    [visitedNodes] starts empty and is dropped with it. *)
Definition getCallHierarchy (host : Host) (document : Uri) (position : Position)
    (depth : Z) : option CallHierarchyNode :=
  match prepareCallHierarchy host document position with
  | None | Some [] => None
  | Some (rootItem :: _) =>
      let visited : gset jsstring := {[getNodeKey rootItem]} ∪ ∅ in
      if (0 <? depth)%Z then
        let '(callers, visited) := getIncomingCalls host rootItem (depth - 1) visited in
        let '(callees, _) := getOutgoingCalls host rootItem (depth - 1) visited in
        Some (mkCallNode rootItem callers callees)
      else Some (mkCallNode rootItem [] [])
  end.

(** ** Graph construction ([services/callGraphGenerator.ts]) *)

Record SymbolSignature : Type := mkSymbolSignature {
  symName : jsstring;
  symUri : jsstring;
  symContainerName : option jsstring;
  symLine : option N;
  symSignature : option jsstring
}.

Inductive NodeType : Type := code | note.

Record Node : Type := mkNode {
  id : jsstring;
  label : option jsstring;
  type : option NodeType;
  symbol : option SymbolSignature
}.

Record Edge : Type := mkEdge { from : jsstring; to : jsstring }.

Record CallGraphDocument : Type := mkDocument {
  title : option L10n;
  nodes : list Node;
  edges : list Edge
}.

Inductive Direction : Type := both | callersOnly | calleesOnly.

Record GenerateOptions : Type := mkOptions {
  depth : option Z;
  direction : option Direction
}.

(** [WorkspacePathResolver.getCurrentWorkspace() !== null]. *)
Definition workspaceOpened (host : Host) : bool :=
  match workspaceFolders host with
  | None | Some [] => false
  | Some (_ :: _) => true
  end.

(** [s.replace(/\\/g, '/')]. *)
Definition slashes (s : jsstring) : jsstring :=
  List.map (fun c => if chr "\" c then N_of_ascii "/" else c) s.

(** [WorkspacePathResolver.toWorkspaceRelative(absolutePath).relativePath]. *)
Definition toWorkspaceRelative (host : Host) (absolutePath : jsstring) : jsstring :=
  match workspaceFolders host with
  | None | Some [] => absolutePath
  | Some (firstFolder :: others) =>
      match List.find (fun folder => startsWith (folderPath folder) absolutePath)
                      (firstFolder :: others) with
      | Some folder => slashes (pathRelative host (folderPath folder) absolutePath)
      | None => slashes (pathRelative host (folderPath firstFolder) absolutePath)
      end
  end.

Definition generateNodeId (host : Host) (i : CallHierarchyItem) : jsstring :=
  let data :=
    toWorkspaceRelative host (fsPath (uri i)) ++ js ":" ++ dec (line (rangeStart i))
    ++ js ":" ++ dec (character (rangeStart i)) ++ js ":" ++ name i in
  take 16 (md5_hex data).

(** [getSignatureFromHover]: the first signature read off a content of a
    hover. *)
Definition getSignatureFromHover (host : Host) (uri : Uri) (position : Position)
    : option jsstring :=
  first_some (fun contents => first_some (fun text => truthy (extractSignatureFromHover text))
                                         contents)
             (answered (executeHoverProvider host uri position)).

Definition createNodeFromCallHierarchyItem (host : Host) (i : CallHierarchyItem)
    : Node :=
  let containerName :=
    match kind i with Method => detail i | _ => None end in
  let selectionStart := default (rangeStart i) (selectionStart i) in
  let normalized := normalizeSymbolName (name i) None in
  let hoverSignature := getSignatureFromHover host (uri i) selectionStart in
  let signature :=
    match truthy hoverSignature with
    | Some s => Some s
    | None => signature normalized
    end in
  {| id := generateNodeId host i;
     label := Some (bareName normalized);
     type := Some code;
     symbol := Some {| symName := bareName normalized;
                       symUri := toWorkspaceRelative host (fsPath (uri i));
                       symContainerName := truthy containerName;
                       symLine := Some (line selectionStart);
                       symSignature := truthy signature |} |}.

(** The three fields of a [CallGraphGenerator].  [nodeMap] is a JavaScript
    [Map]: it keeps its keys in the order of their first insertion. *)
Record Generator : Type := mkGenerator {
  nodeMap : list (jsstring * Node);
  genEdges : list Edge;
  visitedNodes : gset jsstring
}.

(** [map.set(key, value)]. *)
Fixpoint map_set (key : jsstring) (value : Node) (m : list (jsstring * Node))
    : list (jsstring * Node) :=
  match m with
  | [] => [(key, value)]
  | (k, v) :: m' =>
      if str_eq k key then (key, value) :: m' else (k, v) :: map_set key value m'
  end.

(** What one turn of the loops of [processCallers] and [processCallees] does
    for an item that was not visited yet, before it recurses: mark, create,
    store, join to the parent. *)
Definition recordNode (host : Host) (i : CallHierarchyItem) (e : Edge)
    (g : Generator) : Generator :=
  let visited := {[generateNodeId host i]} ∪ visitedNodes g in
  let node := createNodeFromCallHierarchyItem host i in
  {| nodeMap := map_set (id node) node (nodeMap g);
     genEdges := genEdges g ++ [e];
     visitedNodes := visited |}.

Fixpoint processCallers (host : Host) (node : CallHierarchyNode)
    (parentId : jsstring) (level : N) (g : Generator) : Generator :=
  match node with
  | mkCallNode _ callers _ =>
      fold_left
        (fun g caller =>
           let callerId := generateNodeId host (node_item caller) in
           if bool_decide (callerId ∈ visitedNodes g) then g
           else
             let g := recordNode host (node_item caller)
                        {| from := callerId; to := parentId |} g in
             processCallers host caller callerId (level + 1) g)
        callers g
  end.

Fixpoint processCallees (host : Host) (node : CallHierarchyNode)
    (parentId : jsstring) (level : N) (g : Generator) : Generator :=
  match node with
  | mkCallNode _ _ callees =>
      fold_left
        (fun g callee =>
           let calleeId := generateNodeId host (node_item callee) in
           if bool_decide (calleeId ∈ visitedNodes g) then g
           else
             let g := recordNode host (node_item callee)
                        {| from := parentId; to := calleeId |} g in
             processCallees host callee calleeId (level + 1) g)
        callees g
  end.

Definition convertToGraphData (host : Host) (hierarchy : CallHierarchyNode)
    (direction : Direction) (g : Generator) : list Node * Generator :=
  let rootNode := createNodeFromCallHierarchyItem host (node_item hierarchy) in
  let g := {| nodeMap := map_set (id rootNode) rootNode (nodeMap g);
              genEdges := genEdges g;
              visitedNodes := visitedNodes g |} in
  let g := match direction with
           | both | callersOnly => processCallers host hierarchy (id rootNode) 1 g
           | calleesOnly => g
           end in
  let g := match direction with
           | both | calleesOnly => processCallees host hierarchy (id rootNode) 1 g
           | callersOnly => g
           end in
  (List.map snd (nodeMap g), g).

(** [generateFromCodePosition]: the error thrown, or the document returned,
    and the generator as the call leaves it.  [applyLayout] is left out: it
    fills tables of its own and touches neither the nodes nor the edges. *)
Definition generateFromCodePosition (host : Host) (document : Uri)
    (position : Position) (options : GenerateOptions) (g : Generator)
    : (L10n + CallGraphDocument) * Generator :=
  let depth := default 2%Z (depth options) in
  let direction := default both (direction options) in
  if negb (workspaceOpened host) then
    (inl {| template := "Workspace not opened"; arguments := [] |}, g)
  else
    match getCallHierarchy host document position depth with
    | None =>
        (inl {| template :=
                  "Unable to get call hierarchy. Ensure cursor is on a method definition";
                arguments := [] |}, g)
    | Some hierarchy =>
        let g := {| nodeMap := []; genEdges := []; visitedNodes := ∅ |} in
        let '(graphNodes, g) := convertToGraphData host hierarchy direction g in
        let title :=
          match graphNodes with
          | rootNode :: _ =>
              {| template := "Call graph for {0}";
                 arguments := [default (id rootNode) (truthy (label rootNode))] |}
          | [] => {| template := "Call graph"; arguments := [] |}
          end in
        (inr {| title := Some title; nodes := graphNodes; edges := genEdges g |}, g)
    end.

(** ** Navigation ([callGraphEditorReactFlow.ts]) *)

(** The answer of a call that may throw. *)
Inductive Answer (A : Type) : Type :=
| Threw (err : jsstring)
| Answered (a : A).
Arguments Threw {A} err.
Arguments Answered {A} a.

(** What the editor answers during one navigation. *)
Record Editor : Type := mkEditor {
  firstWorkspaceFolder : option jsstring;            (* workspaceFolders?.[0] *)
  (* openTextDocument on the file of the folder: does it open? *)
  openTextDocument : jsstring -> jsstring -> bool;
  showTextDocument : Answer unit;
  (* vscode.executeDocumentSymbolProvider on that file *)
  executeDocumentSymbolProvider :
    jsstring -> jsstring -> Answer (option (list DocumentSymbol))
}.

Inductive WebviewMessage : Type :=
| navigationFailed (nodeId : jsstring) (reason : string)
| navigationSuccess (nodeId : jsstring).

(** What a navigation does that can be seen from outside, in order. *)
Inductive Effect : Type :=
| showWarningMessage (m : L10n)
| showErrorMessage (m : L10n)
| postMessage (m : WebviewMessage)
| setSelection (p : Position)          (* editor.selection, an empty selection at p *)
| revealRange (p : Position).          (* editor.revealRange, from p *)

(** [navigateToCode], as the list of what it shows, posts and selects.  The
    choice of the editor column the file is shown in is left out: it changes
    nothing of what follows. *)
Definition navigateToCode (editor : Editor) (node : Node) : list Effect :=
  match symbol node with
  | None =>
      [ showWarningMessage {| template := "This node has no bound code symbol";
                              arguments := [] |};
        postMessage (navigationFailed (id node) "no-symbol") ]
  | Some sym =>
      let failed (err : jsstring) :=
        [ showErrorMessage {| template := "Unable to navigate to code: {0}";
                              arguments := [err] |};
          postMessage (navigationFailed (id node) "error") ] in
      match firstWorkspaceFolder editor with
      | None =>
          [ showErrorMessage {| template := "No open workspace"; arguments := [] |};
            postMessage (navigationFailed (id node) "no-workspace") ]
      | Some folder =>
          if negb (openTextDocument editor folder (symUri sym)) then
            [ showErrorMessage {| template := "File does not exist: {0}";
                                  arguments := [symUri sym] |};
              postMessage (navigationFailed (id node) "file-not-found") ]
          else
            match showTextDocument editor with
            | Threw err => failed err
            | Answered _ =>
                match executeDocumentSymbolProvider editor folder (symUri sym) with
                | Threw err => failed err
                | Answered symbols =>
                    let targetSymbol :=
                      match symbols with
                      | Some symbols =>
                          findSymbol symbols (symName sym) (symContainerName sym)
                                     (symLine sym) 0
                      | None => None
                      end in
                    match targetSymbol with
                    | Some target =>
                        let position :=
                          {| line := sym_line target;
                             character := sym_character target |} in
                        [ setSelection position; revealRange position;
                          postMessage (navigationSuccess (id node)) ]
                    | None =>
                        match symLine sym with
                        | Some l =>
                            let position := {| line := l; character := 0 |} in
                            [ setSelection position; revealRange position;
                              postMessage (navigationSuccess (id node)) ]
                        | None =>
                            [ showWarningMessage
                                {| template := "Symbol not found: {0}";
                                   arguments := [symName sym] |};
                              postMessage
                                (navigationFailed (id node) "symbol-not-found") ]
                        end
                    end
                end
            end
      end
  end.

(** ** The method library ([services/methodLibrary.ts]) *)

Module MethodLibrary.

Record MethodItem : Type := mkMethodItem {
  id : jsstring;
  name : jsstring;
  uri : jsstring;
  containerName : option jsstring;
  line : N;
  signature : option jsstring;
  addedAt : N
}.

(** [Omit<MethodItem, 'id' | 'addedAt'>]. *)
Record NewMethod : Type := mkNewMethod {
  newName : jsstring;
  newUri : jsstring;
  newContainerName : option jsstring;
  newLine : N;
  newSignature : option jsstring
}.

(** The value kept under the storage key of the workspace state; [None]
    while nothing was stored. *)
Abbreviation Storage := (option (list MethodItem)).

Definition getAll (st : Storage) : list MethodItem := default [] st.

(** The information messages of the library, each with the name it is
    about. *)
Inductive Notice : Type :=
| alreadyInLibrary (methodName : jsstring)
| addedToLibrary (methodName : jsstring)
| removedFromLibrary (methodName : jsstring)
| libraryCleared.

(** [add]: [clock1] and [clock2] are the two readings of [Date.now()],
    [random] is the text drawn from [Math.random()].  The result is the
    item returned, the storage afterwards and the message shown. *)
Definition add (method : NewMethod) (clock1 clock2 : N) (random : jsstring)
    (st : Storage) : MethodItem * Storage * Notice :=
  let methods := getAll st in
  match List.find (fun m => str_eq (uri m) (newUri method)
                            && (line m =? newLine method)) methods with
  | Some existing => (existing, st, alreadyInLibrary (newName method))
  | None =>
      let newMethod :=
        {| id := js "method-" ++ dec clock1 ++ js "-" ++ random;
           name := newName method;
           uri := newUri method;
           containerName := newContainerName method;
           line := newLine method;
           signature := newSignature method;
           addedAt := clock2 |} in
      (newMethod, Some (methods ++ [newMethod]), addedToLibrary (newName method))
  end.

(** [methods.splice(index, 1)] at the first index whose item satisfies [p]. *)
Fixpoint remove_first (p : MethodItem -> bool) (l : list MethodItem)
    : list MethodItem :=
  match l with
  | [] => []
  | m :: l' => if p m then l' else m :: remove_first p l'
  end.

Definition remove (ident : jsstring) (st : Storage) : Storage * option Notice :=
  let methods := getAll st in
  match List.find (fun m => str_eq (id m) ident) methods with
  | Some removed =>
      (Some (remove_first (fun m => str_eq (id m) ident) methods),
       Some (removedFromLibrary (name removed)))
  | None => (st, None)
  end.

Definition clear (st : Storage) : Storage * Notice :=
  (Some [], libraryCleared).

Definition getById (ident : jsstring) (st : Storage) : option MethodItem :=
  List.find (fun m => str_eq (id m) ident) (getAll st).

(** The storages the three operations can produce, from an empty
    workspace state. *)
Inductive reachable : Storage -> Prop :=
| reach_init : reachable None
| reach_add st method clock1 clock2 random :
    reachable st -> reachable (snd (fst (add method clock1 clock2 random st)))
| reach_remove st ident :
    reachable st -> reachable (fst (remove ident st))
| reach_clear st :
    reachable st -> reachable (fst (clear st)).

(** The place of an entry: its file and its line. *)
Definition place (m : MethodItem) : jsstring * N := (uri m, line m).

(** [m] sits at the place of [method]: the test of [add]. *)
Definition samePlace (method : NewMethod) (m : MethodItem) : bool :=
  str_eq (uri m) (newUri method) && (line m =? newLine method).

(** No two entries of the list share their file and their line. *)
Definition distinctPlaces (methods : list MethodItem) : Prop :=
  NoDup (List.map place methods).

End MethodLibrary.

(** ** File names ([services/methodLibrary.ts]) *)

(** The class of [sanitizeFileName]: the characters Windows refuses in a
    file name (less than, greater than, colon, double quote, slash,
    backslash, bar, question mark, star) and the two parentheses. *)
Definition is_unsafe (c : N) : bool :=
  chr "<" c || chr ">" c || chr ":" c || (c =? 34) || chr "/" c || chr "\" c
  || chr "|" c || chr "?" c || chr "*" c || chr "(" c || chr ")" c.

(** The replacement by the empty string has the [g] flag and its pattern is
    one class: every unit of the class is dropped. *)
Definition sanitizeFileName (name : jsstring) : jsstring :=
  let bareName := bareName (normalizeSymbolName name None) in
  List.filter (fun c => negb (is_unsafe c)) bareName.

(** ** The symbol under the cursor ([services/methodLibrary.ts])

    A [vscode.DocumentSymbol] as [getSymbolAtCursor] reads it: with its
    detail, its kind and its range.  The sources compare symbols as objects
    ([child === target]); [ref] stands for the identity of the object. *)

Record Range : Type := mkRange {
  rangeFrom : Position;       (* range.start *)
  rangeTo : Position          (* range.end *)
}.

(** [Position.isBefore]. *)
Definition isBefore (a b : Position) : bool :=
  (line a <? line b) || ((line a =? line b) && (character a <? character b)).

(** [Range.contains] on a position: not before the start, not after the
    end. *)
Definition contains (r : Range) (p : Position) : bool :=
  negb (isBefore p (rangeFrom r)) && negb (isBefore (rangeTo r) p).

Inductive CursorSymbol : Type :=
  mkCursorSymbol (ref : N) (name : jsstring) (detail : option jsstring)
                 (kind : SymbolKind) (range : Range) (selLine selCharacter : N)
                 (children : list CursorSymbol).

Definition cur_ref (s : CursorSymbol) : N :=
  match s with mkCursorSymbol r _ _ _ _ _ _ _ => r end.
Definition cur_name (s : CursorSymbol) : jsstring :=
  match s with mkCursorSymbol _ n _ _ _ _ _ _ => n end.
Definition cur_detail (s : CursorSymbol) : option jsstring :=
  match s with mkCursorSymbol _ _ d _ _ _ _ _ => d end.
Definition cur_kind (s : CursorSymbol) : SymbolKind :=
  match s with mkCursorSymbol _ _ _ k _ _ _ _ => k end.
Definition cur_range (s : CursorSymbol) : Range :=
  match s with mkCursorSymbol _ _ _ _ r _ _ _ => r end.
Definition cur_line (s : CursorSymbol) : N :=
  match s with mkCursorSymbol _ _ _ _ _ l _ _ => l end.
Definition cur_character (s : CursorSymbol) : N :=
  match s with mkCursorSymbol _ _ _ _ _ _ c _ => c end.
Definition cur_children (s : CursorSymbol) : list CursorSymbol :=
  match s with mkCursorSymbol _ _ _ _ _ _ _ cs => cs end.

(** One turn of the loop of [findSymbolAtPosition]. *)
Fixpoint findSymbolAtPosition_node (position : Position) (symbol : CursorSymbol)
    : option CursorSymbol :=
  if contains (cur_range symbol) position then
    match first_some (findSymbolAtPosition_node position) (cur_children symbol) with
    | Some child => Some child
    | None => Some symbol
    end
  else None.

Definition findSymbolAtPosition (symbols : list CursorSymbol) (position : Position)
    : option CursorSymbol :=
  first_some (findSymbolAtPosition_node position) symbols.

(** One turn of the loop of [findContainerName]: the name of [symbol] when
    [target] is one of its children, else what the search among the children
    returns if that is no empty string. *)
Fixpoint findContainerName_node (target : CursorSymbol) (symbol : CursorSymbol)
    : option jsstring :=
  if existsb (fun child => cur_ref child =? cur_ref target) (cur_children symbol)
  then Some (cur_name symbol)
  else truthy (first_some (findContainerName_node target) (cur_children symbol)).

Definition findContainerName (symbols : list CursorSymbol) (target : CursorSymbol)
    : option jsstring :=
  first_some (findContainerName_node target) symbols.

(** The messages of [getSymbolAtCursor]. *)
Inductive CursorNotice : Type :=
| noOpenWorkspace
| noSymbolsInFile
| nothingAtCursor
| notAMethod (symbolName : jsstring)
| failedToGetSymbol (err : jsstring).

(** [getSymbolAtCursor]: [workspaceFolder] tells whether a first workspace
    folder exists, [provider] is the answer of the document symbol provider
    for the document of the editor, [relativePath] the answer of
    [asRelativePath] for it, [position] the active end of the selection.
    The result is the message shown (and [null] returned) or the method
    returned. *)
Definition getSymbolAtCursor (workspaceFolder : bool)
    (provider : Answer (option (list CursorSymbol))) (relativePath : jsstring)
    (position : Position) : CursorNotice + MethodLibrary.NewMethod :=
  if negb workspaceFolder then inl noOpenWorkspace
  else
    match provider with
    | Threw err => inl (failedToGetSymbol err)
    | Answered None | Answered (Some []) => inl noSymbolsInFile
    | Answered (Some ((_ :: _) as symbols)) =>
        match findSymbolAtPosition symbols position with
        | None => inl nothingAtCursor
        | Some symbol =>
            match cur_kind symbol with
            | OtherKind => inl (notAMethod (cur_name symbol))
            | Method | Function | Constructor =>
                let containerName := findContainerName symbols symbol in
                let normalized :=
                  normalizeSymbolName (cur_name symbol) (cur_detail symbol) in
                inr {| MethodLibrary.newName := bareName normalized;
                       MethodLibrary.newUri := relativePath;
                       MethodLibrary.newContainerName := containerName;
                       MethodLibrary.newLine := cur_line symbol;
                       MethodLibrary.newSignature := signature normalized |}
            end
        end
    end.

(** ** Check boxes in notes (the Markdown module of the webview) *)

(** [s.replace(re, f)] for a pattern with the [g] flag: the matches are
    looked for from left to right, each from the end of the one before; [f]
    is given the number of calls made before (the counter the callback of
    the sources keeps), the text matched and the captures; after an empty
    match the search moves on by one unit. *)
Fixpoint replace_all (r : regex) (f : nat -> jsstring -> captures -> jsstring)
    (fuel : nat) (calls : nat) (s : jsstring) : jsstring :=
  match fuel with
  | O => s
  | S fuel' =>
      match rmatch r s [] accept with
      | Some (rest, c) =>
          let matched := take (length s - length rest)%nat s in
          if (length rest <? length s)%nat
          then f calls matched c ++ replace_all r f fuel' (S calls) rest
          else f calls matched c
               ++ match s with
                  | [] => []
                  | ch :: s' => ch :: replace_all r f fuel' (S calls) s'
                  end
      | None =>
          match s with
          | [] => []
          | ch :: s' => ch :: replace_all r f fuel' calls s'
          end
      end
  end.

(** The class of the states of a check box: a blank, or the letter x in
    either case. *)
Definition is_checkbox_state (c : N) : bool := chr " " c || chr "x" c || chr "X" c.

(** The pattern of a check box: an opening bracket, a state (captured), a
    closing bracket. *)
Definition re_checkbox : regex :=
  RCat [RLit "["; RGroup 1 (RSet is_checkbox_state); RLit "]"].

Definition toggleCheckbox (text : jsstring) (checkboxIndex : Z) : jsstring :=
  replace_all re_checkbox
    (fun currentIndex matched c =>
       if (Z.of_nat currentIndex =? checkboxIndex)%Z
       then if str_eq (group 1 c) (js " ") then js "[x]" else js "[ ]"
       else matched)
    (S (length text)) 0 text.


(** ** Notions used to state the properties *)

(** *** Symbol names *)

(** A text that may follow the closing parenthesis of a symbol name: blanks,
    then nothing, or a colon, blanks and a rest free of line terminators. *)
Definition returnSuffix (tail : jsstring) : Prop :=
  exists blanks rest,
    tail = blanks ++ rest /\ Forall (fun c => is_space c = true) blanks
    /\ (rest = []
        \/ exists blanks' type,
             rest = js ":" ++ blanks' ++ type
             /\ Forall (fun c => is_space c = true) blanks'
             /\ Forall (fun c => is_line_terminator c = false) type).

(** [rawName] reads: a prefix without opening parenthesis, a parenthesised
    group without closing parenthesis, an optional colon-prefixed suffix, the
    end of the string. *)
Definition symbolNamePattern (rawName prefix content : jsstring) : Prop :=
  exists tail,
    rawName = prefix ++ js "(" ++ content ++ js ")" ++ tail
    /\ prefix <> []
    /\ Forall (fun c => c <> N_of_ascii "(") prefix
    /\ Forall (fun c => c <> N_of_ascii ")") content
    /\ returnSuffix tail.

(** *** Symbol relocation and navigation *)

(** [x] is the first element of [l] that satisfies [p]. *)
Definition first_such {A : Type} (p : A -> bool) (l : list A) (x : A) : Prop :=
  exists l1 l2, l = l1 ++ x :: l2 /\ p x = true /\ Forall (fun y => p y = false) l1.

Definition none_such {A : Type} (p : A -> bool) (l : list A) : Prop :=
  Forall (fun y => p y = false) l.

(** The three ways a child of a container can match a stored reference. *)
Definition exactMatch (name : jsstring) (c : DocumentSymbol) : bool :=
  str_eq (sym_name c) name.
Definition bareMatch (name : jsstring) (c : DocumentSymbol) : bool :=
  str_eq (bareName (normalizeSymbolName (sym_name c) None))
         (bareName (normalizeSymbolName name None)).
Definition lineMatch (line : option N) (c : DocumentSymbol) : bool :=
  match line with Some l => sym_line c =? l | None => false end.

(** [child] is the child chosen among [children] by the order: first child of
    equal name; failing any, first child of equal bare name; failing any,
    first child on the stored line. *)
Definition containerChoice (children : list DocumentSymbol) (name : jsstring)
    (line : option N) (child : DocumentSymbol) : Prop :=
  first_such (exactMatch name) children child
  \/ (none_such (exactMatch name) children
      /\ first_such (bareMatch name) children child)
  \/ (none_such (exactMatch name) children
      /\ none_such (bareMatch name) children
      /\ first_such (lineMatch line) children child).

(** The example of the specification: a class with three methods. *)
Definition calculator : DocumentSymbol :=
  mkSymbol (js "Calculator") 20 6
    [ mkSymbol (js "add") 22 2 [];
      mkSymbol (js "subtract") 34 2 [];
      mkSymbol (js "multiply") 40 2 [] ].

(** The loop of [findSymbol], run on [symbols] at depth [depth], reaches
    [node]: the symbols before it at its level returned nothing, and so did
    the tests on each of its ancestors, whose earlier siblings returned
    nothing either. *)
Inductive reaches (name : jsstring) (containerName : option jsstring)
    (line : option N) : list DocumentSymbol -> N -> DocumentSymbol -> Prop :=
| reaches_here before node after depth :
    first_some (findSymbol_node name containerName line depth) before = None ->
    reaches name containerName line (before ++ node :: after) depth node
| reaches_below before parent after depth node :
    first_some (findSymbol_node name containerName line depth) before = None ->
    matchSymbol name containerName line parent = None ->
    reaches name containerName line (sym_children parent) (depth + 1) node ->
    reaches name containerName line (before ++ parent :: after) depth node.

(** An editor that opens every file and whose symbol provider answers the
    tree [symbols] (or nothing). *)
Definition editorWith (symbols : option (list DocumentSymbol)) : Editor :=
  {| firstWorkspaceFolder := Some (js "/ws");
     openTextDocument := fun _ _ => true;
     showTextDocument := Answered tt;
     executeDocumentSymbolProvider := fun _ _ => Answered symbols |}.

(** A node bound to a method "bar" stored at line 10, in a file whose only
    symbol is now "foo", at line 3. *)
Definition staleNode : Node :=
  {| id := js "67e2cb2c2eee0e71";
     label := Some (js "bar");
     type := Some code;
     symbol := Some {| symName := js "bar"; symUri := js "src/app.ts";
                       symContainerName := None; symLine := Some 10;
                       symSignature := None |} |}.

Definition otherSymbols : list DocumentSymbol := [mkSymbol (js "foo") 3 9 []].

(** The symbol a navigation locates: the one [findSymbol] returns when the
    provider produced a tree, none when it produced no tree. *)
Definition located (symbols : option (list DocumentSymbol)) (sym : SymbolSignature)
    : option DocumentSymbol :=
  match symbols with
  | Some tree => findSymbol tree (symName sym) (symContainerName sym) (symLine sym) 0
  | None => None
  end.

(** *** Parameter signatures *)





(** A token that carries no style: a variadic marker or an implicit self. *)
Definition skippedToken (t : jsstring) : bool :=
  startsWith (js "*") t || startsWith (js "**") t || startsWith (js "...") t
  || str_eq t (js "self") || str_eq t (js "cls") || str_eq t (js "this").

(** Blanks, an optional question mark, blanks, a colon: what must follow an
    identifier character in a parameter of the colon style. *)
Definition colonAhead (s : jsstring) : bool :=
  match skip is_space s with
  | c :: s' =>
      chr ":" c
      || (chr "?" c && match skip is_space s' with
                       | d :: _ => chr ":" d
                       | [] => false
                       end)
  | [] => false
  end.

(** Somewhere in [t]: an identifier character, an optional question mark,
    a colon (blanks allowed around the question mark). *)
Fixpoint colonLike (t : jsstring) : bool :=
  match t with
  | [] => false
  | c :: t' => (is_word c && colonAhead t') || colonLike t'
  end.

(** [s] is a default clause that runs to the end of the text: blanks, an
    equals sign, blanks, a value without line terminator. *)
Definition defaultClause (s : jsstring) : bool :=
  match skip is_space s with
  | c :: s' => chr "=" c && forallb is_dot (skip is_space s')
  | [] => false
  end.

(** [t] without its trailing default clause, taken from the leftmost place
    where one starts. *)
Fixpoint stripDefault (t : jsstring) : jsstring :=
  if defaultClause t then []
  else match t with
       | [] => []
       | c :: t' => c :: stripDefault t'
       end.

(** The pieces of a text separated by blanks, [cur] being the piece begun. *)
Fixpoint piecesFrom (cur s : jsstring) : list jsstring :=
  match s with
  | [] => if is_empty cur then [] else [cur]
  | c :: s' =>
      if is_space c
      then if is_empty cur then piecesFrom [] s' else cur :: piecesFrom [] s'
      else piecesFrom (cur ++ [c]) s'
  end.

Definition blankSeparated (s : jsstring) : list jsstring := piecesFrom [] s.

(** A piece that looks like a type: a keyword of the fixed set, a leading
    upper-case letter, or a suffix "[]", "*" or "&". *)
Definition typeLike (token : jsstring) : bool :=
  includes_str typeKeywords token
  || match token with c :: _ => is_upper c | [] => false end
  || endsWith (js "[]") token
  || match List.last (List.map Some token) None with
     | Some c => chr "*" c || chr "&" c
     | None => false
     end.

(** The style one token speaks for, if any. *)
Definition styleSignal (t : jsstring) : option ParamStyle :=
  if existsb (chr "$") t then Some php
  else if colonLike t then Some colon
  else
    match blankSeparated (stripDefault t) with
    | first :: _ :: _ => Some (if typeLike first then type_before else type_after_go)
    | _ => None
    end.

(** The style decided by the first token that is not skipped and speaks for
    one; [dynamic] when there is none.  Tokens are read without the blanks
    around them. *)
Fixpoint decidedStyle (tokens : list jsstring) : ParamStyle :=
  match tokens with
  | [] => dynamic
  | t :: rest =>
      if skippedToken (trim t) then decidedStyle rest
      else match styleSignal (trim t) with
           | Some style => style
           | None => decidedStyle rest
           end
  end.

(** A token that is an implicit self once the blanks around it are dropped. *)
Definition selfToken (t : jsstring) : bool :=
  str_eq (trim t) (js "self") || str_eq (trim t) (js "cls")
  || str_eq (trim t) (js "this").

Definition countSelf (tokens : list jsstring) : nat :=
  length (List.filter selfToken tokens).

(** *** Graph construction *)

(** [map.get(key)]. *)
Fixpoint nodeAt (key : jsstring) (m : list (jsstring * Node)) : option Node :=
  match m with
  | [] => None
  | (k, v) :: m' => if str_eq k key then Some v else nodeAt key m'
  end.

(** The items a pass over the callers of [n] can meet, in the order of the
    pass, each with the identifier of the node under which it is met:
    [parentId] for the callers of [n] itself, the identifier of a caller for
    the callers of that caller.  Likewise for the callees. *)
Fixpoint callersMet (host : Host) (n : CallHierarchyNode) (parentId : jsstring)
    : list (CallHierarchyItem * jsstring) :=
  match n with
  | mkCallNode _ callers _ =>
      flat_map (fun c => (node_item c, parentId)
                         :: callersMet host c (generateNodeId host (node_item c)))
               callers
  end.

Fixpoint calleesMet (host : Host) (n : CallHierarchyNode) (parentId : jsstring)
    : list (CallHierarchyItem * jsstring) :=
  match n with
  | mkCallNode _ _ callees =>
      flat_map (fun c => (node_item c, parentId)
                         :: calleesMet host c (generateNodeId host (node_item c)))
               callees
  end.

(** The edge of a caller to the node it calls, and of a node to its callee,
    from the identifier of the item recorded and that of its parent. *)
Definition callerEdge (itemId parentId : jsstring) : Edge :=
  {| from := itemId; to := parentId |}.

Definition calleeEdge (itemId parentId : jsstring) : Edge :=
  {| from := parentId; to := itemId |}.

Definition recordedId (host : Host) (r : CallHierarchyItem * jsstring) : jsstring :=
  generateNodeId host (fst r).

(** [g'] comes from [g] by recording, once each, some of the items of [met]:
    the items recorded are items met, with the parent under which they were
    met and in the order met; the edges added are one per item recorded,
    the edge [join] makes of its identifier and that of its parent; the
    identifiers recorded are pairwise distinct and were not visited in [g],
    and they are what [g'] has visited more than [g]; the node map of [g']
    holds, under the identifier of each item recorded, the node created for
    that item, and is the map of [g] everywhere else; its keys are those of
    [g] and the identifiers recorded; and if it had one node per key, it
    still has. *)
Definition recordsOnce (host : Host) (join : jsstring -> jsstring -> Edge)
    (met : list (CallHierarchyItem * jsstring)) (g g' : Generator) : Prop :=
  exists recorded,
    sublist recorded met
    /\ genEdges g'
       = genEdges g ++ List.map (fun r => join (recordedId host r) (snd r)) recorded
    /\ NoDup (List.map (recordedId host) recorded)
    /\ (forall r, r ∈ recorded -> recordedId host r ∉ visitedNodes g)
    /\ visitedNodes g'
       = visitedNodes g ∪ list_to_set (List.map (recordedId host) recorded)
    /\ (forall r, r ∈ recorded ->
          nodeAt (recordedId host r) (nodeMap g')
          = Some (createNodeFromCallHierarchyItem host (fst r)))
    /\ (forall k, k ∉ List.map (recordedId host) recorded ->
          nodeAt k (nodeMap g') = nodeAt k (nodeMap g))
    /\ (forall k, k ∈ List.map fst (nodeMap g')
                  <-> k ∈ List.map fst (nodeMap g)
                      \/ k ∈ List.map (recordedId host) recorded)
    /\ (NoDup (List.map fst (nodeMap g)) -> NoDup (List.map fst (nodeMap g'))).

(** A generator as its constructor leaves it. *)
Definition newGenerator : Generator :=
  {| nodeMap := []; genEdges := []; visitedNodes := ∅ |}.

(** A workspace "/ws" in which a path under the folder is made relative by
    dropping the folder and the separator, as [path.relative] does; the
    language servers answer nothing. *)
Definition plainHost : Host :=
  {| workspaceFolders := Some [ {| folderName := js "ws"; folderPath := js "/ws" |} ];
     pathRelative := fun folder file => drop (length folder + 1) file;
     prepareCallHierarchy := fun _ _ => None;
     provideIncomingCalls := fun _ => None;
     provideOutgoingCalls := fun _ => None;
     executeHoverProvider := fun _ _ => None |}.

Definition functionItem (name : string) (line : N) : CallHierarchyItem :=
  {| name := js name; kind := Function;
     uri := {| fsPath := js "/ws/src/app.ts"; uriString := js "file:///ws/src/app.ts" |};
     rangeStart := {| line := line; character := 0 |};
     detail := None;
     selectionStart := Some {| line := line; character := 9 |} |}.

(** A hierarchy in which [d] is met twice: as a caller of [b] and as a caller
    of [c], both callers of the root [r]. *)
Definition itemR : CallHierarchyItem := functionItem "r" 10.
Definition itemB : CallHierarchyItem := functionItem "b" 20.
Definition itemC : CallHierarchyItem := functionItem "c" 30.
Definition itemD : CallHierarchyItem := functionItem "d" 40.

Definition sharedCaller : CallHierarchyNode :=
  mkCallNode itemR
    [ mkCallNode itemB [mkCallNode itemD [] []] [];
      mkCallNode itemC [mkCallNode itemD [] []] [] ]
    [].

(** Two functions that call each other: the language servers name [b] as the
    one caller and the one callee of [a], and [a] as those of [b]; the cursor
    is on [a]. *)
Definition itemA : CallHierarchyItem := functionItem "a" 10.

Definition cycleHost : Host :=
  {| workspaceFolders := Some [ {| folderName := js "ws"; folderPath := js "/ws" |} ];
     pathRelative := fun folder file => drop (length folder + 1) file;
     prepareCallHierarchy := fun _ _ => Some [itemA];
     provideIncomingCalls :=
       fun i => if str_eq (name i) (js "a") then Some [itemB] else Some [itemA];
     provideOutgoingCalls :=
       fun i => if str_eq (name i) (js "a") then Some [itemB] else Some [itemA];
     executeHoverProvider := fun _ _ => None |}.

Definition cursorDocument : Uri :=
  {| fsPath := js "/ws/src/app.ts"; uriString := js "file:///ws/src/app.ts" |}.
Definition cursorPosition : Position := {| line := 10; character := 9 |}.

Definition unresolvable : L10n :=
  {| template := "Unable to get call hierarchy. Ensure cursor is on a method definition";
     arguments := [] |}.

(** The same shape as the language servers tell it: [b] and [c] call [r],
    [d] calls both [b] and [c]; the cursor is on [r]. *)
Definition diamondHost : Host :=
  {| workspaceFolders := Some [ {| folderName := js "ws"; folderPath := js "/ws" |} ];
     pathRelative := fun folder file => drop (length folder + 1) file;
     prepareCallHierarchy := fun _ _ => Some [itemR];
     provideIncomingCalls :=
       fun i => if str_eq (name i) (js "r") then Some [itemB; itemC]
                else if str_eq (name i) (js "b") then Some [itemD]
                else if str_eq (name i) (js "c") then Some [itemD]
                else None;
     provideOutgoingCalls := fun _ => None;
     executeHoverProvider := fun _ _ => None |}.

(** *** The method library *)

(** The library after one method was added to the empty workspace state. *)
Definition libraryWithAdd : MethodLibrary.Storage :=
  snd (fst (MethodLibrary.add
              (MethodLibrary.mkNewMethod (js "add") (js "src/calc.ts") None 22 None)
              1700000000000 1700000000000 (js "k3x9q2m1z") None)).

(** *** The matcher on the patterns of the sources

    Functions that say directly what the matcher computes on a starred class
    and on two patterns; the properties below prove them equal to the
    matcher's result. *)

(** What the matcher does for a starred class: take as many units as
    possible, give units back one by one while the continuation fails. *)
Fixpoint greedy {R : Type} (p : N -> bool) (s : jsstring) (c : captures)
    (k : jsstring -> captures -> option R) : option R :=
  match s with
  | ch :: s' =>
      if p ch then
        match greedy p s' c k with
        | Some x => Some x
        | None => k s c
        end
      else k s c
  | [] => k s c
  end.

(** The one way [rawName] can be read after the pattern, if any: the matcher
    has no choice but in the blanks before the return type. *)
Definition symbolNameParts (rawName : jsstring) : option (jsstring * jsstring) :=
  match span (not_chr "(") rawName, skip (not_chr "(") rawName with
  | (_ :: _) as prefix, open :: s2 =>
      match skip (not_chr ")") s2 with
      | close :: s3 =>
          match skip is_space s3 with
          | [] => Some (prefix, span (not_chr ")") s2)
          | c :: s5 =>
              if chr ":" c && forallb is_dot (skip is_space s5)
              then Some (prefix, span (not_chr ")") s2)
              else None
          end
      | [] => None
      end
  | _, _ => None
  end.


(** *** Symbol trees *)

(** The symbols of a tree in document order: each symbol, then its
    descendants, then its next sibling. *)
Fixpoint allSymbols_node (s : DocumentSymbol) : list DocumentSymbol :=
  s :: match s with mkSymbol _ _ _ children => flat_map allSymbols_node children end.

Definition allSymbols (symbols : list DocumentSymbol) : list DocumentSymbol :=
  flat_map allSymbols_node symbols.

(** The name of a symbol without its parameter list. *)
Definition bareOf (name : jsstring) : jsstring :=
  bareName (normalizeSymbolName name None).

(** The four suffixes under which [findSymbol] accepts a qualified name. *)
Definition suffixesOf (name : jsstring) : list jsstring :=
  [ js "." ++ name; js ":" ++ name; js "." ++ bareOf name; js ":" ++ bareOf name ].

(** What a symbol returned for a stored reference has to do with it: the
    same bare name, the stored line, or, when a container is stored, a name
    that ends with the stored name after a dot or a colon. *)
Definition relatedTo (name : jsstring) (containerName : option jsstring)
    (line : option N) (s : DocumentSymbol) : Prop :=
  bareOf (sym_name s) = bareOf name
  \/ line = Some (sym_line s)
  \/ (truthy containerName <> None
      /\ exists suffix, suffix ∈ suffixesOf name
           /\ (endsWith suffix (sym_name s) = true
               \/ endsWith suffix (bareOf (sym_name s)) = true)).

(** The two tests of [findSymbol] that need no container: the stored name,
    or its bare name on a symbol whose own name carries more than that. *)
Definition namedLike (name : jsstring) (s : DocumentSymbol) : Prop :=
  sym_name s = name
  \/ (bareOf (sym_name s) = bareOf name /\ bareOf (sym_name s) <> sym_name s).

(** [namedLike] as a test. *)
Definition namedLikeb (name : jsstring) (s : DocumentSymbol) : bool :=
  str_eq (sym_name s) name
  || (str_eq (bareOf (sym_name s)) (bareOf name)
      && negb (str_eq (bareOf (sym_name s)) (sym_name s))).

(** *** What a navigation shows *)

(** The messages posted to the webview, the places selected and the
    warnings and errors shown, each in order. *)
Definition messagesOf (effects : list Effect) : list WebviewMessage :=
  omap (fun e => match e with postMessage m => Some m | _ => None end) effects.

Definition selectionsOf (effects : list Effect) : list Position :=
  omap (fun e => match e with setSelection p => Some p | _ => None end) effects.

Definition shownOf (effects : list Effect) : list L10n :=
  omap (fun e => match e with
                 | showWarningMessage m | showErrorMessage m => Some m
                 | _ => None
                 end) effects.

(** The node a message is about. *)
Definition aboutNode (m : WebviewMessage) : jsstring :=
  match m with navigationFailed n _ | navigationSuccess n => n end.

Definition isSuccess (m : WebviewMessage) : bool :=
  match m with navigationSuccess _ => true | navigationFailed _ _ => false end.

(** *** Parameter tokens *)

(** The tokens made of blanks only. *)
Definition countBlank (tokens : list jsstring) : nat :=
  length (List.filter (fun t => is_empty (trim t)) tokens).

(** A signature as the data model wants it: a parenthesised list. *)
Definition parenthesised (s : jsstring) : Prop :=
  exists inner, s = js "(" ++ inner ++ js ")".

(** *** Call hierarchies *)

Definition keyOf (n : CallHierarchyNode) : jsstring := getNodeKey (node_item n).

(** The nodes of a hierarchy: the node, those of its callers, those of its
    callees. *)
Fixpoint allNodes (n : CallHierarchyNode) : list CallHierarchyNode :=
  n :: match n with
       | mkCallNode _ callers callees =>
           flat_map allNodes callers ++ flat_map allNodes callees
       end.

Definition forestKeys (nodes : list CallHierarchyNode) : list jsstring :=
  List.map keyOf (flat_map allNodes nodes).

(** The number of levels below a node. *)
Fixpoint levels (n : CallHierarchyNode) : nat :=
  match n with
  | mkCallNode _ callers callees =>
      Nat.max (list_max (List.map (fun c => S (levels c)) callers))
              (list_max (List.map (fun c => S (levels c)) callees))
  end.

(** The calls a hierarchy tells, each as the pair of the caller and the
    callee: those met going up through the callers, and those met going down
    through the callees. *)
Fixpoint callerLinks (n : CallHierarchyNode)
    : list (CallHierarchyItem * CallHierarchyItem) :=
  match n with
  | mkCallNode i callers _ =>
      flat_map (fun c => (node_item c, i) :: callerLinks c) callers
  end.

Fixpoint calleeLinks (n : CallHierarchyNode)
    : list (CallHierarchyItem * CallHierarchyItem) :=
  match n with
  | mkCallNode i _ callees =>
      flat_map (fun c => (i, node_item c) :: calleeLinks c) callees
  end.

(** A call that a language server reported, from one side or the other. *)
Definition reportedCall (host : Host) (caller callee : CallHierarchyItem) : Prop :=
  caller ∈ answered (provideIncomingCalls host callee)
  \/ callee ∈ answered (provideOutgoingCalls host caller).

(** One turn of the loops of [getIncomingCalls] and [getOutgoingCalls]:
    [below] is the recursive call (or nothing at the last level), [mk] makes
    the node of an item from what lies below it. *)
Definition exploreTurn
    (below : CallHierarchyItem -> gset jsstring -> list CallHierarchyNode * gset jsstring)
    (mk : CallHierarchyItem -> list CallHierarchyNode -> CallHierarchyNode)
    (acc : list CallHierarchyNode * gset jsstring) (i : CallHierarchyItem)
    : list CallHierarchyNode * gset jsstring :=
  let '(found, visited) := acc in
  let nodeKey := getNodeKey i in
  if bool_decide (nodeKey ∈ visited) then (found, visited)
  else
    let visited := {[nodeKey]} ∪ visited in
    let '(sub, visited) := below i visited in
    (found ++ [mk i sub], visited).

(** What lies below an item when [remaining] levels are left. *)
Definition incomingBelow (host : Host) (remaining : nat) (i : CallHierarchyItem)
    (visited : gset jsstring) : list CallHierarchyNode * gset jsstring :=
  match remaining with
  | S remaining' => getIncomingCalls_at host remaining' i visited
  | O => ([], visited)
  end.

Definition outgoingBelow (host : Host) (remaining : nat) (i : CallHierarchyItem)
    (visited : gset jsstring) : list CallHierarchyNode * gset jsstring :=
  match remaining with
  | S remaining' => getOutgoingCalls_at host remaining' i visited
  | O => ([], visited)
  end.

Definition callerNode (i : CallHierarchyItem) (sub : list CallHierarchyNode)
    : CallHierarchyNode := mkCallNode i sub [].
Definition calleeNode (i : CallHierarchyItem) (sub : list CallHierarchyNode)
    : CallHierarchyNode := mkCallNode i [] sub.

(** An exploration from the visited keys [visited] that found the forest
    [found] and left the visited keys [visited']: the keys of the forest are
    pairwise distinct, were not visited, and are what was added. *)
Definition explored (visited : gset jsstring)
    (result : list CallHierarchyNode * gset jsstring) : Prop :=
  NoDup (forestKeys (fst result))
  /\ (forall k, k ∈ forestKeys (fst result) -> k ∉ visited)
  /\ snd result = visited ∪ list_to_set (forestKeys (fst result)).

(** A node found among the callers of [parent]: the language server named
    its item as a caller of [parent], every call told above it was reported
    the same way, and it has at most [bound] levels. *)
Definition callerFound (host : Host) (bound : nat) (parent : CallHierarchyItem)
    (n : CallHierarchyNode) : Prop :=
  node_item n ∈ answered (provideIncomingCalls host parent)
  /\ (forall caller callee, (caller, callee) ∈ callerLinks n ->
        caller ∈ answered (provideIncomingCalls host callee))
  /\ (levels n <= bound)%nat.

Definition calleeFound (host : Host) (bound : nat) (parent : CallHierarchyItem)
    (n : CallHierarchyNode) : Prop :=
  node_item n ∈ answered (provideOutgoingCalls host parent)
  /\ (forall caller callee, (caller, callee) ∈ calleeLinks n ->
        callee ∈ answered (provideOutgoingCalls host caller))
  /\ (levels n <= bound)%nat.

(** *** Generated graphs *)

Definition keysOf (g : Generator) : list jsstring := List.map fst (nodeMap g).

(** Every node of the map is the node created for a call-hierarchy item,
    stored under the identifier of the item. *)
Definition createdBy (host : Host) (g : Generator) : Prop :=
  Forall (fun kv => exists i,
            kv = (generateNodeId host i, createNodeFromCallHierarchyItem host i))
         (nodeMap g).

(** [e] joins the nodes of the two ends of a call of [links]. *)
Definition joins (host : Host) (links : list (CallHierarchyItem * CallHierarchyItem))
    (e : Edge) : Prop :=
  exists caller callee,
    (caller, callee) ∈ links
    /\ from e = generateNodeId host caller /\ to e = generateNodeId host callee.

(** [g'] comes from [g] by steps that keep the graph whole: keys are added
    after those there were, one node per key and each node created for an
    item if it was so, and every edge added joins two keys of [g'], those of
    the two ends of a call of [links]. *)
Definition grows (host : Host) (links : list (CallHierarchyItem * CallHierarchyItem))
    (g g' : Generator) : Prop :=
  (exists more, keysOf g' = keysOf g ++ more)
  /\ (NoDup (keysOf g) -> NoDup (keysOf g'))
  /\ (createdBy host g -> createdBy host g')
  /\ exists added,
       genEdges g' = genEdges g ++ added
       /\ Forall (fun e => from e ∈ keysOf g' /\ to e ∈ keysOf g' /\ joins host links e)
                 added.

(** The document generated for the cursor of [diamondHost], with the
    default options. *)
Definition diamondDocument : CallGraphDocument :=
  match fst (generateFromCodePosition diamondHost cursorDocument cursorPosition
               {| depth := None; direction := None |} newGenerator) with
  | inr doc => doc
  | inl _ => {| title := None; nodes := []; edges := [] |}
  end.

(** A bare name: letters, digits and underscores only. *)
Definition bareParam (t : jsstring) : bool := forallb is_word t.

(** An implicit self, on a token read without the blanks around it. *)
Definition isSelf (p : jsstring) : bool :=
  str_eq p (js "self") || str_eq p (js "cls") || str_eq p (js "this").

(** A lower-case hexadecimal digit. *)
Definition is_hex_digit (c : N) : bool :=
  ((48 <=? c) && (c <=? 57)) || ((97 <=? c) && (c <=? 102)).

(** *** The symbol under the cursor *)

(** The symbols of a tree in document order. *)
Fixpoint allCursorSymbols_node (s : CursorSymbol) : list CursorSymbol :=
  s :: match s with
       | mkCursorSymbol _ _ _ _ _ _ _ children =>
           flat_map allCursorSymbols_node children
       end.

Definition allCursorSymbols (symbols : list CursorSymbol) : list CursorSymbol :=
  flat_map allCursorSymbols_node symbols.

(** The same symbol as the relocator reads it. *)
Fixpoint asDocumentSymbol (s : CursorSymbol) : DocumentSymbol :=
  match s with
  | mkCursorSymbol _ name _ _ _ selLine selCharacter children =>
      mkSymbol name selLine selCharacter (List.map asDocumentSymbol children)
  end.

(** The class of the example as the symbol provider tells it, with its
    ranges: the class spans lines 20 to 50, [add] lines 22 to 30. *)
Definition addAtCursor : CursorSymbol :=
  mkCursorSymbol 2 (js "add") (Some (js "(a: number, b: number): number")) Method
    {| rangeFrom := {| line := 22; character := 2 |};
       rangeTo := {| line := 30; character := 3 |} |} 22 2 [].

Definition calculatorAtCursor : CursorSymbol :=
  mkCursorSymbol 1 (js "Calculator") None OtherKind
    {| rangeFrom := {| line := 20; character := 0 |};
       rangeTo := {| line := 50; character := 1 |} |} 20 6
    [ addAtCursor;
      mkCursorSymbol 3 (js "subtract") None Method
        {| rangeFrom := {| line := 34; character := 2 |};
           rangeTo := {| line := 38; character := 3 |} |} 34 2 [] ].

(** *** Check boxes *)

(** The callback of [toggleCheckbox]. *)
Definition toggling (checkboxIndex : Z) (currentIndex : nat) (matched : jsstring)
    (c : captures) : jsstring :=
  if (Z.of_nat currentIndex =? checkboxIndex)%Z
  then if str_eq (group 1 c) (js " ") then js "[x]" else js "[ ]"
  else matched.

(** Three units that make a check box. *)
Definition isBox (a b c : N) : bool :=
  chr "[" a && is_checkbox_state b && chr "]" c.

(** The other state of a check box: checked for a blank, blank for the
    rest. *)
Definition flipState (b : N) : N := if chr " " b then N_of_ascii "x" else N_of_ascii " ".

(** Two units that are the same, or two states of a check box. *)
Definition alike (a b : N) : Prop :=
  a = b \/ (is_checkbox_state a = true /\ is_checkbox_state b = true).

(** A check box starts at the unit [a] that comes before the text [t]. *)
Definition boxAhead (a : N) (t : jsstring) : bool :=
  match t with
  | b :: c :: _ => isBox a b c
  | _ => false
  end.

(** The states of the check boxes of a text, in order: a box is looked for
    at each unit, and after a box from the unit after it. *)
Fixpoint boxStates (s : jsstring) : list N :=
  match s with
  | a :: s' =>
      match s' with
      | b :: c :: rest => if isBox a b c then b :: boxStates rest else boxStates s'
      | _ => boxStates s'
      end
  | [] => []
  end.

(** *** Hovers *)

(** What the matcher does for a lazily starred class: try what follows, and
    take one more unit of the class each time that fails. *)
Fixpoint lazily {R : Type} (p : N -> bool) (s : jsstring) (c : captures)
    (k : jsstring -> captures -> option R) : option R :=
  match k s c with
  | Some x => Some x
  | None =>
      match s with
      | ch :: s' => if p ch then lazily p s' c k else None
      | [] => None
      end
  end.

(** A hover in the form the language servers give it: a fenced code block
    with the name of the language on the line of the opening fence. *)
Definition fenced (lang body : jsstring) : jsstring :=
  js "```" ++ lang ++ [10] ++ body ++ [10] ++ js "```".

(** The line of a declaration as a hover shows it: what precedes the
    parameter list, the list in parentheses, and what introduces the type of
    the result. *)
Definition declarationLine (name params blanks sep ret : jsstring) : jsstring :=
  name ++ js "(" ++ params ++ js ")" ++ blanks ++ sep ++ ret.


(** * Properties *)

(** ** The matcher on quantified classes *)

Lemma rmatch_star_set {R : Type} (p : N -> bool) (s : jsstring) (c : captures)
    (k : jsstring -> captures -> option R) :
  rmatch (RStar (RSet p)) s c k = greedy p s c k.
Proof.
  cbn [rmatch].
  generalize (le_n (length s)). generalize (length s) at 2 3 as fuel.
  intros fuel. revert s.
  induction fuel as [|fuel IH]; intros s Hlen.
  - destruct s; [reflexivity|simpl in Hlen; lia].
  - destruct s as [|ch s']; [reflexivity|].
    cbn [greedy]. destruct (p ch); [|reflexivity].
    replace (length s' <? length (ch :: s'))%nat with true
      by (symmetry; apply Nat.ltb_lt; simpl; lia).
    rewrite IH by (simpl in Hlen; lia). reflexivity.
Qed.

Lemma skip_span (p : N -> bool) (s : jsstring) : span p s ++ skip p s = s.
Proof. induction s as [|ch s IH]; simpl; [easy|]. destruct (p ch); simpl; congruence. Qed.

Lemma span_Forall (p : N -> bool) (s : jsstring) :
  Forall (fun c => p c = true) (span p s).
Proof.
  induction s as [|ch s IH]; simpl; [constructor|].
  destruct (p ch) eqn:E; [constructor; assumption|constructor].
Qed.

Lemma skip_head (p : N -> bool) (s : jsstring) ch s' :
  skip p s = ch :: s' -> p ch = false.
Proof.
  induction s as [|d s IH]; simpl; [discriminate|].
  destruct (p d) eqn:E; [exact IH|]. intros [= <- _]. exact E.
Qed.

Lemma skip_app_stop (p : N -> bool) (run rest : jsstring) :
  Forall (fun c => p c = true) run ->
  match rest with [] => True | ch :: _ => p ch = false end ->
  skip p (run ++ rest) = rest /\ span p (run ++ rest) = run.
Proof.
  intros Hrun Hrest. induction Hrun as [|d run Hd _ IH]; simpl.
  - destruct rest as [|ch rest]; simpl; [easy|]. now rewrite Hrest.
  - rewrite Hd. destruct IH as [-> ->]. easy.
Qed.

(** When the continuation cannot start on a unit of the class, nothing is
    given back. *)
Lemma greedy_skip {R : Type} (p : N -> bool) (s : jsstring) (c : captures)
    (k : jsstring -> captures -> option R) :
  (forall ch s', p ch = true -> k (ch :: s') c = None) ->
  greedy p s c k = k (skip p s) c.
Proof.
  intros Hk. induction s as [|ch s IH]; simpl; [reflexivity|].
  destruct (p ch) eqn:E; [|reflexivity].
  rewrite IH. destruct (k (skip p s) c); [reflexivity|]. now apply Hk.
Qed.

(** A starred [.] before the end of the input. *)
Lemma greedy_dots_end {R : Type} (s : jsstring) (c : captures)
    (k : jsstring -> captures -> option R) :
  greedy is_dot s c (fun s' c' => rmatch REnd s' c' k)
  = if forallb is_dot s then k [] c else None.
Proof.
  induction s as [|ch s IH]; cbn [greedy forallb]; [reflexivity|].
  destruct (is_dot ch); cbn [andb]; [|reflexivity].
  rewrite IH. destruct (forallb is_dot s); [|reflexivity].
  now destruct (k [] c).
Qed.

(** The equations of the matcher, one per constructor. *)
Lemma rmatch_seq {R : Type} r1 r2 s c (k : jsstring -> captures -> option R) :
  rmatch (RSeq r1 r2) s c k = rmatch r1 s c (fun s' c' => rmatch r2 s' c' k).
Proof. reflexivity. Qed.

Lemma rmatch_set {R : Type} p s c (k : jsstring -> captures -> option R) :
  rmatch (RSet p) s c k
  = match s with ch :: s' => if p ch then k s' c else None | [] => None end.
Proof. reflexivity. Qed.

Lemma rmatch_group {R : Type} i r s c (k : jsstring -> captures -> option R) :
  rmatch (RGroup i r) s c k
  = rmatch r s c (fun s' c' => k s' ((i, take (length s - length s')%nat s) :: c')).
Proof. reflexivity. Qed.

Lemma rmatch_opt {R : Type} r s c (k : jsstring -> captures -> option R) :
  rmatch (ROpt r) s c k
  = match rmatch r s c k with Some x => Some x | None => k s c end.
Proof. reflexivity. Qed.

Lemma rmatch_end {R : Type} s c (k : jsstring -> captures -> option R) :
  rmatch REnd s c k = match s with [] => k s c | _ :: _ => None end.
Proof. reflexivity. Qed.

Lemma length_skip_le (p : N -> bool) (s : jsstring) :
  (length (skip p s) <= length s)%nat.
Proof. induction s as [|ch s IH]; simpl; [lia|]. destruct (p ch); simpl; lia. Qed.

Lemma take_span (p : N -> bool) (s : jsstring) :
  take (length s - length (skip p s))%nat s = span p s.
Proof.
  rewrite <- (skip_span p s) at 1 3.
  rewrite length_app.
  replace (length (span p s) + length (skip p s) - length (skip p s))%nat
    with (length (span p s)) by lia.
  now rewrite take_app_length.
Qed.

Lemma take_span_cons (p : N -> bool) (ch : N) (s rest : jsstring) :
  skip p s = rest ->
  take (length (ch :: s) - length rest)%nat (ch :: s) = ch :: span p s.
Proof.
  intros <-. pose proof (length_skip_le p s) as Hle.
  replace (length (ch :: s) - length (skip p s))%nat
    with (S (length s - length (skip p s))) by (simpl; lia).
  cbn [take]. now rewrite take_span.
Qed.

Lemma chr_not_chr a c : chr a c = negb (not_chr a c).
Proof. unfold chr, not_chr. now rewrite negb_involutive. Qed.

Lemma forallb_tail (p : N -> bool) ch (s : jsstring) :
  forallb p (ch :: s) = true -> forallb p s = true.
Proof. simpl. now intros [_ H]%andb_true_iff. Qed.

Lemma forallb_skip (p q : N -> bool) (s : jsstring) :
  forallb q s = true -> forallb q (skip p s) = true.
Proof.
  induction s as [|ch s IH]; simpl; [easy|].
  intros [Hch Hs]%andb_true_iff. destruct (p ch); [auto|].
  simpl. now rewrite Hch, Hs.
Qed.

(** Blanks, then a rest free of line terminators up to the end of the input:
    the blanks given back do not matter. *)
Lemma greedy_blanks_dots_end {R : Type} (s : jsstring) (c : captures)
    (k : jsstring -> captures -> option R) :
  greedy is_space s c
    (fun s' c' => rmatch (RStar (RSet is_dot)) s' c' (fun s0 c0 => rmatch REnd s0 c0 k))
  = if forallb is_dot (skip is_space s) then k [] c else None.
Proof.
  induction s as [|ch s IH]; cbn [greedy skip].
  - now rewrite rmatch_star_set, greedy_dots_end.
  - destruct (is_space ch) eqn:E.
    + rewrite IH, rmatch_star_set, greedy_dots_end.
      destruct (forallb is_dot (skip is_space s)) eqn:Ed.
      * destruct (k [] c) eqn:Ek; [reflexivity|].
        now destruct (forallb is_dot (ch :: s)).
      * destruct (forallb is_dot (ch :: s)) eqn:E2; [|reflexivity].
        apply forallb_tail in E2. apply (forallb_skip is_space) in E2. congruence.
    + now rewrite rmatch_star_set, greedy_dots_end.
Qed.

(** ** Symbol names *)

(** The matcher on the pattern of symbol names. *)
Lemma exec_symbolName (rawName : jsstring) :
  exec_start re_symbolName rawName
  = match symbolNameParts rawName with
    | Some (prefix, content) => Some ([], [(2%nat, content); (1%nat, prefix)])
    | None => None
    end.
Proof.
  unfold exec_start, re_symbolName, symbolNameParts. cbn [RCat]. unfold RPlus, RLit.
  rewrite rmatch_seq, rmatch_group, rmatch_seq, rmatch_set.
  destruct rawName as [|ch s1]; [reflexivity|]. cbn [span skip].
  destruct (not_chr "(" ch) eqn:Ech; [|reflexivity].
  rewrite rmatch_star_set, greedy_skip.
  2:{ intros d s' Hd. rewrite rmatch_seq, rmatch_set, chr_not_chr, Hd. reflexivity. }
  destruct (skip (not_chr "(") s1) as [|open s2] eqn:Eskip1.
  { reflexivity. }
  rewrite rmatch_seq, rmatch_set.
  pose proof (skip_head _ _ _ _ Eskip1) as Hopen.
  rewrite chr_not_chr, Hopen. cbn [negb].
  rewrite (take_span_cons _ _ _ _ Eskip1).
  rewrite rmatch_seq, rmatch_group, rmatch_star_set, greedy_skip.
  2:{ intros d s' Hd. rewrite rmatch_seq, rmatch_set, chr_not_chr, Hd. reflexivity. }
  destruct (skip (not_chr ")") s2) as [|close s3] eqn:Eskip2.
  { reflexivity. }
  rewrite rmatch_seq, rmatch_set.
  pose proof (skip_head _ _ _ _ Eskip2) as Hclose.
  rewrite chr_not_chr, Hclose. cbn [negb].
  rewrite <- Eskip2, take_span.
  rewrite rmatch_seq, rmatch_star_set, greedy_skip.
  2:{ intros d s' Hd. rewrite rmatch_seq, rmatch_opt, !rmatch_seq, rmatch_set, rmatch_end.
      replace (chr ":" d) with false; [reflexivity|].
      unfold chr. symmetry. apply N.eqb_neq. intros ->. discriminate. }
  rewrite rmatch_seq, rmatch_opt, !rmatch_seq, rmatch_set.
  destruct (skip is_space s3) as [|c s5] eqn:Eskip3.
  { reflexivity. }
  destruct (chr ":" c) eqn:Ecolon; cbn [andb]; [|now rewrite rmatch_end].
  rewrite rmatch_seq, rmatch_star_set.
  rewrite greedy_blanks_dots_end.
  destruct (forallb is_dot (skip is_space s5)); [reflexivity|].
  now rewrite rmatch_end.
Qed.

Lemma skip_app_all (p : N -> bool) (run rest : jsstring) :
  Forall (fun c => p c = true) run -> skip p (run ++ rest) = skip p rest.
Proof. induction 1 as [|d run Hd _ IH]; simpl; [easy|]. now rewrite Hd. Qed.

Lemma not_chr_true a c : not_chr a c = true <-> c <> N_of_ascii a.
Proof. unfold not_chr. rewrite negb_true_iff. apply N.eqb_neq. Qed.

Lemma not_chr_false a c : not_chr a c = false <-> c = N_of_ascii a.
Proof. unfold not_chr. rewrite negb_false_iff. apply N.eqb_eq. Qed.

Lemma chr_true a c : chr a c = true <-> c = N_of_ascii a.
Proof. apply N.eqb_eq. Qed.

Lemma Forall_not_chr a (s : jsstring) :
  Forall (fun c => c <> N_of_ascii a) s <-> Forall (fun c => not_chr a c = true) s.
Proof. apply Forall_iff. intros c. symmetry. apply not_chr_true. Qed.

Lemma Forall_forallb (p : N -> bool) (s : jsstring) :
  Forall (fun c => p c = true) s <-> forallb p s = true.
Proof. rewrite forallb_forall, List.Forall_forall. reflexivity. Qed.

Lemma Forall_dot (s : jsstring) :
  Forall (fun c => is_line_terminator c = false) s <-> forallb is_dot s = true.
Proof.
  rewrite <- Forall_forallb. apply Forall_iff. intros c. unfold is_dot.
  now rewrite negb_true_iff.
Qed.

(** The pattern, as a property of the text, and its one reading agree. *)
Lemma symbolNameParts_complete rawName prefix content :
  symbolNamePattern rawName prefix content ->
  symbolNameParts rawName = Some (prefix, content).
Proof.
  intros (tail & -> & Hne & Hprefix & Hcontent & blanks & rest & -> & Hblanks & Hrest).
  unfold symbolNameParts.
  apply (Forall_not_chr "(") in Hprefix. apply (Forall_not_chr ")") in Hcontent.
  destruct (skip_app_stop (not_chr "(") prefix
              (js "(" ++ content ++ js ")" ++ blanks ++ rest) Hprefix eq_refl)
    as [-> ->].
  destruct prefix as [|p0 prefix]; [congruence|].
  cbn [js List.map list_ascii_of_string app].
  destruct (skip_app_stop (not_chr ")") content
              (N_of_ascii ")" :: blanks ++ rest) Hcontent eq_refl)
    as [-> ->].
  destruct Hrest as [-> | (blanks' & type & -> & Hblanks' & Htype)].
  - now destruct (skip_app_stop is_space blanks [] Hblanks I) as [-> _].
  - cbn [js List.map list_ascii_of_string app].
    destruct (skip_app_stop is_space blanks (N_of_ascii ":" :: blanks' ++ type)
                Hblanks eq_refl) as [-> _].
    rewrite skip_app_all by assumption.
    apply Forall_dot in Htype. apply (forallb_skip is_space) in Htype.
    now rewrite Htype.
Qed.

Lemma symbolNameParts_sound rawName prefix content :
  symbolNameParts rawName = Some (prefix, content) ->
  symbolNamePattern rawName prefix content.
Proof.
  unfold symbolNameParts.
  destruct (span (not_chr "(") rawName) as [|p0 pre] eqn:Espan; [discriminate|].
  destruct (skip (not_chr "(") rawName) as [|open s2] eqn:Eskip1; [discriminate|].
  destruct (skip (not_chr ")") s2) as [|close s3] eqn:Eskip2; [discriminate|].
  pose proof (skip_head _ _ _ _ Eskip1) as Hopen%not_chr_false.
  pose proof (skip_head _ _ _ _ Eskip2) as Hclose%not_chr_false.
  intros Hparts.
  assert (Hret : returnSuffix s3 /\ prefix = p0 :: pre /\ content = span (not_chr ")") s2).
  { destruct (skip is_space s3) as [|c s5] eqn:Eskip3.
    - injection Hparts as <- <-. split; [|easy].
      exists (span is_space s3), []. rewrite <- Eskip3, skip_span.
      split; [easy|]. split; [apply span_Forall|now left].
    - destruct (chr ":" c) eqn:Ec; [|discriminate]. cbn [andb] in Hparts.
      destruct (forallb is_dot (skip is_space s5)) eqn:Ed; [|discriminate].
      injection Hparts as <- <-. split; [|easy].
      exists (span is_space s3), (c :: s5). rewrite <- Eskip3, skip_span.
      split; [easy|]. split; [apply span_Forall|right].
      exists (span is_space s5), (skip is_space s5).
      apply chr_true in Ec. subst c. rewrite Eskip3. cbn. rewrite skip_span.
      split; [easy|]. split; [apply span_Forall|now apply Forall_dot]. }
  destruct Hret as (Hret & -> & ->).
  exists s3. repeat split; try assumption; try easy.
  - rewrite <- (skip_span (not_chr "(") rawName), Espan, Eskip1, Hopen.
    rewrite <- (skip_span (not_chr ")") s2) at 1. rewrite Eskip2, Hclose.
    reflexivity.
  - rewrite <- Espan. apply (Forall_not_chr "("), span_Forall.
  - apply (Forall_not_chr ")"), span_Forall.
Qed.

(** C3.  [normalizeSymbolName] on a raw name that reads "prefix,
    parenthesised group, optional colon-prefixed suffix, end of string"
    returns the trimmed prefix as bare name and the trimmed content of the
    group, between parentheses, as signature; on any other raw name it
    returns the raw name unchanged, with the detail as signature if one is
    given and is not empty, and no signature otherwise.  In particular
    "add" gives the bare name "add" without signature, and
    "Method(int, string) : void" gives "Method" and "(int, string)". *)
Theorem normalizeSymbolName_spec :
  (forall rawName rawDetail prefix content,
      symbolNamePattern rawName prefix content ->
      normalizeSymbolName rawName rawDetail
      = {| bareName := trim prefix;
           signature := Some (js "(" ++ trim content ++ js ")") |})
  /\ (forall rawName rawDetail,
        (forall prefix content, ~ symbolNamePattern rawName prefix content) ->
        normalizeSymbolName rawName rawDetail
        = {| bareName := rawName;
             signature := match rawDetail with
                          | Some (c :: d) => Some (c :: d)
                          | _ => None
                          end |})
  /\ normalizeSymbolName (js "add") None
     = {| bareName := js "add"; signature := None |}
  /\ normalizeSymbolName (js "Method(int, string) : void") None
     = {| bareName := js "Method"; signature := Some (js "(int, string)") |}.
Proof.
  split; [|split; [|split; reflexivity]].
  - intros rawName rawDetail prefix content Hpattern.
    unfold normalizeSymbolName.
    rewrite exec_symbolName, (symbolNameParts_complete _ _ _ Hpattern).
    reflexivity.
  - intros rawName rawDetail Hnone. unfold normalizeSymbolName.
    rewrite exec_symbolName.
    destruct (symbolNameParts rawName) as [[prefix content]|] eqn:Eparts.
    + apply symbolNameParts_sound in Eparts. now apply Hnone in Eparts.
    + now destruct rawDetail as [[|c d]|].
Qed.

Lemma normalizeSymbolName_spec_witness :
  symbolNamePattern (js "Method(int, string) : void") (js "Method") (js "int, string")
  /\ normalizeSymbolName (js "Method(int, string) : void") (Some (js "void"))
     = {| bareName := js "Method"; signature := Some (js "(int, string)") |}.
Proof.
  assert (H : symbolNamePattern (js "Method(int, string) : void")
                (js "Method") (js "int, string")).
  { exists (js " : void"). split; [reflexivity|]. split; [discriminate|].
    split; [repeat (constructor; [discriminate|]); constructor|].
    split; [repeat (constructor; [discriminate|]); constructor|].
    exists (js " "), (js ": void"). split; [reflexivity|].
    split; [repeat (constructor; [reflexivity|]); constructor|].
    right. exists (js " "), (js "void"). split; [reflexivity|].
    split; repeat (constructor; [reflexivity|]); constructor. }
  split; [exact H|].
  exact (proj1 normalizeSymbolName_spec _ (Some (js "void")) _ _ H).
Defined.

(** ** Symbol relocation *)

Lemma find_first_such {A : Type} (p : A -> bool) (l : list A) (x : A) :
  first_such p l x -> List.find p l = Some x.
Proof.
  intros (l1 & l2 & -> & Hx & Hl1).
  induction Hl1 as [|y l1 Hy _ IH]; simpl.
  - now rewrite Hx.
  - now rewrite Hy.
Qed.

Lemma find_none_such {A : Type} (p : A -> bool) (l : list A) :
  none_such p l -> List.find p l = None.
Proof.
  induction 1 as [|y l Hy _ IH]; simpl; [easy|]. now rewrite Hy.
Qed.

Lemma first_some_app {A B : Type} (f : A -> option B) (l1 l2 : list A) :
  first_some f (l1 ++ l2)
  = match first_some f l1 with Some y => Some y | None => first_some f l2 end.
Proof.
  induction l1 as [|x l1 IH]; simpl; [easy|].
  destruct (f x); [easy|apply IH].
Qed.

Lemma str_eq_true (a b : jsstring) : str_eq a b = true <-> a = b.
Proof. unfold str_eq. apply bool_decide_eq_true. Qed.

Lemma str_eq_refl (a : jsstring) : str_eq a a = true.
Proof. now apply str_eq_true. Qed.

(** The recursive call of a turn of the loop is [findSymbol] itself, on the
    children and one level down. *)
Lemma findSymbol_node_unfold name containerName line depth symbol :
  findSymbol_node name containerName line depth symbol
  = match matchSymbol name containerName line symbol with
    | Some found => Some found
    | None => findSymbol (sym_children symbol) name containerName line (depth + 1)
    end.
Proof. destruct symbol. reflexivity. Qed.

Lemma findInContainer_choice children name line child :
  containerChoice children name line child ->
  findInContainer children name line = Some child.
Proof.
  unfold findInContainer.
  intros [Ha | [(Hna & Hb) | (Hna & Hnb & Hc)]].
  - apply find_first_such in Ha. unfold exactMatch in Ha. now rewrite Ha.
  - apply find_none_such in Hna. apply find_first_such in Hb.
    unfold exactMatch in Hna. unfold bareMatch in Hb. now rewrite Hna, Hb.
  - apply find_none_such in Hna, Hnb.
    unfold exactMatch in Hna. unfold bareMatch in Hnb. rewrite Hna, Hnb.
    destruct line as [l|].
    + apply find_first_such in Hc. exact Hc.
    + destruct Hc as (? & ? & _ & Hfalse & _). discriminate.
Qed.

Lemma matchSymbol_container name container line node child :
  container <> [] ->
  sym_name node = container ->
  findInContainer (sym_children node) name line = Some child ->
  matchSymbol name (Some container) line node = Some child.
Proof.
  intros Hne Hname Hfind. unfold matchSymbol.
  destruct container as [|c0 container]; [congruence|]. cbn [truthy].
  rewrite Hname, str_eq_refl, Hfind. reflexivity.
Qed.

Lemma reaches_findSymbol name containerName line symbols depth node found :
  reaches name containerName line symbols depth node ->
  matchSymbol name containerName line node = Some found ->
  findSymbol symbols name containerName line depth = Some found.
Proof.
  intros Hreach Hmatch.
  induction Hreach as [before node after depth Hbefore
                      |before parent after depth node Hbefore Hparent _ IH];
    unfold findSymbol; rewrite first_some_app, Hbefore; cbn [first_some];
    rewrite findSymbol_node_unfold.
  - now rewrite Hmatch.
  - now rewrite Hparent, (IH Hmatch).
Qed.

(** C1.  With a container name stored, when the loop of [findSymbol] reaches
    a node of that very name, at the root or anywhere below it, the search
    goes through the direct children of the node in a fixed order (equal
    name, then equal bare name, then equal line) and the first child so
    matched is what [findSymbol] returns.  In particular the stored
    reference "multiply" in "Calculator", line 40, is found as the child
    "multiply" of a node "Calculator" with children add, subtract,
    multiply. *)
Theorem findSymbol_container_children :
  (forall (symbols : list DocumentSymbol) (node child : DocumentSymbol)
          (name container : jsstring) (line : option N) (depth : N),
      container <> [] ->
      sym_name node = container ->
      reaches name (Some container) line symbols depth node ->
      containerChoice (sym_children node) name line child ->
      findSymbol symbols name (Some container) line depth = Some child)
  /\ findSymbol [calculator] (js "multiply") (Some (js "Calculator")) (Some 40) 0
     = Some (mkSymbol (js "multiply") 40 2 []).
Proof.
  split; [|vm_compute; reflexivity].
  intros symbols node child name container line depth Hne Hname Hreach Hchoice.
  apply (reaches_findSymbol _ _ _ _ _ node); [exact Hreach|].
  apply matchSymbol_container; auto using findInContainer_choice.
Qed.

Lemma findSymbol_container_children_witness :
  findSymbol [ mkSymbol (js "helper") 5 9 [];
               mkSymbol (js "shapes") 8 10 [calculator] ]
             (js "multiply") (Some (js "Calculator")) (Some 38) 0
  = Some (mkSymbol (js "multiply") 40 2 []).
Proof.
  apply (proj1 findSymbol_container_children _ calculator _ _ (js "Calculator")).
  - discriminate.
  - reflexivity.
  - apply (reaches_below _ _ _ [mkSymbol (js "helper") 5 9 []]
             (mkSymbol (js "shapes") 8 10 [calculator]) []);
      [reflexivity|reflexivity|].
    apply (reaches_here _ _ _ [] calculator []). reflexivity.
  - left. exists [mkSymbol (js "add") 22 2 []; mkSymbol (js "subtract") 34 2 []], [].
    split; [reflexivity|]. split; [reflexivity|].
    repeat (constructor; [reflexivity|]). constructor.
Defined.

(** ** Splitting a parameter list *)










(** ** Detecting the parameter style *)

(** A weaker condition under which a starred class gives nothing back: the
    continuation fails on a text as soon as it fails on the text without its
    leading units of the class. *)
Lemma greedy_skip_absorb {R : Type} (p : N -> bool) (s : jsstring) (c : captures)
    (k : jsstring -> captures -> option R) :
  (forall t, k (skip p t) c = None -> k t c = None) ->
  greedy p s c k = k (skip p s) c.
Proof.
  intros Hk. induction s as [|ch s IH]; simpl; [reflexivity|].
  destruct (p ch) eqn:E; [|reflexivity].
  rewrite IH. destruct (k (skip p s) c) eqn:Ek; [reflexivity|].
  apply Hk. simpl. now rewrite E.
Qed.

Lemma greedy_accept (p : N -> bool) (s : jsstring) (c : captures) :
  greedy p s c accept = Some (skip p s, c).
Proof.
  induction s as [|ch s IH]; simpl; [reflexivity|].
  destruct (p ch); [now rewrite IH|reflexivity].
Qed.

Lemma skip_skip (p : N -> bool) (s : jsstring) : skip p (skip p s) = skip p s.
Proof.
  induction s as [|ch s IH]; simpl; [reflexivity|].
  destruct (p ch) eqn:E; [exact IH|]. simpl. now rewrite E.
Qed.

Lemma skip_not_head (p : N -> bool) ch (s : jsstring) :
  p ch = false -> skip p (ch :: s) = ch :: s.
Proof. intros H. simpl. now rewrite H. Qed.

(** The pattern of the colon style, matched at the head of a text. *)
Lemma rmatch_colonStyle (s : jsstring) :
  isSome (rmatch re_colonStyle s [] accept)
  = match s with c :: t => is_word c && colonAhead t | [] => false end.
Proof.
  unfold re_colonStyle. cbn [RCat]. unfold RLit.
  rewrite rmatch_seq, rmatch_set.
  destruct s as [|c t]; [reflexivity|].
  destruct (is_word c); [cbn [andb]|reflexivity].
  rewrite rmatch_seq, rmatch_star_set.
  set (k3 := fun (u : jsstring) (c' : captures) =>
               rmatch (RSet (chr ":")) u c' accept).
  set (k2 := fun (u : jsstring) (c' : captures) =>
               rmatch (RSeq (RStar (RSet is_space)) (RSet (chr ":"))) u c' accept).
  assert (Hk2 : forall u c', k2 u c' = k3 (skip is_space u) c').
  { intros u c'. unfold k2, k3. rewrite rmatch_seq, rmatch_star_set.
    apply greedy_skip. intros ch s' Hch. rewrite rmatch_set.
    replace (chr ":" ch) with false; [reflexivity|].
    symmetry. apply N.eqb_neq. intros ->. discriminate. }
  set (k1 := fun (u : jsstring) (c' : captures) =>
               rmatch (RSeq (ROpt (RSet (chr "?")))
                            (RSeq (RStar (RSet is_space)) (RSet (chr ":")))) u c' accept).
  assert (Hk1 : forall u c',
    k1 u c' = match u with
              | ch :: u' =>
                  if chr "?" ch then
                    match k3 (skip is_space u') c' with
                    | Some x => Some x
                    | None => k3 (skip is_space u) c'
                    end
                  else k3 (skip is_space u) c'
              | [] => k3 (skip is_space u) c'
              end).
  { intros u c'. unfold k1. rewrite rmatch_seq, rmatch_opt, rmatch_set.
    fold (k2 u c'). rewrite !Hk2.
    destruct u as [|ch u']; [reflexivity|].
    destruct (chr "?" ch); [|reflexivity].
    fold (k2 u' c'). now rewrite Hk2. }
  change (isSome (greedy is_space t [] k1) = colonAhead t).
  assert (Hq : forall ch, chr "?" ch = true -> is_space ch = false).
  { intros ch ->%chr_true. reflexivity. }
  assert (Hq3 : forall ch u c', chr "?" ch = true -> k3 (ch :: u) c' = None).
  { intros ch u c' ->%chr_true. reflexivity. }
  rewrite greedy_skip_absorb.
  - rewrite Hk1. unfold colonAhead.
    destruct (skip is_space t) as [|ch u'] eqn:Eskip; [reflexivity|].
    pose proof (skip_head _ _ _ _ Eskip) as Hch.
    rewrite (skip_not_head _ _ _ Hch).
    destruct (chr "?" ch) eqn:Eq.
    + rewrite (Hq3 _ _ _ Eq).
      replace (chr ":" ch) with false
        by (apply chr_true in Eq; now subst ch).
      cbn [orb andb]. unfold k3. rewrite rmatch_set.
      destruct (skip is_space u') as [|d u'']; [reflexivity|].
      now destruct (chr ":" d).
    + unfold k3. rewrite rmatch_set. cbn [andb]. rewrite orb_false_r.
      now destruct (chr ":" ch).
  - intros u. rewrite !Hk1.
    destruct u as [|ch u']; [easy|].
    destruct (is_space ch) eqn:Esp.
    + replace (chr "?" ch) with false
        by (destruct (chr "?" ch) eqn:Eq; [apply Hq in Eq; congruence|easy]).
      destruct (skip is_space (ch :: u')) as [|d v] eqn:Eskip; [exact (fun H => H)|].
      pose proof (skip_head _ _ _ _ Eskip) as Hd.
      rewrite (skip_not_head _ _ _ Hd).
      destruct (chr "?" d) eqn:Eq; [|exact (fun H => H)].
      now rewrite (Hq3 _ _ _ Eq).
    + rewrite !(skip_not_head _ _ _ Esp). exact (fun H => H).
Qed.

Lemma exec_from_isSome (r : regex) (before s : jsstring) :
  isSome (exec_from r before s)
  = isSome (rmatch r s [] accept)
    || match s with [] => false | _ :: s' => isSome (exec_from r (before ++ [hd 0 s]) s') end.
Proof.
  destruct s as [|ch s']; cbn [exec_from hd].
  - destruct (rmatch r [] [] accept) as [[rest c]|]; reflexivity.
  - destruct (rmatch r (ch :: s') [] accept) as [[rest c]|]; reflexivity.
Qed.

Lemma test_colonStyle (t : jsstring) : test re_colonStyle t = colonLike t.
Proof.
  unfold test, exec.
  generalize (@nil N) as before. induction t as [|c t IH]; intros before.
  - reflexivity.
  - rewrite exec_from_isSome, rmatch_colonStyle. cbn [colonLike hd]. now rewrite IH.
Qed.

(** The pattern of a default clause, matched at the head of a text. *)
Lemma rmatch_defaultValue (s : jsstring) :
  rmatch re_defaultValue s [] accept
  = if defaultClause s then Some ([], []) else None.
Proof.
  unfold re_defaultValue, defaultClause. cbn [RCat]. unfold RLit.
  rewrite rmatch_seq, rmatch_star_set, greedy_skip.
  2:{ intros ch s' Hch. rewrite rmatch_seq, rmatch_set.
      replace (chr "=" ch) with false; [reflexivity|].
      symmetry. apply N.eqb_neq. intros ->. discriminate. }
  rewrite rmatch_seq, rmatch_set.
  destruct (skip is_space s) as [|c s']; [reflexivity|].
  destruct (chr "=" c); [cbn [andb]|reflexivity].
  rewrite rmatch_seq, rmatch_star_set.
  exact (greedy_blanks_dots_end s' [] accept).
Qed.

Lemma exec_from_defaultValue (t before : jsstring) :
  match exec_from re_defaultValue before t with
  | Some (b, rest, _) => b ++ rest
  | None => before ++ t
  end = before ++ stripDefault t.
Proof.
  revert before. induction t as [|c t IH]; intros before.
  - cbn [exec_from stripDefault]. rewrite rmatch_defaultValue.
    destruct (defaultClause []); reflexivity.
  - cbn [exec_from stripDefault]. rewrite rmatch_defaultValue.
    destruct (defaultClause (c :: t)); [reflexivity|].
    specialize (IH (before ++ [c])). rewrite <- !app_assoc in IH. exact IH.
Qed.

Lemma replace_defaultValue (t : jsstring) :
  replace_empty re_defaultValue t = stripDefault t.
Proof. exact (exec_from_defaultValue t []). Qed.

(** Splitting at runs of blanks. *)
Lemma rmatch_spaces (s : jsstring) :
  rmatch re_spaces s [] accept
  = match s with
    | c :: s' => if is_space c then Some (skip is_space s', []) else None
    | [] => None
    end.
Proof.
  unfold re_spaces, RPlus. rewrite rmatch_seq, rmatch_set.
  destruct s as [|c s']; [reflexivity|].
  destruct (is_space c); [|reflexivity].
  now rewrite rmatch_star_set, greedy_accept.
Qed.

Lemma piecesFrom_skip (s : jsstring) :
  piecesFrom [] (skip is_space s) = piecesFrom [] s.
Proof.
  induction s as [|c s IH]; [reflexivity|].
  cbn [skip]. destruct (is_space c) eqn:E; [rewrite IH|]; cbn [piecesFrom];
    now rewrite E.
Qed.

Lemma split_loop_spaces (fuel : nat) :
  forall cur s, (length s < fuel)%nat ->
    List.filter nonEmpty (split_loop re_spaces fuel cur s) = piecesFrom cur s.
Proof.
  induction fuel as [|fuel IH]; intros cur s Hfuel; [lia|].
  destruct s as [|c s'].
  - cbn. now destruct cur.
  - cbn [split_loop piecesFrom]. rewrite rmatch_spaces.
    destruct (is_space c).
    + pose proof (length_skip_le is_space s') as Hle.
      replace (length (skip is_space s') =? length (c :: s'))%nat with false
        by (symmetry; apply Nat.eqb_neq; simpl; lia).
      cbn [andb List.filter].
      rewrite IH by (simpl in Hfuel; lia). rewrite piecesFrom_skip.
      now destruct cur.
    + apply IH. simpl in Hfuel. lia.
Qed.

Lemma split_spaces (s : jsstring) :
  List.filter nonEmpty (split_by re_spaces s) = blankSeparated s.
Proof.
  unfold split_by, blankSeparated. destruct s as [|c s']; [reflexivity|].
  apply split_loop_spaces. simpl. lia.
Qed.

(** Looking like a type. *)
Lemma test_pointerSuffix (token : jsstring) :
  test re_pointerSuffix token
  = match List.last (List.map Some token) None with
    | Some c => chr "*" c || chr "&" c
    | None => false
    end.
Proof.
  unfold test, exec. generalize (@nil N) as before.
  induction token as [|c t IH]; intros before; [reflexivity|].
  rewrite exec_from_isSome. cbn [hd]. rewrite IH.
  unfold re_pointerSuffix. cbn [RCat]. rewrite rmatch_seq, rmatch_set.
  destruct t as [|d t'].
  - cbn. now destruct (chr "*" c || chr "&" c).
  - rewrite rmatch_end. cbn [List.map List.last].
    destruct (chr "*" c || chr "&" c); reflexivity.
Qed.

Lemma looksLikeType_typeLike (token : jsstring) :
  looksLikeType token = typeLike token.
Proof.
  unfold looksLikeType, typeLike. rewrite test_pointerSuffix.
  destruct (includes_str typeKeywords token); [reflexivity|].
  replace (isSome (exec_start re_upperFirst token))
    with (match token with c :: _ => is_upper c | [] => false end).
  2:{ destruct token as [|c t]; [reflexivity|]. cbn. now destruct (is_upper c). }
  cbn [orb]. destruct (match token with c :: _ => is_upper c | [] => false end);
    [reflexivity|].
  cbn [orb]. destruct (endsWith (js "[]") token); [reflexivity|].
  cbn [orb]. now destruct (List.last (List.map Some token) None) as [c|];
    [destruct (chr "*" c || chr "&" c)|].
Qed.

Lemma includes_unit (c : N) (s : jsstring) :
  includes [c] s = existsb (fun d => d =? c) s.
Proof.
  induction s as [|d s IH]; [reflexivity|].
  cbn [includes startsWith existsb]. rewrite IH, andb_true_r.
  now rewrite (N.eqb_sym c d).
Qed.

Lemma startsWith_stars (t : jsstring) :
  startsWith (js "**") t = startsWith (js "*") t && startsWith (js "**") t.
Proof.
  change (js "**") with [42; 42]. change (js "*") with [42].
  destruct t as [|a t]; [reflexivity|].
  cbn [startsWith]. now destruct (42 =? a).
Qed.

(** One token, as the loop of [detectParamStyle] reads it. *)
Lemma detectParamStyle_cons (param : jsstring) (rest : list jsstring) :
  detectParamStyle (param :: rest)
  = if skippedToken (trim param) then detectParamStyle rest
    else match styleSignal (trim param) with
         | Some style => style
         | None => detectParamStyle rest
         end.
Proof.
  cbn [detectParamStyle]. set (trimmed := trim param).
  destruct (is_empty trimmed) eqn:Eempty.
  { destruct trimmed; [reflexivity|discriminate]. }
  unfold skippedToken.
  rewrite (startsWith_stars trimmed).
  destruct (startsWith (js "*") trimmed) eqn:Estar; cbn [orb andb]; [reflexivity|].
  destruct (startsWith (js "...") trimmed); cbn [orb]; [reflexivity|].
  destruct (str_eq trimmed (js "self") || str_eq trimmed (js "cls")
            || str_eq trimmed (js "this")) eqn:Eself.
  { reflexivity. }
  unfold styleSignal.
  change (js "$") with [N_of_ascii "$"]. rewrite includes_unit.
  change (existsb (fun d => d =? N_of_ascii "$") trimmed)
    with (existsb (chr "$") trimmed).
  destruct (existsb (chr "$") trimmed); [reflexivity|].
  rewrite test_colonStyle. destruct (colonLike trimmed); [reflexivity|].
  rewrite replace_defaultValue, split_spaces.
  destruct (blankSeparated (stripDefault trimmed)) as [|first [|second more]];
    try reflexivity.
  cbn [length Nat.leb nth]. now rewrite looksLikeType_typeLike.
Qed.

(** C2.  [detectParamStyle] returns the style decided by the first token that
    is not skipped (a variadic marker or one of self, cls, this) and speaks
    for a style: [php] if it holds a dollar sign, else [colon] if it reads
    identifier, optional question mark, colon, else, its trailing default
    clause removed, [type_before] or [type_after_go] if it has two pieces or
    more, as the first piece looks like a type or not; [dynamic] if no token
    speaks.  Tokens are read without the blanks around them.  The five
    examples of the specification follow. *)
Theorem detectParamStyle_decided :
  (forall params, detectParamStyle params = decidedStyle params)
  /\ detectParamStyle [js "a: number"; js "b: string"] = colon
  /\ detectParamStyle [js "int a"; js "String b"] = type_before
  /\ detectParamStyle [js "a int"; js "b string"] = type_after_go
  /\ detectParamStyle [js "int $a"] = php
  /\ detectParamStyle [js "a"; js "b"] = dynamic.
Proof.
  split; [|repeat split; reflexivity].
  induction params as [|param rest IH]; [reflexivity|].
  rewrite detectParamStyle_cons. cbn [decidedStyle]. now rewrite IH.
Qed.

(** ** The method library *)

Module MethodLibraryFacts.
Import MethodLibrary.

Lemma samePlace_true method m :
  samePlace method m = true <-> place m = (newUri method, newLine method).
Proof.
  unfold samePlace, place, str_eq.
  rewrite andb_true_iff, bool_decide_eq_true, N.eqb_eq.
  split; [intros [-> ->]; reflexivity|intros [= -> ->]; easy].
Qed.

Lemma find_none_fresh method methods :
  List.find (samePlace method) methods = None ->
  (newUri method, newLine method) ∉ List.map place methods.
Proof.
  induction methods as [|m methods IH]; cbn [List.find List.map].
  - intros _. apply not_elem_of_nil.
  - destruct (samePlace method m) eqn:E; [discriminate|].
    intros Hfind [Heq | Hin]%elem_of_cons.
    + symmetry in Heq. apply samePlace_true in Heq. congruence.
    + now apply IH.
Qed.

Lemma find_existing method methods existing :
  distinctPlaces methods ->
  existing ∈ methods ->
  place existing = (newUri method, newLine method) ->
  List.find (samePlace method) methods = Some existing.
Proof.
  unfold distinctPlaces.
  induction methods as [|m methods IH]; cbn [List.find List.map].
  - intros _ Hin%elem_of_nil. easy.
  - intros [Hfresh Hnodup]%NoDup_cons [-> | Hin]%elem_of_cons Hplace.
    + apply samePlace_true in Hplace. now rewrite Hplace.
    + destruct (samePlace method m) eqn:E.
      * exfalso. apply Hfresh. apply samePlace_true in E. rewrite E, <- Hplace.
        change (List.map place methods) with (place <$> methods).
        now apply list_elem_of_fmap_2.
      * now apply IH.
Qed.

Lemma remove_first_sublist p methods : remove_first p methods `sublist_of` methods.
Proof.
  induction methods as [|m methods IH]; cbn [remove_first]; [constructor|].
  destruct (p m); [now apply sublist_cons|now apply sublist_skip].
Qed.

Lemma add_distinct method clock1 clock2 random st :
  distinctPlaces (getAll st) ->
  distinctPlaces (getAll (snd (fst (add method clock1 clock2 random st)))).
Proof.
  intros Hnodup. unfold add.
  change (fun m => str_eq (uri m) (newUri method) && (line m =? newLine method))
    with (samePlace method).
  destruct (List.find (samePlace method) (getAll st)) as [existing|] eqn:Efind;
    [exact Hnodup|].
  cbn [fst snd]. unfold distinctPlaces in *. unfold getAll at 1.
  cbn [from_option Datatypes.id]. rewrite List.map_app. apply NoDup_app. split; [exact Hnodup|].
  split; [|apply NoDup_singleton].
  intros x Hx Hnew. cbn in Hnew. apply list_elem_of_singleton in Hnew. subst x.
  now apply find_none_fresh in Efind.
Qed.

Lemma remove_distinct ident st :
  distinctPlaces (getAll st) -> distinctPlaces (getAll (fst (remove ident st))).
Proof.
  intros Hnodup. unfold remove.
  destruct (List.find _ (getAll st)); [|exact Hnodup].
  cbn [fst]. unfold distinctPlaces in *. unfold getAll at 1.
  cbn [from_option Datatypes.id]. eapply sublist_NoDup; [exact Hnodup|].
  apply (fmap_sublist place), remove_first_sublist.
Qed.

Lemma reachable_distinct st : reachable st -> distinctPlaces (getAll st).
Proof.
  induction 1 as [|st method clock1 clock2 random _ IH|st ident _ IH|st _ IH].
  - constructor.
  - now apply add_distinct.
  - now apply remove_distinct.
  - constructor.
Qed.

End MethodLibraryFacts.

(** C10.  A storage reached from the empty workspace state by [add], [remove]
    and [clear] holds no two entries with the same file and line; and [add]
    of a method whose file and line are those of an entry of the storage
    returns that entry and leaves the storage as it is. *)
Theorem methodLibrary_distinct_places :
  forall st, MethodLibrary.reachable st ->
    MethodLibrary.distinctPlaces (MethodLibrary.getAll st)
    /\ forall method clock1 clock2 random existing,
         existing ∈ MethodLibrary.getAll st ->
         MethodLibrary.uri existing = MethodLibrary.newUri method ->
         MethodLibrary.line existing = MethodLibrary.newLine method ->
         MethodLibrary.add method clock1 clock2 random st
         = (existing, st, MethodLibrary.alreadyInLibrary (MethodLibrary.newName method)).
Proof.
  intros st Hreach.
  pose proof (MethodLibraryFacts.reachable_distinct st Hreach) as Hdistinct.
  split; [exact Hdistinct|].
  intros method clock1 clock2 random existing Hin Huri Hline.
  unfold MethodLibrary.add.
  change (fun m => str_eq (MethodLibrary.uri m) (MethodLibrary.newUri method)
                   && (MethodLibrary.line m =? MethodLibrary.newLine method))
    with (MethodLibrary.samePlace method).
  rewrite (MethodLibraryFacts.find_existing method _ existing Hdistinct Hin);
    [reflexivity|].
  unfold MethodLibrary.place. now rewrite Huri, Hline.
Qed.

Lemma methodLibrary_distinct_places_witness :
  MethodLibrary.reachable libraryWithAdd
  /\ MethodLibrary.distinctPlaces (MethodLibrary.getAll libraryWithAdd)
  /\ fst (fst (MethodLibrary.add
                 (MethodLibrary.mkNewMethod (js "plus") (js "src/calc.ts") None 22 None)
                 1700000000001 1700000000001 (js "a1b2c3d4e") libraryWithAdd))
     = MethodLibrary.mkMethodItem (js "method-1700000000000-k3x9q2m1z") (js "add")
         (js "src/calc.ts") None 22 None 1700000000000.
Proof.
  assert (Hreach : MethodLibrary.reachable libraryWithAdd).
  { apply MethodLibrary.reach_add, MethodLibrary.reach_init. }
  split; [exact Hreach|].
  destruct (methodLibrary_distinct_places libraryWithAdd Hreach) as [Hdistinct Hadd].
  split; [exact Hdistinct|].
  rewrite (Hadd _ _ _ _
             (MethodLibrary.mkMethodItem (js "method-1700000000000-k3x9q2m1z") (js "add")
                (js "src/calc.ts") None 22 None 1700000000000)).
  - reflexivity.
  - vm_compute. constructor.
  - reflexivity.
  - reflexivity.
Defined.

(** ** Building the graph *)

(** Induction on a call hierarchy, with the hypothesis for every caller and
    every callee. *)
Lemma CallHierarchyNode_nested_ind (P : CallHierarchyNode -> Prop) :
  (forall i callers callees,
      Forall P callers -> Forall P callees -> P (mkCallNode i callers callees)) ->
  forall n, P n.
Proof.
  intros step. fix IH 1. intros [i callers callees]. apply step.
  - induction callers as [|c callers IHc]; constructor; [apply IH|exact IHc].
  - induction callees as [|c callees IHc]; constructor; [apply IH|exact IHc].
Qed.

Lemma map_set_keys key value m :
  List.map fst (map_set key value m)
  = if bool_decide (key ∈ List.map fst m) then List.map fst m
    else List.map fst m ++ [key].
Proof.
  induction m as [|[k v] m IH]; cbn [map_set List.map fst].
  - rewrite bool_decide_eq_false_2 by apply not_elem_of_nil. reflexivity.
  - unfold str_eq. destruct (bool_decide (k = key)) eqn:E.
    + apply bool_decide_eq_true in E. subst k.
      rewrite bool_decide_eq_true_2 by apply list_elem_of_here. reflexivity.
    + apply bool_decide_eq_false in E. cbn [List.map fst]. rewrite IH.
      destruct (bool_decide (key ∈ List.map fst m)) eqn:E2.
      * apply bool_decide_eq_true in E2.
        rewrite bool_decide_eq_true_2 by now apply list_elem_of_further.
        reflexivity.
      * apply bool_decide_eq_false in E2.
        rewrite bool_decide_eq_false_2; [reflexivity|].
        intros [Heq|Hin]%elem_of_cons; congruence.
Qed.

Lemma map_set_key_in key value m : key ∈ List.map fst (map_set key value m).
Proof.
  rewrite map_set_keys. case_bool_decide; [assumption|].
  apply elem_of_app. right. apply list_elem_of_here.
Qed.

Lemma map_set_keys_mono key value m k :
  k ∈ List.map fst m -> k ∈ List.map fst (map_set key value m).
Proof.
  rewrite map_set_keys. case_bool_decide; [easy|].
  intros Hk. apply elem_of_app. now left.
Qed.

Lemma map_set_keys_NoDup key value m :
  NoDup (List.map fst m) -> NoDup (List.map fst (map_set key value m)).
Proof.
  rewrite map_set_keys. case_bool_decide as Hin; [easy|].
  intros Hnodup. apply NoDup_app. split; [exact Hnodup|].
  split; [|apply NoDup_singleton].
  intros x Hx ->%list_elem_of_singleton. contradiction.
Qed.

Lemma nodeAt_map_set_same key value m : nodeAt key (map_set key value m) = Some value.
Proof.
  induction m as [|[k v] m IH]; cbn [map_set nodeAt].
  - now rewrite str_eq_refl.
  - destruct (str_eq k key) eqn:E; cbn [nodeAt]; [now rewrite str_eq_refl|].
    now rewrite E.
Qed.

Lemma nodeAt_map_set_other key value m k :
  k <> key -> nodeAt k (map_set key value m) = nodeAt k m.
Proof.
  intros Hne. induction m as [|[k' v] m IH]; cbn [map_set nodeAt].
  - unfold str_eq. now rewrite bool_decide_eq_false_2 by congruence.
  - destruct (str_eq k' key) eqn:E; cbn [nodeAt]; [|now rewrite IH].
    apply str_eq_true in E. subst k'.
    unfold str_eq. now rewrite !bool_decide_eq_false_2 by congruence.
Qed.

(** A pass that records nothing. *)
Lemma recordsOnce_refl host join met g : recordsOnce host join met g g.
Proof.
  exists []. cbn [List.map]. rewrite app_nil_r.
  split; [apply sublist_nil_l|].
  split; [reflexivity|]. split; [constructor|].
  split; [intros r Hr; now apply elem_of_nil in Hr|].
  split; [cbn; now rewrite (right_id_L ∅ (∪))|].
  split; [intros r Hr; now apply elem_of_nil in Hr|].
  split; [reflexivity|].
  split; [|intros Hnodup; exact Hnodup].
  intros k. split; [now left|]. intros [Hk|Hk]; [exact Hk|now apply elem_of_nil in Hk].
Qed.

(** A pass after another: what they met and what they recorded follow each
    other. *)
Lemma recordsOnce_trans host join met1 met2 g1 g2 g3 :
  recordsOnce host join met1 g1 g2 -> recordsOnce host join met2 g2 g3 ->
  recordsOnce host join (met1 ++ met2) g1 g3.
Proof.
  intros (r1 & Hs1 & He1 & Hn1 & Hf1 & Hv1 & Hm1 & Ho1 & Hk1 & Hd1)
         (r2 & Hs2 & He2 & Hn2 & Hf2 & Hv2 & Hm2 & Ho2 & Hk2 & Hd2).
  assert (Hapart : forall k, k ∈ List.map (recordedId host) r1 ->
                             k ∈ List.map (recordedId host) r2 -> False).
  { intros k Hk1' Hk2'.
    apply (list_elem_of_fmap_1 (recordedId host)) in Hk2' as (r & -> & Hr).
    apply (Hf2 r Hr). rewrite Hv1. apply elem_of_union. right.
    now apply elem_of_list_to_set. }
  exists (r1 ++ r2). rewrite !List.map_app.
  split; [now apply sublist_app|].
  split; [now rewrite He2, He1, <- app_assoc|].
  split.
  { apply NoDup_app. split; [exact Hn1|]. split; [|exact Hn2].
    intros k Hk1' Hk2'. exact (Hapart k Hk1' Hk2'). }
  split.
  { intros r [Hr|Hr]%elem_of_app; [now apply Hf1|].
    intros Hin. apply (Hf2 r Hr). rewrite Hv1. now apply elem_of_union; left. }
  split.
  { now rewrite Hv2, Hv1, list_to_set_app_L, (assoc_L (∪)). }
  split.
  { intros r [Hr|Hr]%elem_of_app; [|now apply Hm2].
    rewrite Ho2; [now apply Hm1|].
    intros Hin. apply (Hapart (recordedId host r)); [|exact Hin].
    now apply (list_elem_of_fmap_2 (recordedId host)). }
  split.
  { intros k Hk. rewrite Ho2, Ho1; [reflexivity| |];
      intros Hin; apply Hk, elem_of_app; [now left|now right]. }
  split.
  { intros k. rewrite Hk2, Hk1, elem_of_app. tauto. }
  intros Hnodup. now apply Hd2, Hd1.
Qed.

(** One item recorded: marked, its node stored, joined to its parent. *)
Lemma recordsOnce_recordNode host join i parentId g :
  generateNodeId host i ∉ visitedNodes g ->
  recordsOnce host join [(i, parentId)] g
    (recordNode host i (join (generateNodeId host i) parentId) g).
Proof.
  intros Hfresh. exists [(i, parentId)].
  cbn [recordNode genEdges visitedNodes nodeMap List.map recordedId fst snd Datatypes.id].
  change (id (createNodeFromCallHierarchyItem host i)) with (generateNodeId host i).
  unfold recordedId. cbn [fst snd].
  split; [reflexivity|]. split; [reflexivity|]. split; [apply NoDup_singleton|].
  split; [intros r ->%list_elem_of_singleton; exact Hfresh|].
  split; [cbn; rewrite (right_id_L ∅ (∪)); apply (comm_L (∪))|].
  split; [intros r ->%list_elem_of_singleton; apply nodeAt_map_set_same|].
  split.
  { intros k Hk. apply nodeAt_map_set_other. intros ->. apply Hk, list_elem_of_here. }
  split; [|apply map_set_keys_NoDup].
  intros k. rewrite map_set_keys, list_elem_of_singleton.
  case_bool_decide as Hin; [|rewrite elem_of_app, list_elem_of_singleton; tauto].
  split; [now left|]. intros [Hk| ->]; assumption.
Qed.

Lemma recordsOnce_visited host join met g g' k :
  recordsOnce host join met g g' -> k ∈ visitedNodes g -> k ∈ visitedNodes g'.
Proof. intros (r & _ & _ & _ & _ & -> & _) Hk. now apply elem_of_union; left. Qed.

(** A loop whose every turn records once, among what the turn meets, records
    once among what the turns meet. *)
Lemma recordsOnce_fold {A : Type} host join
    (turn : Generator -> A -> Generator)
    (meets : A -> list (CallHierarchyItem * jsstring)) (l : list A) :
  Forall (fun x => forall g, recordsOnce host join (meets x) g (turn g x)) l ->
  forall g, recordsOnce host join (flat_map meets l) g (fold_left turn l g).
Proof.
  induction 1 as [|x l Hx _ IH]; intros g; cbn [fold_left flat_map].
  - apply recordsOnce_refl.
  - eapply recordsOnce_trans; [apply Hx|apply IH].
Qed.

(** After such a loop, every element whose turn marks it visited is. *)
Lemma visited_fold {A : Type} host join (turn : Generator -> A -> Generator)
    (meets : A -> list (CallHierarchyItem * jsstring))
    (key : A -> jsstring) (l : list A) :
  (forall x g, recordsOnce host join (meets x) g (turn g x)) ->
  (forall x g, key x ∈ visitedNodes (turn g x)) ->
  forall g x, x ∈ l -> key x ∈ visitedNodes (fold_left turn l g).
Proof.
  intros Hrec Hkey. induction l as [|y l IH]; intros g x Hin.
  - now apply elem_of_nil in Hin.
  - cbn [fold_left]. apply elem_of_cons in Hin as [->|Hin]; [|now apply IH].
    eapply recordsOnce_visited; [|apply Hkey].
    apply (recordsOnce_fold host join turn meets). apply Forall_forall.
    intros z _ g'. apply Hrec.
Qed.

(** One turn of a pass: nothing for a visited item; for another, the record
    and then the pass on the item, for which [rec] is the property wanted. *)
Ltac pass_turn rec :=
  cbv beta zeta;
  case_bool_decide;
  [ apply recordsOnce_refl
  | match goal with
    | |- recordsOnce ?host ?join (?r :: ?rest) _ _ =>
        change (r :: rest) with ([r] ++ rest)
    end;
    eapply recordsOnce_trans; [|apply rec];
    first [ now apply (recordsOnce_recordNode _ callerEdge)
          | now apply (recordsOnce_recordNode _ calleeEdge) ] ].

(** After a turn the item is visited: it was, or it was recorded and the pass
    on it forgot nothing. *)
Ltac pass_visits rec :=
  cbv beta zeta;
  case_bool_decide;
  [ assumption
  | eapply recordsOnce_visited; [apply rec|];
    cbn [recordNode visitedNodes]; apply elem_of_union; left;
    now apply elem_of_singleton ].

Lemma processCallers_recordsOnce host node :
  forall parentId level g,
    recordsOnce host callerEdge (callersMet host node parentId) g
      (processCallers host node parentId level g).
Proof.
  induction node as [i callers callees IHcallers _] using CallHierarchyNode_nested_ind.
  intros parentId level g. cbn [processCallers callersMet].
  apply (recordsOnce_fold host callerEdge _
           (fun c => (node_item c, parentId)
                     :: callersMet host c (generateNodeId host (node_item c)))).
  eapply Forall_impl; [exact IHcallers|].
  intros caller IH g'. pass_turn IH.
Qed.

Lemma processCallees_recordsOnce host node :
  forall parentId level g,
    recordsOnce host calleeEdge (calleesMet host node parentId) g
      (processCallees host node parentId level g).
Proof.
  induction node as [i callers callees _ IHcallees] using CallHierarchyNode_nested_ind.
  intros parentId level g. cbn [processCallees calleesMet].
  apply (recordsOnce_fold host calleeEdge _
           (fun c => (node_item c, parentId)
                     :: calleesMet host c (generateNodeId host (node_item c)))).
  eapply Forall_impl; [exact IHcallees|].
  intros callee IH g'. pass_turn IH.
Qed.

Lemma processCallers_visits host node parentId level g caller :
  caller ∈ node_callers node ->
  generateNodeId host (node_item caller)
  ∈ visitedNodes (processCallers host node parentId level g).
Proof.
  destruct node as [i callers callees]. cbn [processCallers node_callers].
  revert g caller.
  apply (visited_fold host callerEdge _
           (fun c => (node_item c, parentId)
                     :: callersMet host c (generateNodeId host (node_item c)))
           (fun c => generateNodeId host (node_item c))).
  - intros c g. pass_turn processCallers_recordsOnce.
  - intros c g. pass_visits processCallers_recordsOnce.
Qed.

Lemma processCallees_visits host node parentId level g callee :
  callee ∈ node_callees node ->
  generateNodeId host (node_item callee)
  ∈ visitedNodes (processCallees host node parentId level g).
Proof.
  destruct node as [i callers callees]. cbn [processCallees node_callees].
  revert g callee.
  apply (visited_fold host calleeEdge _
           (fun c => (node_item c, parentId)
                     :: calleesMet host c (generateNodeId host (node_item c)))
           (fun c => generateNodeId host (node_item c))).
  - intros c g. pass_turn processCallees_recordsOnce.
  - intros c g. pass_visits processCallees_recordsOnce.
Qed.

(** C5, as the code has it.  In [processCallers] and [processCallees] an item
    whose identifier is not yet visited is recorded: marked, turned into the
    node [createNodeFromCallHierarchyItem] makes of it, which is stored
    under its identifier, and joined by one edge to the parent under which
    it was met (the edge goes from the caller to the parent, and from the
    parent to the callee); so the identifiers recorded by a pass are
    pairwise distinct, were not visited before it, and the node map keeps
    one node per key.  An item whose identifier is already visited is passed
    over: the pass goes on as if the item were not in the list, and adds
    neither node nor edge for it; an item that is not visited is recorded
    with the parent of the pass, its own callers (callees) are passed with
    it as their parent, and the pass goes on.  Every caller (callee) of the
    node is visited once the pass is over. *)
Theorem processing_records_once :
  forall host node parentId level g,
    recordsOnce host callerEdge (callersMet host node parentId) g
      (processCallers host node parentId level g)
    /\ recordsOnce host calleeEdge (calleesMet host node parentId) g
         (processCallees host node parentId level g)
    /\ (forall caller, caller ∈ node_callers node ->
          generateNodeId host (node_item caller)
          ∈ visitedNodes (processCallers host node parentId level g))
    /\ (forall callee, callee ∈ node_callees node ->
          generateNodeId host (node_item callee)
          ∈ visitedNodes (processCallees host node parentId level g))
    /\ (forall i caller callers callees,
          generateNodeId host (node_item caller) ∈ visitedNodes g ->
          processCallers host (mkCallNode i (caller :: callers) callees) parentId level g
          = processCallers host (mkCallNode i callers callees) parentId level g)
    /\ (forall i callee callers callees,
          generateNodeId host (node_item callee) ∈ visitedNodes g ->
          processCallees host (mkCallNode i callers (callee :: callees)) parentId level g
          = processCallees host (mkCallNode i callers callees) parentId level g)
    /\ (forall i caller callers callees,
          generateNodeId host (node_item caller) ∉ visitedNodes g ->
          processCallers host (mkCallNode i (caller :: callers) callees) parentId level g
          = processCallers host (mkCallNode i callers callees) parentId level
              (processCallers host caller (generateNodeId host (node_item caller))
                 (level + 1)
                 (recordNode host (node_item caller)
                    (callerEdge (generateNodeId host (node_item caller)) parentId) g)))
    /\ (forall i callee callers callees,
          generateNodeId host (node_item callee) ∉ visitedNodes g ->
          processCallees host (mkCallNode i callers (callee :: callees)) parentId level g
          = processCallees host (mkCallNode i callers callees) parentId level
              (processCallees host callee (generateNodeId host (node_item callee))
                 (level + 1)
                 (recordNode host (node_item callee)
                    (calleeEdge (generateNodeId host (node_item callee)) parentId) g))).
Proof.
  intros host node parentId level g.
  split; [apply processCallers_recordsOnce|].
  split; [apply processCallees_recordsOnce|].
  split; [intros caller; apply processCallers_visits|].
  split; [intros callee; apply processCallees_visits|].
  split.
  { intros i caller callers callees Hvisited. cbn [processCallers fold_left].
    now rewrite bool_decide_eq_true_2. }
  split.
  { intros i callee callers callees Hvisited. cbn [processCallees fold_left].
    now rewrite bool_decide_eq_true_2. }
  split.
  - intros i caller callers callees Hfresh. cbn [processCallers fold_left].
    now rewrite bool_decide_eq_false_2.
  - intros i callee callers callees Hfresh. cbn [processCallees fold_left].
    now rewrite bool_decide_eq_false_2.
Qed.

(** The claim as the specification words it fails on [sharedCaller]: [d] is
    met as a caller of [b] and again as a caller of [c]; the second time no
    edge from [d] to [c] is added.  It fails the same way on the whole chain
    from the language servers on ([diamondHost]): [d] calls [c], and the
    document has no edge from [d] to [c]. *)
Lemma sharedCaller_edge_missing :
  genEdges (snd (convertToGraphData plainHost sharedCaller both newGenerator))
  = [ {| from := generateNodeId plainHost itemB; to := generateNodeId plainHost itemR |};
      {| from := generateNodeId plainHost itemD; to := generateNodeId plainHost itemB |};
      {| from := generateNodeId plainHost itemC; to := generateNodeId plainHost itemR |} ]
  /\ ~ In {| from := generateNodeId plainHost itemD; to := generateNodeId plainHost itemC |}
          (genEdges (snd (convertToGraphData plainHost sharedCaller both newGenerator)))
  /\ In itemD (answered (provideIncomingCalls diamondHost itemC))
  /\ match fst (generateFromCodePosition diamondHost cursorDocument cursorPosition
                  {| depth := None; direction := None |} newGenerator) with
     | inr doc =>
         length (nodes doc) = 4%nat
         /\ ~ In {| from := generateNodeId diamondHost itemD;
                    to := generateNodeId diamondHost itemC |} (edges doc)
     | inl _ => False
     end.
Proof.
  split; [vm_compute; reflexivity|].
  split; [vm_compute; intros [H|[H|[H|[]]]]; discriminate H|].
  split; [left; reflexivity|].
  vm_compute. split; [reflexivity|].
  intros [H|[H|[H|[]]]]; discriminate H.
Qed.

Lemma processing_records_once_witness :
  generateNodeId plainHost itemB ∈ ({[generateNodeId plainHost itemB]} : gset jsstring)
  /\ processCallers plainHost
       (mkCallNode itemR [mkCallNode itemB [] []] []) (generateNodeId plainHost itemR) 1
       {| nodeMap := []; genEdges := [];
          visitedNodes := {[generateNodeId plainHost itemB]} |}
     = {| nodeMap := []; genEdges := [];
          visitedNodes := {[generateNodeId plainHost itemB]} |}.
Proof.
  assert (H : generateNodeId plainHost itemB
              ∈ ({[generateNodeId plainHost itemB]} : gset jsstring))
    by now apply elem_of_singleton.
  split; [exact H|].
  exact (proj1 (proj2 (proj2 (proj2 (proj2
           (processing_records_once plainHost (mkCallNode itemR [] []) 
              (generateNodeId plainHost itemR) 1
              {| nodeMap := []; genEdges := [];
                 visitedNodes := {[generateNodeId plainHost itemB]} |})))))
           itemR (mkCallNode itemB [] []) [] [] H).
Defined.

(** ** Generation that finds no symbol *)

Lemma getCallHierarchy_nothing host document position depth :
  answered (prepareCallHierarchy host document position) = [] ->
  getCallHierarchy host document position depth = None.
Proof.
  unfold getCallHierarchy, answered.
  destruct (prepareCallHierarchy host document position) as [[|root rest]|];
    [reflexivity|discriminate|reflexivity].
Qed.

(** C9.  When the acquisition of the call hierarchy returns nothing for the
    cursor (the language server answers nothing, or an empty list),
    [generateFromCodePosition] ends in the error that asks for a cursor on a
    method definition; no document is returned, and the generator is left as
    it was. *)
Theorem generate_unresolvable :
  forall host document position options g,
    workspaceOpened host = true ->
    answered (prepareCallHierarchy host document position) = [] ->
    getCallHierarchy host document position (default 2%Z (depth options)) = None
    /\ generateFromCodePosition host document position options g
       = (inl unresolvable, g).
Proof.
  intros host document position options g Hopen Hnothing.
  pose proof (getCallHierarchy_nothing host document position
                (default 2%Z (depth options)) Hnothing) as Hnone.
  split; [exact Hnone|].
  unfold generateFromCodePosition. now rewrite Hopen, Hnone.
Qed.

Lemma generate_unresolvable_witness :
  workspaceOpened plainHost = true
  /\ answered (prepareCallHierarchy plainHost cursorDocument cursorPosition) = []
  /\ generateFromCodePosition plainHost cursorDocument cursorPosition
       {| depth := None; direction := None |} newGenerator
     = (inl unresolvable, newGenerator).
Proof.
  split; [reflexivity|]. split; [reflexivity|].
  exact (proj2 (generate_unresolvable plainHost cursorDocument cursorPosition
                  {| depth := None; direction := None |} newGenerator
                  eq_refl eq_refl)).
Defined.

(** ** Two functions that call each other *)

Section Cycle.

Variable host : Host.
Variables a b : CallHierarchyItem.

Hypothesis incoming_a : provideIncomingCalls host a = Some [b].
Hypothesis outgoing_a : provideOutgoingCalls host a = Some [b].
Hypothesis incoming_b : provideIncomingCalls host b = Some [a].
Hypothesis keys_differ : getNodeKey a <> getNodeKey b.

Let seen_a : gset jsstring := {[getNodeKey a]} ∪ ∅.
Let seen_ab : gset jsstring := {[getNodeKey b]} ∪ ({[getNodeKey a]} ∪ ∅).

Lemma a_in_seen_ab : getNodeKey a ∈ seen_ab.
Proof. apply elem_of_union. right. apply elem_of_union. left. now apply elem_of_singleton. Qed.

Lemma b_in_seen_ab : getNodeKey b ∈ seen_ab.
Proof. apply elem_of_union. left. now apply elem_of_singleton. Qed.

Lemma b_not_in_seen_a : getNodeKey b ∉ seen_a.
Proof.
  intros [Hb|Hb]%elem_of_union.
  - apply elem_of_singleton in Hb. now apply keys_differ.
  - now apply elem_of_empty in Hb.
Qed.

(** The callers of [a], whatever the depth left: [b], without callers of
    its own, since the one caller of [b] is [a], whose key is visited. *)
Lemma cycle_incoming (remaining : nat) :
  getIncomingCalls_at host remaining a ({[getNodeKey a]} ∪ ∅)
  = ([mkCallNode b [] []], {[getNodeKey b]} ∪ ({[getNodeKey a]} ∪ ∅)).
Proof.
  assert (Hb : forall r,
    getIncomingCalls_at host r b ({[getNodeKey b]} ∪ ({[getNodeKey a]} ∪ ∅))
    = ([], {[getNodeKey b]} ∪ ({[getNodeKey a]} ∪ ∅))).
  { intros r. destruct r; cbn [getIncomingCalls_at]; rewrite incoming_b;
      cbn [answered from_option Datatypes.id fold_left];
      rewrite bool_decide_eq_true_2 by apply a_in_seen_ab; reflexivity. }
  destruct remaining; cbn [getIncomingCalls_at]; rewrite incoming_a;
    cbn [answered from_option Datatypes.id fold_left];
    rewrite bool_decide_eq_false_2 by apply b_not_in_seen_a; [reflexivity|].
  now rewrite Hb.
Qed.

(** The callees of [a] once its callers were collected: none, since the key
    of [b] is visited. *)
Lemma cycle_outgoing (remaining : nat) :
  getOutgoingCalls_at host remaining a
    ({[getNodeKey b]} ∪ ({[getNodeKey a]} ∪ ∅))
  = ([], {[getNodeKey b]} ∪ ({[getNodeKey a]} ∪ ∅)).
Proof.
  destruct remaining; cbn [getOutgoingCalls_at]; rewrite outgoing_a;
    cbn [answered from_option Datatypes.id fold_left];
    rewrite bool_decide_eq_true_2 by apply b_in_seen_ab; reflexivity.
Qed.

Lemma cycle_hierarchy document position others (depth : Z) :
  prepareCallHierarchy host document position = Some (a :: others) ->
  (0 < depth)%Z ->
  getCallHierarchy host document position depth
  = Some (mkCallNode a [mkCallNode b [] []] []).
Proof.
  intros Hprepare Hdepth. unfold getCallHierarchy. rewrite Hprepare.
  replace (0 <? depth)%Z with true by (symmetry; now apply Z.ltb_lt).
  unfold getIncomingCalls, getOutgoingCalls.
  replace (depth - 1 <? 0)%Z with false by (symmetry; apply Z.ltb_ge; lia).
  now rewrite cycle_incoming, cycle_outgoing.
Qed.

End Cycle.

(** C6, as the code has it.  For two functions [a] and [b] that call each
    other, with the cursor on [a] and any depth above zero, the acquisition
    and the construction end and give: for the directions [both] and
    [callersOnly], the two nodes and the one edge from [b] to [a]; for
    [calleesOnly], the node of [a] alone and no edge.  The edge from [a] to
    [b] is never produced: the acquisition collects the callers first, and
    when it comes to the callees the key of [b] is already visited. *)
Theorem cycle_graph :
  forall host a b others document position options g,
    provideIncomingCalls host a = Some [b] ->
    provideOutgoingCalls host a = Some [b] ->
    provideIncomingCalls host b = Some [a] ->
    provideOutgoingCalls host b = Some [a] ->
    getNodeKey a <> getNodeKey b ->
    generateNodeId host a <> generateNodeId host b ->
    workspaceOpened host = true ->
    prepareCallHierarchy host document position = Some (a :: others) ->
    (0 < default 2 (depth options))%Z ->
    exists doc g',
      generateFromCodePosition host document position options g = (inr doc, g')
      /\ match default both (direction options) with
         | both | callersOnly =>
             List.map id (nodes doc) = [generateNodeId host a; generateNodeId host b]
             /\ edges doc
                = [ {| from := generateNodeId host b; to := generateNodeId host a |} ]
         | calleesOnly =>
             List.map id (nodes doc) = [generateNodeId host a] /\ edges doc = []
         end.
Proof.
  intros host a b others document position options g
         Hia Hoa Hib Hob Hkeys Hids Hopen Hprepare Hdepth.
  unfold generateFromCodePosition. rewrite Hopen. cbn [negb].
  rewrite (cycle_hierarchy host a b Hia Hoa Hib Hkeys document position others _
             Hprepare Hdepth).
  assert (Hneq : str_eq (generateNodeId host a) (generateNodeId host b) = false).
  { unfold str_eq. now apply bool_decide_eq_false_2. }
  destruct (default both (direction options));
    cbn [convertToGraphData processCallers processCallees fold_left node_item
         nodeMap genEdges visitedNodes recordNode createNodeFromCallHierarchyItem
         id map_set List.map snd];
    rewrite ?bool_decide_eq_false_2 by apply not_elem_of_empty;
    cbn [convertToGraphData processCallers processCallees fold_left node_item
         nodeMap genEdges visitedNodes recordNode createNodeFromCallHierarchyItem
         id map_set List.map snd];
    rewrite ?Hneq; eexists; eexists; (split; [reflexivity|]); split; reflexivity.
Qed.

(** The claim as the specification words it fails on [cycleHost]: with the
    default depth and both directions the graph has two nodes and one edge,
    not two. *)
Lemma cycle_one_edge :
  match fst (generateFromCodePosition cycleHost cursorDocument cursorPosition
               {| depth := None; direction := Some both |} newGenerator) with
  | inr doc =>
      length (nodes doc) = 2%nat /\ length (edges doc) = 1%nat
      /\ length (edges doc) <> 2%nat
  | inl _ => False
  end.
Proof. vm_compute. repeat split; discriminate. Qed.

Lemma cycle_graph_witness :
  exists doc g',
    generateFromCodePosition cycleHost cursorDocument cursorPosition
      {| depth := None; direction := None |} newGenerator = (inr doc, g')
    /\ List.map id (nodes doc)
       = [generateNodeId cycleHost itemA; generateNodeId cycleHost itemB]
    /\ edges doc
       = [ {| from := generateNodeId cycleHost itemB;
              to := generateNodeId cycleHost itemA |} ].
Proof.
  apply (cycle_graph cycleHost itemA itemB [] cursorDocument cursorPosition
           {| depth := None; direction := None |} newGenerator);
    try reflexivity; vm_compute; discriminate.
Defined.

(** ** Navigation when no symbol is located *)

(** C4, as the code has it.  Once the file is shown and the symbol provider
    has answered, a navigation that locates no symbol (the provider produced
    no tree, or it produced one and every strategy of [findSymbol] missed)
    goes to the stored line whenever a line is stored, without a test
    against the length of the document, and reports success; the node is
    reported as failed for want of the symbol, with a warning that names the
    symbol, only when no line is stored. *)
Theorem navigate_without_symbol :
  forall editor node sym folder symbols,
    symbol node = Some sym ->
    firstWorkspaceFolder editor = Some folder ->
    openTextDocument editor folder (symUri sym) = true ->
    showTextDocument editor = Answered tt ->
    executeDocumentSymbolProvider editor folder (symUri sym) = Answered symbols ->
    located symbols sym = None ->
    navigateToCode editor node
    = match symLine sym with
      | Some l =>
          [ setSelection {| line := l; character := 0 |};
            revealRange {| line := l; character := 0 |};
            postMessage (navigationSuccess (id node)) ]
      | None =>
          [ showWarningMessage {| template := "Symbol not found: {0}";
                                  arguments := [symName sym] |};
            postMessage (navigationFailed (id node) "symbol-not-found") ]
      end.
Proof.
  intros editor node sym folder symbols Hsym Hfolder Hopen Hshow Hsymbols Hlocated.
  unfold navigateToCode. rewrite Hsym, Hfolder, Hopen, Hshow, Hsymbols. cbn [negb].
  unfold located in Hlocated. now rewrite Hlocated.
Qed.

(** The claim as the specification words it fails on [staleNode]: the
    provider produces a tree, every strategy misses, and the navigation goes
    to the stored line and reports success. *)
Lemma stale_line_used_with_tree :
  located (Some otherSymbols)
    {| symName := js "bar"; symUri := js "src/app.ts"; symContainerName := None;
       symLine := Some 10; symSignature := None |} = None
  /\ navigateToCode (editorWith (Some otherSymbols)) staleNode
     = [ setSelection {| line := 10; character := 0 |};
         revealRange {| line := 10; character := 0 |};
         postMessage (navigationSuccess (js "67e2cb2c2eee0e71")) ]
  /\ ~ In (postMessage (navigationFailed (js "67e2cb2c2eee0e71") "symbol-not-found"))
          (navigateToCode (editorWith (Some otherSymbols)) staleNode).
Proof.
  split; [reflexivity|]. split; [reflexivity|].
  vm_compute. intros [H|[H|[H|[]]]]; discriminate H.
Qed.

Lemma navigate_without_symbol_witness :
  navigateToCode (editorWith (Some otherSymbols)) staleNode
  = [ setSelection {| line := 10; character := 0 |};
      revealRange {| line := 10; character := 0 |};
      postMessage (navigationSuccess (id staleNode)) ].
Proof.
  exact (navigate_without_symbol (editorWith (Some otherSymbols)) staleNode
           {| symName := js "bar"; symUri := js "src/app.ts"; symContainerName := None;
              symLine := Some 10; symSignature := None |}
           (js "/ws") (Some otherSymbols)
           eq_refl eq_refl eq_refl eq_refl eq_refl eq_refl).
Defined.

(** ** Implicit self parameters *)

Lemma extract_self (t : jsstring) (style : ParamStyle) :
  selfToken t = true -> extractTypeFromSingleParam (trim t) style = [].
Proof.
  unfold selfToken, str_eq. rewrite !orb_true_iff, !bool_decide_eq_true.
  intros [[-> | ->] | ->]; reflexivity.
Qed.

Lemma extractedTypes_cons (t : jsstring) (tokens : list jsstring) style :
  extractedTypes (t :: tokens) style
  = if nonEmpty (extractTypeFromSingleParam (trim t) style)
    then extractTypeFromSingleParam (trim t) style :: extractedTypes tokens style
    else extractedTypes tokens style.
Proof. reflexivity. Qed.

Lemma extractedTypes_without_self tokens style :
  extractedTypes tokens style
  = extractedTypes (List.filter (fun t => negb (selfToken t)) tokens) style.
Proof.
  induction tokens as [|t tokens IH]; [reflexivity|].
  cbn [List.filter]. destruct (selfToken t) eqn:Eself; cbn [negb].
  - rewrite extractedTypes_cons, (extract_self _ _ Eself). exact IH.
  - rewrite !extractedTypes_cons, IH. reflexivity.
Qed.

Lemma extractedTypes_length tokens style :
  (length (extractedTypes tokens style) + countSelf tokens <= length tokens)%nat.
Proof.
  unfold countSelf. induction tokens as [|t tokens IH]; [reflexivity|].
  rewrite extractedTypes_cons. cbn [List.filter length].
  destruct (selfToken t) eqn:Eself.
  - rewrite (extract_self _ _ Eself). cbn [nonEmpty is_empty negb length]. lia.
  - destruct (nonEmpty _); cbn [length]; lia.
Qed.

Lemma extractedTypes_length_exact tokens style :
  (forall t, t ∈ tokens -> selfToken t = false ->
             extractTypeFromSingleParam (trim t) style <> []) ->
  (length (extractedTypes tokens style) + countSelf tokens)%nat = length tokens.
Proof.
  unfold countSelf. induction tokens as [|t tokens IH]; intros Hkept; [reflexivity|].
  rewrite extractedTypes_cons. cbn [List.filter length].
  assert (IH' : (length (extractedTypes tokens style)
                 + length (List.filter selfToken tokens))%nat = length tokens).
  { apply IH. intros t' Hin. apply Hkept. now apply list_elem_of_further. }
  destruct (selfToken t) eqn:Eself.
  - rewrite (extract_self _ _ Eself). cbn [nonEmpty is_empty negb length]. lia.
  - specialize (Hkept t (list_elem_of_here _ _) Eself).
    destruct (extractTypeFromSingleParam (trim t) style) as [|c rest];
      [congruence|]. cbn [nonEmpty is_empty negb length]. lia.
Qed.

Lemma detectParamStyle_without_self tokens :
  detectParamStyle tokens
  = detectParamStyle (List.filter (fun t => negb (selfToken t)) tokens).
Proof.
  induction tokens as [|t tokens IH]; [reflexivity|].
  cbn [List.filter]. destruct (selfToken t) eqn:Eself; cbn [negb].
  - rewrite <- IH. cbn [detectParamStyle]. unfold selfToken in Eself.
    destruct (is_empty (trim t)); [reflexivity|].
    destruct (startsWith (js "*") (trim t) || startsWith (js "...") (trim t));
      [reflexivity|].
    now rewrite Eself.
  - cbn [detectParamStyle]. now rewrite IH.
Qed.

(** C8, as the code has it.  A token that is exactly self, cls or this, the
    blanks around it apart, adds no element to the list that
    [extractTypesFromParams] joins, whatever the style: the list is the one
    obtained without these tokens, the style detected is the one detected
    without them, and the list is shorter than the token list by at least
    their number, and by exactly their number when no other token is
    turned into the empty string (an empty token is).  In particular
    "self, a, b", of dynamic style, gives "(a, b)". *)
Theorem self_tokens_dropped :
  (forall tokens style,
      extractedTypes tokens style
      = extractedTypes (List.filter (fun t => negb (selfToken t)) tokens) style
      /\ (length (extractedTypes tokens style) + countSelf tokens
          <= length tokens)%nat
      /\ ((forall t, t ∈ tokens -> selfToken t = false ->
                     extractTypeFromSingleParam (trim t) style <> []) ->
          (length (extractedTypes tokens style) + countSelf tokens)%nat
          = length tokens))
  /\ (forall tokens,
        detectParamStyle tokens
        = detectParamStyle (List.filter (fun t => negb (selfToken t)) tokens))
  /\ detectParamStyle (splitParams (js "self, a, b")) = dynamic
  /\ extractTypesFromParams (js "self, a, b") = js "(a, b)".
Proof.
  split; [|split; [|split; reflexivity]].
  - intros tokens style. split; [|split].
    + apply extractedTypes_without_self.
    + apply extractedTypes_length.
    + apply extractedTypes_length_exact.
  - apply detectParamStyle_without_self.
Qed.

Lemma self_tokens_dropped_witness :
  (length (extractedTypes (splitParams (js "self, a, b")) dynamic)
   + countSelf (splitParams (js "self, a, b")))%nat
  = length (splitParams (js "self, a, b")).
Proof.
  apply (proj2 (proj2 (proj1 self_tokens_dropped (splitParams (js "self, a, b")) dynamic))).
  intros t Hin Hself. vm_compute in Hin.
  apply elem_of_cons in Hin as [->|Hin]; [discriminate Hself|].
  apply elem_of_cons in Hin as [->|Hin]; [vm_compute; discriminate|].
  apply list_elem_of_singleton in Hin as ->. vm_compute. discriminate.
Defined.

(** The claim as the specification words it fails on "a,,b": three tokens,
    none of them an implicit self, and two elements in the result. *)
Lemma empty_token_dropped :
  length (splitParams (js "a,,b")) = 3%nat
  /\ countSelf (splitParams (js "a,,b")) = 0%nat
  /\ length (extractedTypes (splitParams (js "a,,b"))
               (detectParamStyle (splitParams (js "a,,b")))) = 2%nat
  /\ extractTypesFromParams (js "a,,b") = js "(a, b)"
  /\ length (extractedTypes (splitParams (js "a,,b"))
               (detectParamStyle (splitParams (js "a,,b"))))
     <> (length (splitParams (js "a,,b")) - countSelf (splitParams (js "a,,b")))%nat.
Proof. repeat split; try reflexivity. vm_compute. discriminate. Qed.

(** ** The embedding on the examples of the documentation *)

(** The test vectors of RFC 1321, and one identifier. *)
Example md5_vectors :
  md5_hex (js "") = js "d41d8cd98f00b204e9800998ecf8427e"
  /\ md5_hex (js "a") = js "0cc175b9c0f1b6a831c399e269772661"
  /\ md5_hex (js "abc") = js "900150983cd24fb0d6963f7d28e17f72"
  /\ md5_hex (js "message digest") = js "f96b697d7cb7938d525a2f31aaf161d0"
  /\ md5_hex (js "abcdefghijklmnopqrstuvwxyz") = js "c3fcd3d76192e4007dfb496cca67e13b"
  /\ generateNodeId plainHost itemA = js "67e2cb2c2eee0e71".
Proof. repeat split; vm_compute; reflexivity. Qed.

(** The signatures of the table of parameter styles. *)
Example extractTypesFromParams_examples :
  extractTypesFromParams (js "") = js "()"
  /\ extractTypesFromParams (js "a: number, b: string") = js "(number, string)"
  /\ extractTypesFromParams (js "a: int, b: str") = js "(int, str)"
  /\ extractTypesFromParams (js "name, level") = js "(name, level)"
  /\ extractTypesFromParams (js "*args, **kwargs") = js "(*args, **kwargs)"
  /\ extractTypesFromParams (js "a int, b string") = js "(int, string)"
  /\ extractTypesFromParams (js "int a, String b") = js "(int, String)"
  /\ extractTypesFromParams (js "a: i32, b: &str") = js "(i32, &str)"
  /\ extractTypesFromParams (js "int $a, string $b") = js "(int, string)"
  /\ extractTypesFromParams (js "a, b") = js "(a, b)".
Proof. repeat split; vm_compute; reflexivity. Qed.

(** A symbol name that carries its parameters, and a hover with a fenced
    block. *)
Example signature_examples :
  normalizeSymbolName (js "Add(int, int) : int") None
  = {| bareName := js "Add"; signature := Some (js "(int, int)") |}
  /\ extractSignatureFromHover (js "`(a: number, b: number): number`")
     = Some (js "(number, number)")
  /\ extractSignatureFromHover
       (js "```typescript" ++ [10]
        ++ js "(method) Calculator.add(a: number, b: number): number" ++ [10]
        ++ js "```")
     = Some (js "(number, number)")
  /\ extractSignatureFromHover (js "def func(a, b)") = Some (js "(a, b)")
  /\ extractSignatureFromHover (js "no signature here") = None.
Proof. repeat split; vm_compute; reflexivity. Qed.

(** A renamed method whose stored line matches nothing is not found. *)
Example findSymbol_not_found :
  findSymbol [calculator] (js "divide") (Some (js "Calculator")) (Some 51) 0 = None
  /\ findSymbol [calculator] (js "divide") (Some (js "Calculator")) (Some 34) 0
     = Some (mkSymbol (js "subtract") 34 2 []).
Proof. split; vm_compute; reflexivity. Qed.

(** ** More on symbol relocation *)

(** Induction on a symbol tree, with the hypothesis for every child. *)
Lemma DocumentSymbol_nested_ind (P : DocumentSymbol -> Prop) :
  (forall n l c children, Forall P children -> P (mkSymbol n l c children)) ->
  forall s, P s.
Proof.
  intros step. fix IH 1. intros [n l c children]. apply step.
  induction children as [|ch children IHc]; constructor; [apply IH|exact IHc].
Qed.

Lemma find_app_first {A : Type} (p : A -> bool) (l1 l2 : list A) :
  List.find p (l1 ++ l2)
  = match List.find p l1 with Some x => Some x | None => List.find p l2 end.
Proof.
  induction l1 as [|x l1 IH]; cbn [List.find app]; [reflexivity|].
  destruct (p x); [reflexivity|exact IH].
Qed.

(** A loop over siblings whose body searches one subtree is a search in the
    concatenation of the subtrees. *)
Lemma first_some_flat_map {A : Type} (f : A -> option A) (p : A -> bool)
    (sub : A -> list A) (l : list A) :
  Forall (fun x => f x = List.find p (sub x)) l ->
  first_some f l = List.find p (flat_map sub l).
Proof.
  induction 1 as [|x l Hx _ IH]; cbn [first_some flat_map]; [reflexivity|].
  rewrite find_app_first, Hx. destruct (List.find p (sub x)); [reflexivity|exact IH].
Qed.

Lemma findSymbolByLine_node_first line s :
  findSymbolByLine_node line s
  = List.find (fun x => sym_line x =? line) (allSymbols_node s).
Proof.
  induction s as [n l c children IH] using DocumentSymbol_nested_ind.
  cbn [findSymbolByLine_node allSymbols_node List.find sym_line sym_children].
  destruct (l =? line); [reflexivity|].
  now apply first_some_flat_map.
Qed.

Lemma findSymbolByLine_find symbols line :
  findSymbolByLine symbols line
  = List.find (fun s => sym_line s =? line) (allSymbols symbols).
Proof.
  unfold findSymbolByLine, allSymbols. apply first_some_flat_map.
  apply List.Forall_forall. intros s _. apply findSymbolByLine_node_first.
Qed.

(** X1. [findSymbolByLine] returns the first symbol of the tree, in document
    order (a symbol before its descendants, these before its next sibling),
    whose selection starts on the line, and nothing when there is none. *)
Theorem findSymbolByLine_first symbols line :
  findSymbolByLine symbols line
  = List.find (fun s => sym_line s =? line) (allSymbols symbols).
Proof.
  unfold findSymbolByLine, allSymbols. apply first_some_flat_map.
  apply List.Forall_forall. intros s _. apply findSymbolByLine_node_first.
Qed.

Lemma find_elem_of {A : Type} (p : A -> bool) (l : list A) (x : A) :
  List.find p l = Some x -> x ∈ l /\ p x = true.
Proof. intros [Hin Hp]%List.find_some. split; [now apply list_elem_of_In|exact Hp]. Qed.

Lemma first_some_elem_of {A B : Type} (f : A -> option B) (l : list A) (y : B) :
  first_some f l = Some y -> exists x, x ∈ l /\ f x = Some y.
Proof.
  induction l as [|x l IH]; cbn [first_some]; [discriminate|].
  destruct (f x) as [y'|] eqn:E.
  - intros [= <-]. exists x. split; [apply list_elem_of_here|exact E].
  - intros (x' & Hin & Hx')%IH. exists x'. split; [now apply list_elem_of_further|exact Hx'].
Qed.

Lemma elem_of_flat_map {A B : Type} (f : A -> list B) (l : list A) (y : B) :
  y ∈ flat_map f l <-> exists x, x ∈ l /\ y ∈ f x.
Proof.
  rewrite list_elem_of_In, List.in_flat_map. split.
  - intros (x & Hx & Hy). exists x. now rewrite !list_elem_of_In.
  - intros (x & Hx & Hy). exists x. now rewrite <- !list_elem_of_In.
Qed.

Lemma allSymbols_node_self s : s ∈ allSymbols_node s.
Proof. destruct s. apply list_elem_of_here. Qed.

Lemma allSymbols_node_below s x :
  x ∈ allSymbols (sym_children s) -> x ∈ allSymbols_node s.
Proof. destruct s. cbn [allSymbols_node sym_children]. apply list_elem_of_further. Qed.

Lemma allSymbols_node_child s child :
  child ∈ sym_children s -> child ∈ allSymbols_node s.
Proof.
  intros Hin. apply allSymbols_node_below, elem_of_flat_map.
  exists child. split; [exact Hin|apply allSymbols_node_self].
Qed.

Lemma startsWith_app (p s : jsstring) : startsWith p (p ++ s) = true.
Proof.
  induction p as [|a p IH]; cbn [startsWith app]; [reflexivity|].
  now rewrite N.eqb_refl, IH.
Qed.

Lemma endsWith_app (p s : jsstring) : endsWith s (p ++ s) = true.
Proof. unfold endsWith. rewrite rev_app_distr. apply startsWith_app. Qed.

Lemma bareOf_eq a b : a = b -> bareOf a = bareOf b.
Proof. now intros ->. Qed.

Lemma includes_str_elem_of (l : list jsstring) (x : jsstring) :
  includes_str l x = true -> x ∈ l.
Proof.
  unfold includes_str. intros (y & Hin & Heq)%List.existsb_exists.
  apply str_eq_true in Heq. subst y. now apply list_elem_of_In.
Qed.

(** A qualified name ends with one of the suffixes. *)
Lemma qualified_suffix container name x :
  x ∈ [ container ++ js "." ++ name; container ++ js ":" ++ name;
        container ++ js "." ++ bareOf name; container ++ js ":" ++ bareOf name ] ->
  exists suffix, suffix ∈ suffixesOf name /\ endsWith suffix x = true.
Proof.
  unfold suffixesOf. rewrite !elem_of_cons.
  intros [->|[->|[->|[->|Hnil]]]]; [| | | |now apply elem_of_nil in Hnil].
  - exists (js "." ++ name). split; [|apply endsWith_app]. apply list_elem_of_here.
  - exists (js ":" ++ name). split; [|apply endsWith_app].
    apply list_elem_of_further, list_elem_of_here.
  - exists (js "." ++ bareOf name). split; [|apply endsWith_app].
    do 2 apply list_elem_of_further. apply list_elem_of_here.
  - exists (js ":" ++ bareOf name). split; [|apply endsWith_app].
    do 3 apply list_elem_of_further. apply list_elem_of_here.
Qed.

Lemma findInContainer_sound children name line child :
  findInContainer children name line = Some child ->
  child ∈ children /\ relatedTo name None line child.
Proof.
  cbv beta zeta delta [findInContainer relatedTo].
  destruct (List.find (fun c => str_eq (sym_name c) name) children)
    as [c|] eqn:Hexact; cbv iota.
  { intros [= <-]. apply find_elem_of in Hexact as [Hin Heq].
    cbv beta in Heq. apply str_eq_true in Heq. split; [exact Hin|]. left. now apply bareOf_eq. }
  destruct (List.find (fun c => str_eq (bareName (normalizeSymbolName (sym_name c) None))
                                       (bareName (normalizeSymbolName name None)))
                      children) as [c|] eqn:Hbare; cbv iota.
  { intros [= <-]. apply find_elem_of in Hbare as [Hin Heq].
    cbv beta in Heq. apply str_eq_true in Heq. split; [exact Hin|]. now left. }
  destruct line as [l|]; [|discriminate].
  intros [Hin Heq]%find_elem_of. cbv beta in Heq. apply N.eqb_eq in Heq.
  split; [exact Hin|]. right. left. now rewrite Heq.
Qed.

Lemma relatedTo_container name containerName line s :
  relatedTo name None line s -> relatedTo name containerName line s.
Proof.
  intros [H|[H|(H & _)]]; [now left|now right; left|].
  now contradiction H.
Qed.

(** What one turn of the loop returns is the symbol under test or one of its
    children, and is related to the stored reference. *)
Lemma matchSymbol_sound name containerName line symbol found :
  matchSymbol name containerName line symbol = Some found ->
  (found = symbol \/ found ∈ sym_children symbol)
  /\ relatedTo name containerName line found.
Proof.
  cbv beta zeta delta [matchSymbol].
  fold (bareOf name). fold (bareOf (sym_name symbol)).
  assert (Hplain :
    (if str_eq (sym_name symbol) name then Some symbol
     else if str_eq (bareOf (sym_name symbol)) (bareOf name)
             && negb (str_eq (bareOf (sym_name symbol)) (sym_name symbol))
     then Some symbol else None) = Some found ->
    (found = symbol \/ found ∈ sym_children symbol)
    /\ relatedTo name containerName line found).
  { destruct (str_eq (sym_name symbol) name) eqn:Hexact.
    - intros [= <-]. apply str_eq_true in Hexact.
      split; [now left|]. left. now apply bareOf_eq.
    - destruct (str_eq (bareOf (sym_name symbol)) (bareOf name)) eqn:Hbare;
        cbn [andb]; [|discriminate].
      destruct (negb _); [|discriminate].
      intros [= <-]. apply str_eq_true in Hbare. split; [now left|]. now left. }
  destruct (truthy containerName) as [container|] eqn:Hcontainer; [|exact Hplain].
  assert (Hgiven : truthy containerName <> None) by now rewrite Hcontainer.
  destruct (if str_eq (sym_name symbol) container
            then findInContainer (sym_children symbol) name line
            else None) as [child|] eqn:Hchild.
  { intros [= <-]. destruct (str_eq (sym_name symbol) container); [|discriminate].
    apply findInContainer_sound in Hchild as [Hin Hrel].
    split; [now right|]. now apply relatedTo_container. }
  destruct (includes_str _ (sym_name symbol)) eqn:Hqualified.
  { intros [= <-]. split; [now left|].
    apply includes_str_elem_of, qualified_suffix in Hqualified as (suffix & Hin & Hends).
    right. right. split; [exact Hgiven|]. exists suffix. split; [exact Hin|now left]. }
  destruct (includes_str _ (bareOf (sym_name symbol))) eqn:Hqualified'; cbn [andb].
  { destruct (negb _).
    - intros [= <-]. split; [now left|].
      apply includes_str_elem_of, qualified_suffix in Hqualified' as (suffix & Hin & Hends).
      right. right. split; [exact Hgiven|]. exists suffix. split; [exact Hin|now right].
    - destruct (existsb _ _) eqn:Hsuffix; [|exact Hplain].
      intros [= <-]. split; [now left|].
      apply List.existsb_exists in Hsuffix as (suffix & Hin & Hends).
      apply list_elem_of_In in Hin. apply orb_true_iff in Hends.
      right. right. split; [exact Hgiven|]. exists suffix. split; [exact Hin|exact Hends]. }
  destruct (existsb _ _) eqn:Hsuffix; [|exact Hplain].
  intros [= <-]. split; [now left|].
  apply List.existsb_exists in Hsuffix as (suffix & Hin & Hends).
  apply list_elem_of_In in Hin. apply orb_true_iff in Hends.
  right. right. split; [exact Hgiven|]. exists suffix. split; [exact Hin|exact Hends].
Qed.

Lemma findSymbol_sound_list name containerName line symbols :
  Forall (fun s => forall depth found,
            findSymbol_node name containerName line depth s = Some found ->
            found ∈ allSymbols_node s /\ relatedTo name containerName line found)
         symbols ->
  forall depth found,
    findSymbol symbols name containerName line depth = Some found ->
    found ∈ allSymbols symbols /\ relatedTo name containerName line found.
Proof.
  intros Hall depth found. unfold findSymbol.
  destruct (first_some _ symbols) as [f|] eqn:Hloop.
  - intros [= <-]. apply first_some_elem_of in Hloop as (s & Hin & Hs).
    rewrite Forall_forall in Hall. destruct (Hall s Hin _ _ Hs) as [Hbelow Hrel].
    split; [|exact Hrel]. apply elem_of_flat_map. now exists s.
  - destruct (depth =? 0); [|discriminate]. destruct line as [l|]; [|discriminate].
    rewrite findSymbolByLine_find. intros [Hin Heq]%find_elem_of.
    cbv beta in Heq. apply N.eqb_eq in Heq.
    split; [exact Hin|]. right. left. now rewrite Heq.
Qed.

Lemma findSymbol_node_sound name containerName line s :
  forall depth found,
    findSymbol_node name containerName line depth s = Some found ->
    found ∈ allSymbols_node s /\ relatedTo name containerName line found.
Proof.
  induction s as [n l c children IH] using DocumentSymbol_nested_ind.
  intros depth found. rewrite findSymbol_node_unfold.
  destruct (matchSymbol _ _ _ _) as [f|] eqn:Hturn.
  - intros [= <-]. apply matchSymbol_sound in Hturn as [[->|Hchild] Hrel].
    + split; [apply allSymbols_node_self|exact Hrel].
    + split; [now apply allSymbols_node_child|exact Hrel].
  - intros Hbelow. apply (findSymbol_sound_list _ _ _ _ IH) in Hbelow as [Hin Hrel].
    split; [now apply allSymbols_node_below|exact Hrel].
Qed.

Lemma findSymbol_related symbols name containerName line depth found :
  findSymbol symbols name containerName line depth = Some found ->
  found ∈ allSymbols symbols /\ relatedTo name containerName line found.
Proof.
  apply findSymbol_sound_list, Forall_forall.
  intros s _. apply findSymbol_node_sound.
Qed.

(** X2. [findSymbol] never invents a symbol and never returns an unrelated
    one: what it returns is a symbol of the tree that has the bare name of
    the stored name, or sits on the stored line, or, when a container name is
    stored, has a name (bare or not) that ends with the stored name (bare or
    not) after a dot or a colon. *)
Theorem findSymbol_sound symbols name containerName line depth found :
  findSymbol symbols name containerName line depth = Some found ->
  found ∈ allSymbols symbols /\ relatedTo name containerName line found.
Proof.
  apply findSymbol_sound_list, Forall_forall.
  intros s _. apply findSymbol_node_sound.
Qed.

Lemma findSymbol_sound_witness :
  mkSymbol (js "multiply") 40 2 [] ∈ allSymbols [calculator]
  /\ relatedTo (js "multiply") (Some (js "Calculator")) (Some 22)
       (mkSymbol (js "multiply") 40 2 []).
Proof.
  apply (findSymbol_sound [calculator] (js "multiply") (Some (js "Calculator"))
           (Some 22) 0).
  reflexivity.
Defined.

Lemma first_some_none {A B : Type} (f : A -> option B) (l : list A) :
  first_some f l = None -> forall x, x ∈ l -> f x = None.
Proof.
  induction l as [|y l IH]; cbn [first_some]; intros Hnone x Hin.
  - now apply elem_of_nil in Hin.
  - destruct (f y) eqn:E; [discriminate|].
    apply elem_of_cons in Hin as [->|Hin]; [exact E|now apply IH].
Qed.

Lemma find_none_elem_of {A : Type} (p : A -> bool) (l : list A) :
  List.find p l = None -> forall x, x ∈ l -> p x = false.
Proof. intros Hnone x Hin%list_elem_of_In. now apply (List.find_none p l). Qed.

(** A turn of the loop that returns nothing saw a symbol that is not named
    like the stored reference. *)
Lemma matchSymbol_none name containerName line symbol :
  matchSymbol name containerName line symbol = None -> ~ namedLike name symbol.
Proof.
  cbv beta zeta delta [matchSymbol namedLike].
  fold (bareOf name). fold (bareOf (sym_name symbol)).
  match goal with |- match ?x with _ => _ end = None -> _ => destruct x end;
    [discriminate|].
  destruct (str_eq (sym_name symbol) name) eqn:Hexact; [discriminate|].
  destruct (str_eq (bareOf (sym_name symbol)) (bareOf name)) eqn:Hbare; cbn [andb].
  - destruct (str_eq (bareOf (sym_name symbol)) (sym_name symbol)) eqn:Hsame;
      cbn [negb]; [|discriminate].
    apply str_eq_true in Hsame. intros _ [Hname|[_ Hdiffer]]; [|easy].
    apply str_eq_true in Hname. congruence.
  - intros _ [Hname|[Hlike _]].
    + apply str_eq_true in Hname. congruence.
    + apply str_eq_true in Hlike. congruence.
Qed.

Lemma findSymbol_none_list name containerName line symbols :
  Forall (fun s => forall depth,
            findSymbol_node name containerName line depth s = None ->
            forall x, x ∈ allSymbols_node s -> ~ namedLike name x) symbols ->
  forall depth,
    findSymbol symbols name containerName line depth = None ->
    forall x, x ∈ allSymbols symbols ->
      ~ namedLike name x /\ ~ (depth = 0 /\ line = Some (sym_line x)).
Proof.
  intros Hall depth. unfold findSymbol.
  destruct (first_some _ symbols) as [f|] eqn:Hloop; [discriminate|].
  intros Hline x (s & Hin & Hx)%elem_of_flat_map. split.
  - rewrite Forall_forall in Hall. apply (Hall s Hin depth); [|exact Hx].
    now apply (first_some_none _ _ Hloop).
  - intros [-> ->]. cbn in Hline. rewrite findSymbolByLine_find in Hline.
    apply find_none_elem_of with (x := x) in Hline.
    + cbv beta in Hline. now rewrite N.eqb_refl in Hline.
    + apply elem_of_flat_map. now exists s.
Qed.

Lemma findSymbol_node_none name containerName line s :
  forall depth,
    findSymbol_node name containerName line depth s = None ->
    forall x, x ∈ allSymbols_node s -> ~ namedLike name x.
Proof.
  induction s as [n l c children IH] using DocumentSymbol_nested_ind.
  intros depth. rewrite findSymbol_node_unfold.
  destruct (matchSymbol _ _ _ _) as [f|] eqn:Hturn; [discriminate|].
  intros Hbelow x. cbn [allSymbols_node]. intros [->|Hin]%elem_of_cons.
  - now apply matchSymbol_none in Hturn.
  - now apply (findSymbol_none_list _ _ _ _ IH _ Hbelow x).
Qed.

Lemma findSymbol_named symbols name containerName line depth s :
  s ∈ allSymbols symbols ->
  namedLike name s \/ (depth = 0 /\ line = Some (sym_line s)) ->
  findSymbol symbols name containerName line depth <> None.
Proof.
  intros Hin Hlike Hnone.
  assert (Hall : Forall (fun s => forall depth,
            findSymbol_node name containerName line depth s = None ->
            forall x, x ∈ allSymbols_node s -> ~ namedLike name x) symbols).
  { apply Forall_forall. intros s' _. apply findSymbol_node_none. }
  destruct (findSymbol_none_list _ _ _ _ Hall _ Hnone s Hin) as [Hname Hline].
  destruct Hlike; contradiction.
Qed.

(** X3. [findSymbol] misses nothing it could name: when the tree holds a
    symbol that has the stored name, or whose name carries more than its bare
    name and has the bare name of the stored name, a symbol is returned; at
    the top level (depth 0) a symbol is returned as well when the tree holds
    a symbol on the stored line. *)
Theorem findSymbol_finds symbols name containerName line depth s :
  s ∈ allSymbols symbols ->
  namedLike name s \/ (depth = 0 /\ line = Some (sym_line s)) ->
  findSymbol symbols name containerName line depth <> None.
Proof.
  intros Hin Hlike Hnone.
  assert (Hall : Forall (fun s => forall depth,
            findSymbol_node name containerName line depth s = None ->
            forall x, x ∈ allSymbols_node s -> ~ namedLike name x) symbols).
  { apply Forall_forall. intros s' _. apply findSymbol_node_none. }
  destruct (findSymbol_none_list _ _ _ _ Hall _ Hnone s Hin) as [Hname Hline].
  destruct Hlike; contradiction.
Qed.

Lemma findSymbol_finds_witness :
  findSymbol [calculator] (js "subtract") None None 0 <> None.
Proof.
  apply (findSymbol_finds [calculator] (js "subtract") None None 0
           (mkSymbol (js "subtract") 34 2 [])).
  - do 2 apply list_elem_of_further. apply list_elem_of_here.
  - left. left. reflexivity.
Defined.

Lemma matchSymbol_plain name containerName line symbol :
  truthy containerName = None ->
  matchSymbol name containerName line symbol
  = if namedLikeb name symbol then Some symbol else None.
Proof.
  intros Hnone. cbv beta zeta delta [matchSymbol namedLikeb].
  fold (bareOf name). fold (bareOf (sym_name symbol)). rewrite Hnone.
  destruct (str_eq (sym_name symbol) name); [reflexivity|]. cbn [orb].
  now destruct (_ && _).
Qed.

Lemma findSymbol_node_plain name containerName line s :
  truthy containerName = None ->
  forall depth,
    findSymbol_node name containerName line depth s
    = List.find (namedLikeb name) (allSymbols_node s).
Proof.
  intros Hnone.
  induction s as [n l c children IH] using DocumentSymbol_nested_ind.
  intros depth. cbn [findSymbol_node allSymbols_node List.find].
  rewrite matchSymbol_plain by exact Hnone.
  destruct (namedLikeb name (mkSymbol n l c children)); [reflexivity|].
  rewrite (first_some_flat_map _ (namedLikeb name) allSymbols_node).
  - destruct (List.find _ _); [reflexivity|].
    replace (depth + 1 =? 0) with false; [reflexivity|].
    symmetry. apply N.eqb_neq. lia.
  - eapply Forall_impl; [exact IH|]. intros s Hs. apply Hs.
Qed.

Lemma findSymbol_first_named symbols name containerName line :
  truthy containerName = None ->
  findSymbol symbols name containerName line 0
  = match List.find (namedLikeb name) (allSymbols symbols) with
    | Some s => Some s
    | None =>
        match line with
        | Some l => List.find (fun s => sym_line s =? l) (allSymbols symbols)
        | None => None
        end
    end.
Proof.
  intros Hnone. unfold findSymbol.
  rewrite (first_some_flat_map _ (namedLikeb name) allSymbols_node).
  - fold (allSymbols symbols). destruct (List.find _ _); [reflexivity|].
    cbn. destruct line; [apply findSymbolByLine_find|reflexivity].
  - apply Forall_forall. intros s _. now apply findSymbol_node_plain.
Qed.

Lemma namedLikeb_true name s : namedLikeb name s = true <-> namedLike name s.
Proof.
  unfold namedLikeb, namedLike.
  rewrite orb_true_iff, andb_true_iff, negb_true_iff, !str_eq_true.
  unfold str_eq. rewrite bool_decide_eq_false. reflexivity.
Qed.

(** X4. Without a stored container name, [findSymbol] returns the first
    symbol of the tree, in document order, that has the stored name or, with
    a name that carries more than its bare name, the bare name of the stored
    name; failing any, the first symbol on the stored line; failing that,
    nothing. *)
Theorem findSymbol_plain symbols name containerName line :
  truthy containerName = None ->
  findSymbol symbols name containerName line 0
  = match List.find (namedLikeb name) (allSymbols symbols) with
    | Some s => Some s
    | None =>
        match line with
        | Some l => List.find (fun s => sym_line s =? l) (allSymbols symbols)
        | None => None
        end
    end.
Proof.
  intros Hnone. unfold findSymbol.
  rewrite (first_some_flat_map _ (namedLikeb name) allSymbols_node).
  - fold (allSymbols symbols). destruct (List.find _ _); [reflexivity|].
    cbn. destruct line; [apply findSymbolByLine_find|reflexivity].
  - apply Forall_forall. intros s _. now apply findSymbol_node_plain.
Qed.

Lemma findSymbol_plain_witness :
  findSymbol [calculator] (js "add") (Some []) (Some 34) 0
  = Some (mkSymbol (js "add") 22 2 []).
Proof.
  rewrite (findSymbol_plain [calculator] (js "add") (Some []) (Some 34)).
  - reflexivity.
  - reflexivity.
Defined.

(** ** More on symbol names *)

Lemma skip_all (p : N -> bool) (s : jsstring) :
  forallb p s = true -> skip p s = [].
Proof.
  induction s as [|ch s IH]; cbn [forallb skip]; [reflexivity|].
  intros [-> Hs]%andb_true_iff. now apply IH.
Qed.

Lemma forallb_rev (p : N -> bool) (s : jsstring) :
  forallb p s = true -> forallb p (rev s) = true.
Proof.
  rewrite !List.forallb_forall. intros Hall x Hin. apply Hall.
  now apply List.in_rev.
Qed.

Lemma forallb_trim (p : N -> bool) (s : jsstring) :
  forallb p s = true -> forallb p (trim s) = true.
Proof.
  intros Hall. unfold trim, trimEnd, trimStart.
  now apply forallb_rev, forallb_skip, forallb_rev, forallb_skip.
Qed.

(** A name without opening parenthesis is its own bare name. *)
Lemma normalizeSymbolName_plain (rawName : jsstring) (rawDetail : option jsstring) :
  forallb (not_chr "(") rawName = true ->
  normalizeSymbolName rawName rawDetail
  = {| bareName := rawName; signature := truthy rawDetail |}.
Proof.
  intros Hplain. unfold normalizeSymbolName. rewrite exec_symbolName.
  unfold symbolNameParts. rewrite (skip_all _ _ Hplain).
  now destruct (span (not_chr "(") rawName).
Qed.

Lemma symbolNameParts_prefix rawName prefix content :
  symbolNameParts rawName = Some (prefix, content) ->
  forallb (not_chr "(") prefix = true.
Proof.
  intros Hparts. apply symbolNameParts_sound in Hparts as (tail & _ & _ & Hprefix & _).
  now apply Forall_forallb, Forall_not_chr.
Qed.

(** The bare name of a name: without opening parenthesis when the pattern
    matched, the name itself otherwise. *)
Lemma bareOf_bareOf (name : jsstring) : bareOf (bareOf name) = bareOf name.
Proof.
  unfold bareOf at 2 3. unfold normalizeSymbolName. rewrite exec_symbolName.
  destruct (symbolNameParts name) as [[prefix content]|] eqn:Hparts;
    cbn [bareName group capture Nat.eqb default from_option].
  - unfold bareOf. rewrite normalizeSymbolName_plain; [reflexivity|].
    apply forallb_trim. now apply symbolNameParts_prefix in Hparts.
  - unfold bareOf, normalizeSymbolName. rewrite exec_symbolName, Hparts. reflexivity.
Qed.

(** X5. Normalising is idempotent on the bare name: the bare name of a bare
    name is that bare name, whatever the details handed over. *)
Theorem normalizeSymbolName_idempotent (rawName : jsstring)
    (rawDetail rawDetail' : option jsstring) :
  bareName (normalizeSymbolName (bareName (normalizeSymbolName rawName rawDetail))
                                rawDetail')
  = bareName (normalizeSymbolName rawName rawDetail).
Proof.
  assert (Hdetail : forall n d, bareName (normalizeSymbolName n d) = bareOf n).
  { intros n d. unfold bareOf, normalizeSymbolName.
    now destruct (exec_start re_symbolName n) as [[rest c]|]. }
  rewrite !Hdetail. apply bareOf_bareOf.
Qed.

Lemma filter_idempotent {A : Type} (p : A -> bool) (l : list A) :
  List.filter p (List.filter p l) = List.filter p l.
Proof.
  induction l as [|x l IH]; cbn [List.filter]; [reflexivity|].
  destruct (p x) eqn:E; cbn [List.filter]; [rewrite E; now f_equal|exact IH].
Qed.

Lemma filter_forallb {A : Type} (p : A -> bool) (l : list A) :
  forallb p (List.filter p l) = true.
Proof.
  induction l as [|x l IH]; cbn [List.filter]; [reflexivity|].
  destruct (p x) eqn:E; cbn [forallb]; [now rewrite E|exact IH].
Qed.

Lemma forallb_impl {A : Type} (p q : A -> bool) (l : list A) :
  (forall x, p x = true -> q x = true) -> forallb p l = true -> forallb q l = true.
Proof.
  intros Hpq. rewrite !List.forallb_forall. intros Hall x Hin. now apply Hpq, Hall.
Qed.

Lemma safe_not_paren (c : N) : negb (is_unsafe c) = true -> not_chr "(" c = true.
Proof.
  unfold is_unsafe. rewrite (chr_not_chr "(" c).
  destruct (not_chr "(" c); [reflexivity|].
  cbn [negb]. rewrite !orb_true_r. discriminate.
Qed.

(** X6. [sanitizeFileName] yields a text free of the characters it is meant
    to remove (the nine characters Windows refuses in a file name and the
    two parentheses), and sanitising a sanitised name changes nothing. *)
Theorem sanitizeFileName_safe (name : jsstring) :
  Forall (fun c => is_unsafe c = false) (sanitizeFileName name)
  /\ sanitizeFileName (sanitizeFileName name) = sanitizeFileName name.
Proof.
  split.
  - unfold sanitizeFileName. apply List.Forall_forall. intros c Hin.
    apply List.filter_In in Hin as [_ Hsafe]. now apply negb_true_iff.
  - unfold sanitizeFileName at 1.
    rewrite normalizeSymbolName_plain; cbn [bareName].
    + unfold sanitizeFileName. apply filter_idempotent.
    + unfold sanitizeFileName.
      apply (forallb_impl (fun c => negb (is_unsafe c))); [apply safe_not_paren|].
      apply filter_forallb.
Qed.

(** ** More on navigation *)

(** X7. Every navigation answers the webview exactly once, with its last
    effect, about the node it was asked for; the selection is set (once)
    exactly when the answer is a success, and a warning or an error is shown
    (once) exactly when it is a failure. *)
Theorem navigateToCode_answers_once (editor : Editor) (node : Node) :
  exists m,
    messagesOf (navigateToCode editor node) = [m]
    /\ List.last (navigateToCode editor node) (postMessage m) = postMessage m
    /\ aboutNode m = id node
    /\ length (selectionsOf (navigateToCode editor node))
       = (if isSuccess m then 1 else 0)%nat
    /\ length (shownOf (navigateToCode editor node))
       = (if isSuccess m then 0 else 1)%nat.
Proof.
  unfold navigateToCode.
  destruct (symbol node) as [sym|]; [|eexists; repeat split].
  destruct (firstWorkspaceFolder editor) as [folder|]; [|eexists; repeat split].
  destruct (openTextDocument editor folder (symUri sym)); cbn [negb];
    [|eexists; repeat split].
  destruct (showTextDocument editor) as [err|[]]; [eexists; repeat split|].
  destruct (executeDocumentSymbolProvider editor folder (symUri sym))
    as [err|symbols]; [eexists; repeat split|].
  destruct (match symbols with
            | Some tree => findSymbol tree (symName sym) (symContainerName sym)
                                      (symLine sym) 0
            | None => None
            end) as [target|]; [eexists; repeat split|].
  destruct (symLine sym) as [l|]; eexists; repeat split.
Qed.

(** A symbol that bears the name of a call-hierarchy item is named like what
    the generator stores for the item. *)
Lemma namedLike_stored (itemName : jsstring) (s : DocumentSymbol) :
  sym_name s = itemName -> namedLike (bareOf itemName) s.
Proof.
  intros Hname. unfold namedLike. rewrite bareOf_bareOf, Hname.
  destruct (decide (itemName = bareOf itemName)) as [Heq|Hne].
  - now left.
  - right. split; [reflexivity|]. congruence.
Qed.

(** X8. From generation to navigation: for the node the generator creates
    from a call-hierarchy item, in a file whose symbol tree holds a symbol
    that bears the name of the item, the navigation selects the start of a
    symbol of the tree and reports success; when the item is no method (no
    container is stored then), that symbol has the bare name of the item. *)
Theorem navigate_generated (host : Host) (i : CallHierarchyItem)
    (symbols : list DocumentSymbol) (s : DocumentSymbol) :
  s ∈ allSymbols symbols ->
  sym_name s = name i ->
  exists found,
    found ∈ allSymbols symbols
    /\ (kind i <> Method -> bareOf (sym_name found) = bareOf (name i))
    /\ navigateToCode (editorWith (Some symbols)) (createNodeFromCallHierarchyItem host i)
       = [ setSelection {| line := sym_line found; character := sym_character found |};
           revealRange {| line := sym_line found; character := sym_character found |};
           postMessage (navigationSuccess (generateNodeId host i)) ].
Proof.
  intros Hin Hname. apply namedLike_stored in Hname.
  set (container := truthy match kind i with Method => detail i | _ => None end).
  set (stored := Some (line (default (rangeStart i) (selectionStart i)))).
  destruct (findSymbol symbols (bareOf (name i)) container stored 0)
    as [found|] eqn:Hfound.
  2: { exfalso. revert Hfound. apply (findSymbol_named _ _ _ _ _ s Hin). now left. }
  exists found. split; [|split].
  - now apply findSymbol_related in Hfound.
  - intros Hkind.
    assert (Hnone : truthy container = None).
    { unfold container. now destruct (kind i). }
    rewrite (findSymbol_first_named _ _ _ _ Hnone) in Hfound.
    destruct (List.find (namedLikeb _) _) as [f|] eqn:Hfirst.
    + injection Hfound as <-. apply find_elem_of in Hfirst as [_ Hlike].
      apply namedLikeb_true in Hlike. rewrite <- (bareOf_bareOf (name i)).
      destruct Hlike as [Hlike|[Hlike _]]; [now rewrite Hlike|exact Hlike].
    + apply find_none_elem_of with (x := s) in Hfirst; [|exact Hin].
      apply namedLikeb_true in Hname. congruence.
  - unfold navigateToCode, createNodeFromCallHierarchyItem, editorWith.
    cbn [symbol firstWorkspaceFolder openTextDocument showTextDocument
         executeDocumentSymbolProvider negb symName symContainerName symLine symUri id].
    fold (bareOf (name i)). fold container. fold stored. rewrite Hfound. reflexivity.
Qed.

Lemma navigate_generated_witness :
  exists found,
    found ∈ allSymbols [calculator]
    /\ (kind (functionItem "add" 22) <> Method
        -> bareOf (sym_name found) = bareOf (name (functionItem "add" 22)))
    /\ navigateToCode (editorWith (Some [calculator]))
         (createNodeFromCallHierarchyItem plainHost (functionItem "add" 22))
       = [ setSelection {| line := sym_line found; character := sym_character found |};
           revealRange {| line := sym_line found; character := sym_character found |};
           postMessage (navigationSuccess
                          (generateNodeId plainHost (functionItem "add" 22))) ].
Proof.
  apply (navigate_generated plainHost (functionItem "add" 22) [calculator]
           (mkSymbol (js "add") 22 2 [])).
  - apply list_elem_of_further, list_elem_of_here.
  - reflexivity.
Defined.

(** ** More on the method library *)

Module MethodLibraryMore.
Import MethodLibrary.

Lemma samePlace_new method ident clock :
  samePlace method
    {| id := ident; name := newName method; uri := newUri method;
       containerName := newContainerName method; line := newLine method;
       signature := newSignature method; addedAt := clock |} = true.
Proof. unfold samePlace. cbn [uri line]. now rewrite str_eq_refl, N.eqb_refl. Qed.

Lemma find_snoc {A : Type} (p : A -> bool) (l : list A) (x : A) :
  List.find p l = None -> p x = true -> List.find p (l ++ [x]) = Some x.
Proof. intros Hnone Hx. rewrite find_app_first, Hnone. cbn [List.find]. now rewrite Hx. Qed.

(** The first entry that satisfies [p] is the one [remove_first] drops. *)
Lemma remove_first_split (p : MethodItem -> bool) (methods : list MethodItem) removed :
  List.find p methods = Some removed ->
  exists before after,
    methods = before ++ removed :: after
    /\ Forall (fun m => p m = false) before
    /\ remove_first p methods = before ++ after.
Proof.
  induction methods as [|m methods IH]; cbn [List.find remove_first]; [discriminate|].
  destruct (p m) eqn:E.
  - intros [= ->]. exists [], methods. repeat split. constructor.
  - intros (before & after & -> & Hbefore & ->)%IH.
    exists (m :: before), after. repeat split. now constructor.
Qed.

Lemma remove_first_snoc (p : MethodItem -> bool) (methods : list MethodItem) x :
  Forall (fun m => p m = false) methods -> p x = true ->
  remove_first p (methods ++ [x]) = methods.
Proof.
  induction 1 as [|m methods Hm _ IH]; intros Hx; cbn [remove_first app].
  - now rewrite Hx.
  - rewrite Hm. f_equal. now apply IH.
Qed.

Lemma find_none_Forall {A : Type} (p : A -> bool) (l : list A) :
  List.find p l = None <-> Forall (fun x => p x = false) l.
Proof.
  induction l as [|x l IH]; cbn [List.find].
  - split; [constructor|reflexivity].
  - destruct (p x) eqn:E.
    + split; [discriminate|]. intros [Hx _]%Forall_cons. congruence.
    + rewrite IH. split; [now constructor|now intros [_ Hl]%Forall_cons].
Qed.

End MethodLibraryMore.

(** X9. Adding is idempotent: adding a method again, at whatever time and
    with whatever random text, returns the entry the first call returned,
    leaves the storage as the first call left it and shows the message that
    the method is already there. *)
Theorem methodLibrary_add_twice (method : MethodLibrary.NewMethod)
    (clock1 clock2 clock1' clock2' : N) (random random' : jsstring)
    (st : MethodLibrary.Storage) :
  let '(item, st1, _) := MethodLibrary.add method clock1 clock2 random st in
  MethodLibrary.add method clock1' clock2' random' st1
  = (item, st1, MethodLibrary.alreadyInLibrary (MethodLibrary.newName method)).
Proof.
  unfold MethodLibrary.add.
  change (fun m => str_eq (MethodLibrary.uri m) (MethodLibrary.newUri method)
                   && (MethodLibrary.line m =? MethodLibrary.newLine method))
    with (MethodLibrary.samePlace method).
  destruct (List.find (MethodLibrary.samePlace method) (MethodLibrary.getAll st))
    as [existing|] eqn:Hfind.
  - now rewrite Hfind.
  - unfold MethodLibrary.getAll at 1. cbn [default from_option Datatypes.id].
    rewrite (MethodLibraryMore.find_snoc _ _ _ Hfind); [reflexivity|].
    apply MethodLibraryMore.samePlace_new.
Qed.

(** X10. [remove] drops the first entry that has the identifier, and only
    that one: the entries before and after it stay, in their order, and the
    message names the entry dropped; when no entry has the identifier the
    storage is left untouched (nothing is written, not even to a workspace
    state that was never written) and no message is shown. *)
Theorem methodLibrary_remove_first (ident : jsstring) (st : MethodLibrary.Storage) :
  (exists before removed after,
      MethodLibrary.getAll st = before ++ removed :: after
      /\ MethodLibrary.id removed = ident
      /\ Forall (fun m => MethodLibrary.id m <> ident) before
      /\ MethodLibrary.remove ident st
         = (Some (before ++ after),
            Some (MethodLibrary.removedFromLibrary (MethodLibrary.name removed))))
  \/ (Forall (fun m => MethodLibrary.id m <> ident) (MethodLibrary.getAll st)
      /\ MethodLibrary.remove ident st = (st, None)).
Proof.
  unfold MethodLibrary.remove.
  destruct (List.find _ (MethodLibrary.getAll st)) as [removed|] eqn:Hfind.
  - left. pose proof Hfind as [_ Hid]%find_elem_of. cbv beta in Hid.
    apply str_eq_true in Hid.
    apply MethodLibraryMore.remove_first_split in Hfind
      as (before & after & Hall & Hbefore & ->).
    exists before, removed, after. repeat split; [exact Hall|exact Hid|].
    eapply Forall_impl; [exact Hbefore|]. intros m Hm Heq. cbv beta in Hm.
    apply str_eq_true in Heq. congruence.
  - right. split; [|reflexivity].
    apply MethodLibraryMore.find_none_Forall in Hfind.
    eapply Forall_impl; [exact Hfind|]. intros m Hm Heq. cbv beta in Hm.
    apply str_eq_true in Heq. congruence.
Qed.

(** X11. Adding then removing is a round trip: when no entry of the library
    sits at the place of the method and none has the identifier drawn for
    it, the entry returned by [add] is the one [getById] finds under its
    identifier, and removing that identifier gives back the entries the
    library had. *)
Theorem methodLibrary_add_remove (method : MethodLibrary.NewMethod)
    (clock1 clock2 : N) (random : jsstring) (st : MethodLibrary.Storage) :
  Forall (fun m => MethodLibrary.samePlace method m = false) (MethodLibrary.getAll st) ->
  Forall (fun m => MethodLibrary.id m <> js "method-" ++ dec clock1 ++ js "-" ++ random)
         (MethodLibrary.getAll st) ->
  let '(item, st1, _) := MethodLibrary.add method clock1 clock2 random st in
  MethodLibrary.getById (MethodLibrary.id item) st1 = Some item
  /\ MethodLibrary.getAll (fst (MethodLibrary.remove (MethodLibrary.id item) st1))
     = MethodLibrary.getAll st.
Proof.
  intros Hplace Hident. unfold MethodLibrary.add.
  change (fun m => str_eq (MethodLibrary.uri m) (MethodLibrary.newUri method)
                   && (MethodLibrary.line m =? MethodLibrary.newLine method))
    with (MethodLibrary.samePlace method).
  apply MethodLibraryMore.find_none_Forall in Hplace. rewrite Hplace.
  set (ident := js "method-" ++ dec clock1 ++ js "-" ++ random) in *.
  set (item := MethodLibrary.mkMethodItem ident _ _ _ _ _ _).
  assert (Hfresh : Forall (fun m => str_eq (MethodLibrary.id m) ident = false)
                          (MethodLibrary.getAll st)).
  { eapply Forall_impl; [exact Hident|]. intros m Hm. cbv beta in Hm.
    unfold str_eq. now apply bool_decide_eq_false. }
  assert (Hfound : List.find (fun m => str_eq (MethodLibrary.id m) ident)
                     (MethodLibrary.getAll st ++ [item]) = Some item).
  { apply MethodLibraryMore.find_snoc; [|apply str_eq_refl].
    now apply MethodLibraryMore.find_none_Forall. }
  split.
  - exact Hfound.
  - unfold MethodLibrary.remove.
    change (MethodLibrary.getAll (Some (MethodLibrary.getAll st ++ [item])))
      with (MethodLibrary.getAll st ++ [item]).
    cbn [MethodLibrary.id item]. rewrite Hfound. cbn [fst].
    change (MethodLibrary.getAll (Some ?l)) with l.
    apply MethodLibraryMore.remove_first_snoc; [exact Hfresh|apply str_eq_refl].
Qed.

Lemma methodLibrary_add_remove_witness :
  let '(item, st1, _) :=
    MethodLibrary.add (MethodLibrary.mkNewMethod (js "sub") (js "src/calc.ts") None 34 None)
      1700000000005 1700000000005 (js "zzzzzzzzz") libraryWithAdd in
  MethodLibrary.getById (MethodLibrary.id item) st1 = Some item
  /\ MethodLibrary.getAll (fst (MethodLibrary.remove (MethodLibrary.id item) st1))
     = MethodLibrary.getAll libraryWithAdd.
Proof.
  apply (methodLibrary_add_remove
           (MethodLibrary.mkNewMethod (js "sub") (js "src/calc.ts") None 34 None)
           1700000000005 1700000000005 (js "zzzzzzzzz") libraryWithAdd).
  - repeat constructor.
  - repeat constructor. vm_compute. discriminate.
Defined.

(** ** More on parameter signatures *)

Lemma word_not_space (ch : N) : is_word ch = true -> is_space ch = false.
Proof.
  unfold is_word, is_space.
  rewrite !orb_true_iff, !andb_true_iff, !N.leb_le, !N.eqb_eq.
  intros Hword. repeat (apply orb_false_iff; split);
    try apply andb_false_iff; rewrite ?N.eqb_neq, ?N.leb_gt; lia.
Qed.

Lemma word_not_equals (ch : N) : is_word ch = true -> chr "=" ch = false.
Proof. intros Hword. apply N.eqb_neq. intros ->. discriminate. Qed.

Lemma space_not_equals (ch : N) : is_space ch = true -> chr "=" ch = false.
Proof. intros Hspace. apply N.eqb_neq. intros ->. discriminate. Qed.

(** The tail  \s* =  of the pattern of a name with a default value. *)
Lemma rmatch_blanks_equals (s : jsstring) (c : captures) :
  rmatch (RSeq (RStar (RSet is_space)) (RLit "=")) s c accept
  = match skip is_space s with
    | ch :: rest => if chr "=" ch then Some (rest, c) else None
    | [] => None
    end.
Proof.
  unfold RLit. rewrite rmatch_seq, rmatch_star_set, greedy_skip.
  - now rewrite rmatch_set.
  - intros ch s' Hch. rewrite rmatch_set. now rewrite space_not_equals.
Qed.

(** Both patterns of [extractParamName] capture the longest run of
    identifier characters at the head of the text. *)
Lemma exec_nameDefault (param : jsstring) (rest : jsstring) (c : captures) :
  exec_start re_nameDefault param = Some (rest, c) ->
  group 1 c = span is_word param /\ span is_word param <> [].
Proof.
  unfold exec_start, re_nameDefault, RPlus. cbn [RCat].
  rewrite rmatch_seq, rmatch_group, rmatch_seq, rmatch_set.
  destruct param as [|ch t]; [discriminate|].
  destruct (is_word ch) eqn:Hword; [|discriminate].
  rewrite rmatch_star_set, greedy_skip.
  - rewrite rmatch_blanks_equals.
    destruct (skip is_space (skip is_word t)) as [|d rest']; [discriminate|].
    destruct (chr "=" d); [|discriminate].
    intros [= <- <-]. cbn [group capture Nat.eqb default from_option span].
    rewrite Hword. split; [|discriminate].
    now apply take_span_cons.
  - intros d s' Hd. rewrite rmatch_blanks_equals.
    rewrite (skip_not_head _ _ _ (word_not_space _ Hd)).
    now rewrite (word_not_equals _ Hd).
Qed.

Lemma exec_name (param : jsstring) :
  exec_start re_name param
  = match span is_word param with
    | [] => None
    | (_ :: _) as word => Some (skip is_word param, [(1%nat, word)])
    end.
Proof.
  unfold exec_start, re_name, RPlus.
  rewrite rmatch_group, rmatch_seq, rmatch_set.
  destruct param as [|ch t]; [reflexivity|]. cbn [span skip].
  destruct (is_word ch) eqn:Hword; [|reflexivity].
  rewrite rmatch_star_set, greedy_skip_absorb.
  - unfold accept. now rewrite (take_span_cons is_word ch t (skip is_word t)).
  - discriminate.
Qed.

Lemma extractParamName_span (param : jsstring) :
  extractParamName param
  = match span is_word param with [] => param | (_ :: _) as word => word end.
Proof.
  unfold extractParamName.
  destruct (exec_start re_nameDefault param) as [[rest c]|] eqn:Hdefault.
  - apply exec_nameDefault in Hdefault as [-> Hword].
    now destruct (span is_word param).
  - rewrite exec_name. now destruct (span is_word param).
Qed.

(** X12. [extractParamName] returns the identifier the parameter starts with
    (its longest prefix of letters, digits and underscores), whether a
    default value follows or not, and the parameter unchanged when it starts
    with no such character. *)
Theorem extractParamName_identifier (param : jsstring) :
  extractParamName param
  = match span is_word param with [] => param | (_ :: _) as word => word end.
Proof.
  unfold extractParamName.
  destruct (exec_start re_nameDefault param) as [[rest c]|] eqn:Hdefault.
  - apply exec_nameDefault in Hdefault as [-> Hword].
    now destruct (span is_word param).
  - rewrite exec_name. now destruct (span is_word param).
Qed.

Lemma extractVariadic_nonEmpty (re : regex) (marker param : jsstring) :
  nonEmpty marker = true -> nonEmpty param = true ->
  nonEmpty (extractVariadic re marker param) = true.
Proof.
  intros Hmarker Hparam. unfold extractVariadic.
  destruct (exec_start re param) as [[rest c]|]; [|exact Hparam].
  now destruct marker.
Qed.

Lemma extractParamName_nonEmpty (param : jsstring) :
  nonEmpty param = true -> nonEmpty (extractParamName param) = true.
Proof.
  intros Hparam. rewrite extractParamName_span.
  now destruct (span is_word param).
Qed.

(** Under the dynamic style a token gives nothing exactly when it is blank or
    an implicit self. *)
Lemma dynamic_nonEmpty (t : jsstring) :
  nonEmpty (extractTypeFromSingleParam (trim t) dynamic)
  = negb (is_empty (trim t)) && negb (selfToken t).
Proof.
  unfold extractTypeFromSingleParam, selfToken.
  destruct (is_empty (trim t)) eqn:Hempty; [reflexivity|]. cbn [negb andb].
  assert (Hparam : nonEmpty (trim t) = true) by (unfold nonEmpty; now rewrite Hempty).
  destruct (startsWith (js "**") (trim t)) eqn:Hkwargs.
  { rewrite extractVariadic_nonEmpty by easy.
    destruct (trim t) as [|a r]; try discriminate.
    change (js "**") with [42; 42] in Hkwargs. cbn [startsWith] in Hkwargs.
    apply andb_true_iff in Hkwargs as [<-%N.eqb_eq _].
    unfold str_eq. now rewrite !bool_decide_eq_false_2 by discriminate. }
  destruct (startsWith (js "*") (trim t)) eqn:Hargs.
  { rewrite extractVariadic_nonEmpty by easy.
    destruct (trim t) as [|a r]; try discriminate.
    change (js "*") with [42] in Hargs. cbn [startsWith] in Hargs.
    apply andb_true_iff in Hargs as [<-%N.eqb_eq _].
    unfold str_eq. now rewrite !bool_decide_eq_false_2 by discriminate. }
  destruct (startsWith (js "...") (trim t)) eqn:Hrest.
  { rewrite extractVariadic_nonEmpty by easy.
    destruct (trim t) as [|a r]; try discriminate.
    change (js "...") with [46; 46; 46] in Hrest. cbn [startsWith] in Hrest.
    apply andb_true_iff in Hrest as [<-%N.eqb_eq _].
    unfold str_eq. now rewrite !bool_decide_eq_false_2 by discriminate. }
  destruct (str_eq (trim t) (js "self") || str_eq (trim t) (js "cls")
            || str_eq (trim t) (js "this")); [reflexivity|].
  now apply extractParamName_nonEmpty.
Qed.

(** X13. Under the dynamic style exactly the blank tokens and the implicit
    self tokens are dropped: the types extracted, the tokens [self], [cls]
    or [this] and the tokens made of blanks add up to the tokens given. *)
Theorem dynamic_drops_blank_and_self (tokens : list jsstring) :
  (length (extractedTypes tokens dynamic) + countSelf tokens + countBlank tokens)%nat
  = length tokens.
Proof.
  unfold countSelf, countBlank.
  induction tokens as [|t tokens IH]; [reflexivity|].
  rewrite extractedTypes_cons, dynamic_nonEmpty. cbn [List.filter length].
  assert (Hself : selfToken t = true -> is_empty (trim t) = false).
  { unfold selfToken, str_eq. rewrite !orb_true_iff, !bool_decide_eq_true.
    now intros [[->| ->]| ->]. }
  destruct (is_empty (trim t)) eqn:Hempty; destruct (selfToken t) eqn:Hs;
    cbn [negb andb length]; lia.
Qed.

Lemma join_cons (sep p q : jsstring) (rest : list jsstring) :
  join sep (p :: q :: rest) = p ++ sep ++ join sep (q :: rest).
Proof. reflexivity. Qed.

Lemma join_snoc_app (sep a b : jsstring) (l : list jsstring) :
  join sep (l ++ [a ++ b]) = join sep (l ++ [a]) ++ b.
Proof.
  induction l as [|x l IH]; [reflexivity|].
  destruct l as [|y l].
  - cbn [app join]. now rewrite <- !app_assoc.
  - change (join sep (x :: (y :: l) ++ [a ++ b]) = join sep (x :: (y :: l) ++ [a]) ++ b).
    cbn [app] in *. rewrite !join_cons, IH. now rewrite <- !app_assoc.
Qed.

Lemma join_snoc (sep a b : jsstring) (l : list jsstring) :
  join sep ((l ++ [a]) ++ [b]) = join sep (l ++ [a]) ++ sep ++ b.
Proof.
  induction l as [|x l IH]; [reflexivity|].
  destruct l as [|y l].
  - cbn [app join]. now rewrite <- !app_assoc.
  - cbn [app] in *. rewrite !join_cons, IH. now rewrite <- !app_assoc.
Qed.

(** The loop of [splitParams] loses nothing: its pieces, the one begun
    included, joined by commas, are the pieces it started with followed by
    the text it read. *)
Lemma splitParams_loop_join (s : jsstring) :
  forall result current depth,
    join (js ",") (fst (splitParams_loop s result current depth)
                   ++ [snd (splitParams_loop s result current depth)])
    = join (js ",") (result ++ [current]) ++ s.
Proof.
  induction s as [|char s IH]; intros result current depth; cbn [splitParams_loop].
  - cbn [fst snd]. now rewrite app_nil_r.
  - destruct (is_open_bracket char);
      [rewrite IH, join_snoc_app, <- app_assoc; reflexivity|].
    destruct (is_close_bracket char);
      [rewrite IH, join_snoc_app, <- app_assoc; reflexivity|].
    destruct (chr "," char && (depth =? 0)%Z) eqn:Hcomma.
    + apply andb_true_iff in Hcomma as [->%chr_true _].
      rewrite IH, join_snoc. rewrite <- !app_assoc. reflexivity.
    + rewrite IH, join_snoc_app, <- app_assoc. reflexivity.
Qed.

Lemma skip_nil_forallb (p : N -> bool) (s : jsstring) :
  skip p s = [] -> forallb p s = true.
Proof.
  induction s as [|ch s IH]; cbn [skip forallb]; [reflexivity|].
  destruct (p ch); [exact IH|discriminate].
Qed.

(** A text that [trim] empties is made of blanks. *)
Lemma trim_empty_blank (s : jsstring) :
  is_empty (trim s) = true -> Forall (fun c => is_space c = true) s.
Proof.
  unfold trim, trimEnd, trimStart. intros Hempty.
  assert (Hnil : skip is_space (rev (skip is_space s)) = []).
  { destruct (skip is_space (rev (skip is_space s))) as [|a l]; [reflexivity|].
    cbn [rev] in Hempty. now destruct (rev l). }
  apply skip_nil_forallb, forallb_rev in Hnil. rewrite rev_involutive in Hnil.
  apply Forall_forallb, skip_nil_forallb.
  destruct (skip is_space s) as [|ch s'] eqn:Hskip; [reflexivity|].
  apply skip_head in Hskip. cbn [forallb] in Hnil. now rewrite Hskip in Hnil.
Qed.

(** X14. [splitParams] loses nothing but a blank tail: the pieces joined by
    commas give back the parameter text, up to the blanks after its last
    comma at depth zero (and that comma), or up to the whole text when it is
    made of blanks. *)
Theorem splitParams_join (paramsStr : jsstring) :
  exists blanks,
    Forall (fun c => is_space c = true) blanks
    /\ (paramsStr = join (js ",") (splitParams paramsStr) ++ blanks
        \/ paramsStr = join (js ",") (splitParams paramsStr) ++ js "," ++ blanks).
Proof.
  pose proof (splitParams_loop_join paramsStr [] [] 0%Z) as Hjoin.
  unfold splitParams.
  destruct (splitParams_loop paramsStr [] [] 0%Z) as [result current].
  cbn [fst snd app join] in Hjoin.
  destruct (is_empty (trim current)) eqn:Hempty.
  - exists current. split; [now apply trim_empty_blank|].
    destruct result as [|p result _] using rev_ind.
    + left. cbn [app join] in *. now rewrite Hjoin.
    + right. now rewrite join_snoc in Hjoin.
  - exists []. split; [constructor|]. left. now rewrite app_nil_r.
Qed.

Lemma extractTypesFromParams_parenthesised (paramsStr : jsstring) :
  parenthesised (extractTypesFromParams paramsStr).
Proof.
  unfold extractTypesFromParams.
  destruct (is_empty (trim paramsStr)); [now exists []|]. now eexists.
Qed.

Lemma extractSignatureFromHover_parenthesised (hoverText s : jsstring) :
  extractSignatureFromHover hoverText = Some s -> parenthesised s.
Proof.
  unfold extractSignatureFromHover.
  destruct (is_empty hoverText); [discriminate|].
  destruct (exec re_withReturnType _) as [[[before rest] c]|].
  { intros [= <-]. apply extractTypesFromParams_parenthesised. }
  destruct (exec re_atEnd _) as [[[before rest] c]|]; [|discriminate].
  intros [= <-]. apply extractTypesFromParams_parenthesised.
Qed.

Lemma truthy_Some (v : option jsstring) (s : jsstring) :
  truthy v = Some s -> v = Some s.
Proof. destruct v as [[|a l]|]; [discriminate|easy|discriminate]. Qed.

Lemma getSignatureFromHover_parenthesised host uri position s :
  getSignatureFromHover host uri position = Some s -> parenthesised s.
Proof.
  unfold getSignatureFromHover.
  intros (contents & _ & (text & _ & Htext)%first_some_elem_of)%first_some_elem_of.
  now apply truthy_Some, extractSignatureFromHover_parenthesised in Htext.
Qed.

Lemma normalizeSymbolName_parenthesised (rawName s : jsstring) :
  signature (normalizeSymbolName rawName None) = Some s -> parenthesised s.
Proof.
  unfold normalizeSymbolName.
  destruct (exec_start re_symbolName rawName) as [[rest c]|]; [|discriminate].
  cbn [signature]. intros [= <-]. now eexists.
Qed.

Lemma createNode_signature (host : Host) (i : CallHierarchyItem)
    (sym : SymbolSignature) (s : jsstring) :
  symbol (createNodeFromCallHierarchyItem host i) = Some sym ->
  symSignature sym = Some s ->
  parenthesised s.
Proof.
  unfold createNodeFromCallHierarchyItem. cbn [symbol]. intros [= <-]. cbn [symSignature].
  intros Hs%truthy_Some.
  destruct (truthy (getSignatureFromHover host (uri i) _)) as [h|] eqn:Hhover.
  - injection Hs as <-.
    now apply truthy_Some, getSignatureFromHover_parenthesised in Hhover.
  - now apply normalizeSymbolName_parenthesised in Hs.
Qed.

(** *** Parameter lists of bare names *)

Lemma span_all (p : N -> bool) (s : jsstring) : forallb p s = true -> span p s = s.
Proof.
  induction s as [|ch s IH]; cbn [forallb span]; [reflexivity|].
  intros [-> Hs]%andb_true_iff. now rewrite IH.
Qed.

Lemma bareParam_no_dollar (t : jsstring) :
  bareParam t = true -> existsb (chr "$") t = false.
Proof.
  induction t as [|c t IH]; cbn [bareParam forallb existsb]; [reflexivity|].
  intros [Hc Ht]%andb_true_iff. rewrite (IH Ht), orb_false_r.
  apply N.eqb_neq. intros ->. discriminate.
Qed.

Lemma bareParam_colonAhead (t : jsstring) : bareParam t = true -> colonAhead t = false.
Proof.
  destruct t as [|c t]; [reflexivity|]. cbn [bareParam forallb].
  intros [Hc _]%andb_true_iff. unfold colonAhead.
  rewrite (skip_not_head _ _ _ (word_not_space _ Hc)).
  replace (chr ":" c) with false by (symmetry; apply N.eqb_neq; intros ->; discriminate).
  replace (chr "?" c) with false by (symmetry; apply N.eqb_neq; intros ->; discriminate).
  reflexivity.
Qed.

Lemma bareParam_colonLike (t : jsstring) : bareParam t = true -> colonLike t = false.
Proof.
  induction t as [|c t IH]; [reflexivity|]. cbn [colonLike]. intros Hall.
  pose proof Hall as [_ Ht]%andb_true_iff.
  now rewrite (bareParam_colonAhead t Ht), andb_false_r, (IH Ht).
Qed.

Lemma bareParam_stripDefault (t : jsstring) : bareParam t = true -> stripDefault t = t.
Proof.
  induction t as [|c t IH]; [reflexivity|]. intros Hall.
  pose proof Hall as [Hc Ht]%andb_true_iff.
  cbn [stripDefault]. unfold defaultClause.
  rewrite (skip_not_head _ _ _ (word_not_space _ Hc)), (word_not_equals _ Hc).
  cbn [andb]. now rewrite (IH Ht).
Qed.

Lemma bareParam_piecesFrom (t cur : jsstring) :
  bareParam t = true ->
  piecesFrom cur t = if is_empty (cur ++ t) then [] else [cur ++ t].
Proof.
  revert cur. induction t as [|c t IH]; intros cur Hall.
  - cbn [piecesFrom]. now rewrite app_nil_r.
  - pose proof Hall as [Hc Ht]%andb_true_iff. cbn [piecesFrom].
    rewrite (word_not_space _ Hc), (IH _ Ht), <- app_assoc. reflexivity.
Qed.

Lemma bareParam_no_signal (t : jsstring) : bareParam t = true -> styleSignal t = None.
Proof.
  intros Hall. unfold styleSignal, blankSeparated.
  rewrite (bareParam_no_dollar _ Hall), (bareParam_colonLike _ Hall),
    (bareParam_stripDefault _ Hall), (bareParam_piecesFrom _ _ Hall).
  now destruct (is_empty ([] ++ t)).
Qed.

Lemma detectParamStyle_bare (tokens : list jsstring) :
  Forall (fun t => bareParam (trim t) = true) tokens ->
  detectParamStyle tokens = dynamic.
Proof.
  induction 1 as [|t tokens Ht _ IH]; [reflexivity|].
  rewrite detectParamStyle_cons, (bareParam_no_signal _ Ht), IH.
  now destruct (skippedToken (trim t)).
Qed.

Lemma bareParam_not_variadic (p : jsstring) :
  bareParam p = true ->
  startsWith (js "**") p = false /\ startsWith (js "*") p = false
  /\ startsWith (js "...") p = false.
Proof.
  change (js "**") with [42; 42]. change (js "*") with [42].
  change (js "...") with [46; 46; 46].
  destruct p as [|c p]; [easy|]. cbn [bareParam forallb startsWith].
  intros [Hc _]%andb_true_iff.
  replace (42 =? c) with false by (symmetry; apply N.eqb_neq; intros <-; discriminate).
  replace (46 =? c) with false by (symmetry; apply N.eqb_neq; intros <-; discriminate).
  easy.
Qed.

Lemma extractType_bare (p : jsstring) :
  bareParam p = true ->
  extractTypeFromSingleParam p dynamic = if isSelf p then [] else p.
Proof.
  intros Hall. unfold extractTypeFromSingleParam, isSelf.
  destruct (bareParam_not_variadic p Hall) as (-> & -> & ->).
  destruct (is_empty p) eqn:Hempty.
  { destruct p; [|discriminate]. reflexivity. }
  destruct (str_eq p (js "self") || str_eq p (js "cls") || str_eq p (js "this"));
    [reflexivity|].
  rewrite extractParamName_span, (span_all _ _ Hall). now destruct p.
Qed.

Lemma extractedTypes_bare (tokens : list jsstring) :
  Forall (fun t => bareParam (trim t) = true) tokens ->
  extractedTypes tokens dynamic
  = List.filter (fun p => nonEmpty p && negb (isSelf p)) (List.map trim tokens).
Proof.
  induction 1 as [|t tokens Ht _ IH]; [reflexivity|].
  rewrite extractedTypes_cons, IH, (extractType_bare _ Ht). cbn [List.map List.filter].
  destruct (isSelf (trim t)); [now rewrite andb_false_r|].
  rewrite andb_true_r. now destruct (nonEmpty (trim t)).
Qed.

(** X15. A parameter list of bare names is rendered as its names: when every
    piece of the list is, blanks around it apart, made of letters, digits
    and underscores (or empty), the style detected is the dynamic one and
    the signature lists the pieces without the blanks around them, the
    empty ones and [self], [cls] and [this] left out, separated by a comma
    and a blank, in parentheses. *)
Theorem extractTypesFromParams_bare_names (paramsStr : jsstring) :
  Forall (fun t => bareParam (trim t) = true) (splitParams paramsStr) ->
  detectParamStyle (splitParams paramsStr) = dynamic
  /\ extractTypesFromParams paramsStr
     = js "(" ++ join (js ", ")
                   (List.filter (fun p => nonEmpty p && negb (isSelf p))
                                (List.map trim (splitParams paramsStr)))
       ++ js ")".
Proof.
  intros Hbare. split; [now apply detectParamStyle_bare|].
  unfold extractTypesFromParams.
  rewrite (detectParamStyle_bare _ Hbare), (extractedTypes_bare _ Hbare).
  destruct (is_empty (trim paramsStr)) eqn:Hempty; [|reflexivity].
  apply trim_empty_blank in Hempty.
  assert (Hnone : splitParams paramsStr = []).
  { unfold splitParams.
    assert (Hloop : forall s current,
               Forall (fun c => is_space c = true) s ->
               splitParams_loop s [] current 0%Z = ([], current ++ s)).
    { induction s as [|c s IH]; intros current Hs; cbn [splitParams_loop].
      - now rewrite app_nil_r.
      - apply Forall_cons in Hs as [Hc Hs].
        replace (is_open_bracket c) with false.
        2:{ symmetry. unfold is_open_bracket. rewrite !orb_false_iff.
            repeat split; apply N.eqb_neq; intros ->; discriminate. }
        replace (is_close_bracket c) with false.
        2:{ symmetry. unfold is_close_bracket. rewrite !orb_false_iff.
            repeat split; apply N.eqb_neq; intros ->; discriminate. }
        replace (chr "," c) with false
          by (symmetry; apply N.eqb_neq; intros ->; discriminate).
        cbn [andb]. rewrite (IH _ Hs), <- app_assoc. reflexivity. }
    rewrite (Hloop _ [] Hempty). cbn [app].
    replace (is_empty (trim paramsStr)) with true; [reflexivity|].
    symmetry. unfold trim, trimStart.
    apply Forall_forallb in Hempty. now rewrite (skip_all _ _ Hempty). }
  now rewrite Hnone.
Qed.

Lemma extractTypesFromParams_bare_names_witness :
  detectParamStyle (splitParams (js "self, a , b_2")) = dynamic
  /\ extractTypesFromParams (js "self, a , b_2")
     = js "(" ++ join (js ", ")
                   (List.filter (fun p => nonEmpty p && negb (isSelf p))
                                (List.map trim (splitParams (js "self, a , b_2"))))
       ++ js ")".
Proof.
  apply (extractTypesFromParams_bare_names (js "self, a , b_2")).
  vm_compute. repeat constructor.
Defined.

(** *** Parameters of the colon style *)

(** A starred class followed by something that succeeds right after the
    longest run gives that success. *)
Lemma greedy_first {R : Type} (p : N -> bool) (s : jsstring) (c : captures)
    (k : jsstring -> captures -> option R) (x : R) :
  k (skip p s) c = Some x -> greedy p s c k = Some x.
Proof.
  induction s as [|ch s IH]; cbn [greedy skip]; [easy|].
  destruct (p ch); [|easy]. intros Hk. now rewrite (IH Hk).
Qed.

(** The pattern  (.+)  at the end of a pattern, on a text without line
    terminator. *)
Lemma rmatch_dots (s : jsstring) (c : captures) :
  forallb is_dot s = true -> s <> [] ->
  rmatch (RGroup 1 (RPlus (RSet is_dot))) s c accept = Some ([], (1%nat, s) :: c).
Proof.
  intros Hdots Hs. unfold RPlus. rewrite rmatch_group, rmatch_seq, rmatch_set.
  destruct s as [|d s]; [contradiction|]. cbn [forallb] in Hdots.
  apply andb_true_iff in Hdots as [-> Hdots].
  rewrite rmatch_star_set. apply greedy_first. rewrite (skip_all _ _ Hdots).
  unfold accept. now rewrite take_ge by (cbn [length]; lia).
Qed.

(** The pattern of a parameter of the colon style, on an identifier
    character, a run of identifier characters and question marks, a colon
    and a type. *)
Lemma exec_colonParam (w : N) (middle type : jsstring) :
  is_word w = true ->
  forallb (fun c => is_word c || chr "?" c) middle = true ->
  forallb is_dot type = true ->
  skip is_space type <> [] ->
  exec_start re_colonParam (w :: middle ++ js ":" ++ type)
  = Some ([], [(1%nat, skip is_space type)]).
Proof.
  intros Hw Hmiddle Hdots Htype.
  unfold exec_start, re_colonParam, RLit. cbn [RCat].
  rewrite rmatch_seq, rmatch_set, Hw.
  rewrite rmatch_seq, rmatch_star_set. apply greedy_first.
  replace (skip (fun c => is_word c || chr "?" c) (middle ++ js ":" ++ type))
    with (js ":" ++ type).
  2:{ symmetry. apply skip_app_stop; [now apply Forall_forallb|reflexivity]. }
  change (js ":" ++ type) with (58 :: type).
  rewrite rmatch_seq, rmatch_star_set. cbn [greedy is_space N.eqb Pos.eqb orb andb N.leb].
  replace (is_space 58) with false by reflexivity.
  rewrite rmatch_seq, rmatch_opt, rmatch_set.
  replace (chr "?" 58) with false by reflexivity.
  rewrite rmatch_seq, rmatch_star_set. cbn [greedy].
  replace (is_space 58) with false by reflexivity.
  rewrite rmatch_seq, rmatch_set.
  replace (chr ":" 58) with true by reflexivity.
  rewrite rmatch_seq, rmatch_star_set. apply greedy_first.
  apply rmatch_dots; [now apply forallb_skip|exact Htype].
Qed.

Lemma includes_needs_head (a : N) (p s : jsstring) :
  existsb (fun d => d =? a) s = false -> includes (a :: p) s = false.
Proof.
  induction s as [|c s IH]; cbn [existsb includes startsWith]; [reflexivity|].
  intros [Hc Hs]%orb_false_iff. now rewrite (N.eqb_sym a c), Hc, (IH Hs).
Qed.

Lemma includes_middle (p before after : jsstring) :
  includes p (before ++ p ++ after) = true.
Proof.
  induction before as [|c before IH]; cbn [app].
  - destruct (p ++ after) eqn:E; cbn [includes]; rewrite <- E, startsWith_app;
      reflexivity.
  - cbn [includes]. now rewrite IH, orb_true_r.
Qed.

Lemma indexOf_None (c : N) (s : jsstring) :
  forallb (fun d => negb (d =? c)) s = true -> indexOf c s = None.
Proof.
  induction s as [|d s IH]; cbn [forallb indexOf]; [reflexivity|].
  intros [Hd Hs]%andb_true_iff. apply negb_true_iff in Hd. now rewrite Hd, (IH Hs).
Qed.

Lemma existsb_forallb_negb {A : Type} (p : A -> bool) (l : list A) :
  existsb p l = false -> forallb (fun x => negb (p x)) l = true.
Proof.
  induction l as [|x l IH]; cbn [existsb forallb]; [reflexivity|].
  intros [-> Hl]%orb_false_iff. now rewrite (IH Hl).
Qed.

Lemma trim_skip (s : jsstring) : trim (skip is_space s) = trim s.
Proof. unfold trim, trimStart. now rewrite skip_skip. Qed.

Lemma trim_nonEmpty_skip (s : jsstring) :
  is_empty (trim s) = false -> skip is_space s <> [].
Proof. unfold trim, trimStart, trimEnd. intros Htrim Hskip. now rewrite Hskip in Htrim. Qed.

(** A parameter that holds a colon is no implicit self. *)
Lemma colon_not_self (before after : jsstring) :
  isSelf (before ++ js ":" ++ after) = false.
Proof.
  assert (Hcolon : existsb (chr ":") (before ++ js ":" ++ after) = true).
  { rewrite List.existsb_app. cbn. now rewrite orb_true_r. }
  unfold isSelf, str_eq.
  rewrite !bool_decide_eq_false_2; [reflexivity| | |];
    intros Heq; rewrite Heq in Hcolon; discriminate.
Qed.

Lemma word_head_not_variadic (w : N) (s : jsstring) :
  is_word w = true ->
  startsWith (js "**") (w :: s) = false /\ startsWith (js "*") (w :: s) = false
  /\ startsWith (js "...") (w :: s) = false.
Proof.
  change (js "**") with [42; 42]. change (js "*") with [42].
  change (js "...") with [46; 46; 46]. cbn [startsWith]. intros Hw.
  replace (42 =? w) with false by (symmetry; apply N.eqb_neq; intros <-; discriminate).
  replace (46 =? w) with false by (symmetry; apply N.eqb_neq; intros <-; discriminate).
  easy.
Qed.

(** What [extractTypeFromSingleParam] does in the colon style with a
    parameter made of an identifier character, a run of identifier
    characters and question marks, a colon and a type. *)
Lemma extractType_colon (w : N) (middle type : jsstring) :
  is_word w = true ->
  forallb (fun c => is_word c || chr "?" c) middle = true ->
  forallb is_dot type = true ->
  existsb (chr "=") type = false ->
  is_empty (trim type) = false ->
  extractTypeFromSingleParam (w :: middle ++ js ":" ++ type) colon
  = if includes (js "?:") (w :: middle ++ js ":" ++ type)
       || includes (js "?") (w :: middle ++ js ":" ++ type)
    then trim type ++ js "?" else trim type.
Proof.
  intros Hw Hmiddle Hdots Hequals Htype.
  unfold extractTypeFromSingleParam. cbn [is_empty].
  destruct (word_head_not_variadic w (middle ++ js ":" ++ type) Hw) as (-> & -> & ->).
  pose proof (colon_not_self (w :: middle) type) as Hself. unfold isSelf in Hself.
  cbn [app] in Hself. rewrite Hself. cbn [style_eqb]. rewrite andb_true_r.
  rewrite (exec_colonParam w middle type Hw Hmiddle Hdots (trim_nonEmpty_skip _ Htype)).
  cbv zeta. unfold group. cbn [capture Nat.eqb default from_option Datatypes.id].
  rewrite trim_skip.
  rewrite (indexOf_None 61 (trim type)); [reflexivity|].
  apply forallb_trim. now apply existsb_forallb_negb in Hequals.
Qed.

(** X16. Typed parameters of the colon style: from a parameter made of a
    name (letters, digits, underscores), a colon and a type that holds no
    line terminator, no equals sign and no question mark, the type is taken,
    without the blanks around it; with a question mark between the name and
    the colon, a question mark is put after the type. *)
Theorem colon_parameter_type (name type : jsstring) :
  name <> [] ->
  forallb is_word name = true ->
  forallb is_dot type = true ->
  existsb (chr "=") type = false ->
  existsb (chr "?") type = false ->
  is_empty (trim type) = false ->
  extractTypeFromSingleParam (name ++ js ":" ++ type) colon = trim type
  /\ extractTypeFromSingleParam (name ++ js "?:" ++ type) colon = trim type ++ js "?".
Proof.
  intros Hname Hword Hdots Hequals Hquestion Htype.
  destruct name as [|w ws]; [contradiction|]. cbn [forallb] in Hword.
  apply andb_true_iff in Hword as [Hw Hws].
  assert (Hnone : existsb (fun d => d =? 63) (w :: ws ++ js ":" ++ type) = false).
  { cbn [existsb]. rewrite List.existsb_app, List.existsb_app.
    replace (w =? 63) with false by (symmetry; apply N.eqb_neq; intros ->; discriminate).
    replace (existsb (fun d => d =? 63) ws) with false.
    - exact Hquestion.
    - symmetry. apply not_true_is_false. intros (d & Hd & Heq)%List.existsb_exists.
      apply N.eqb_eq in Heq. subst d.
      rewrite List.forallb_forall in Hws. now specialize (Hws _ Hd). }
  split.
  - cbn [app]. rewrite extractType_colon; try assumption.
    + change (js "?:") with (63 :: js ":"). rewrite (includes_needs_head _ _ _ Hnone).
      change (js "?") with [63]. now rewrite includes_unit, Hnone.
    + eapply forallb_impl; [|exact Hws]. intros c ->. reflexivity.
  - replace ((w :: ws) ++ js "?:" ++ type) with (w :: (ws ++ js "?") ++ js ":" ++ type)
      by (cbn [app]; now rewrite <- app_assoc).
    rewrite extractType_colon; try assumption.
    + replace (w :: (ws ++ js "?") ++ js ":" ++ type)
        with ((w :: ws) ++ js "?:" ++ type) by (cbn [app]; now rewrite <- app_assoc).
      now rewrite includes_middle.
    + rewrite forallb_app. apply andb_true_iff. split; [|reflexivity].
      eapply forallb_impl; [|exact Hws]. intros c ->. reflexivity.
Qed.

Lemma colon_parameter_type_witness :
  extractTypeFromSingleParam (js "count" ++ js ":" ++ js " Map<string, number>") colon
  = trim (js " Map<string, number>")
  /\ extractTypeFromSingleParam (js "count" ++ js "?:" ++ js " Map<string, number>") colon
     = trim (js " Map<string, number>") ++ js "?".
Proof.
  apply (colon_parameter_type (js "count") (js " Map<string, number>"));
    [discriminate|reflexivity..].
Defined.

(** ** More on the acquisition of the call hierarchy *)

Lemma getIncomingCalls_at_fold host remaining item visited :
  getIncomingCalls_at host remaining item visited
  = fold_left (exploreTurn (incomingBelow host remaining) callerNode)
              (answered (provideIncomingCalls host item)) ([], visited).
Proof. destruct remaining; reflexivity. Qed.

Lemma getOutgoingCalls_at_fold host remaining item visited :
  getOutgoingCalls_at host remaining item visited
  = fold_left (exploreTurn (outgoingBelow host remaining) calleeNode)
              (answered (provideOutgoingCalls host item)) ([], visited).
Proof. destruct remaining; reflexivity. Qed.

Lemma forestKeys_app (a b : list CallHierarchyNode) :
  forestKeys (a ++ b) = forestKeys a ++ forestKeys b.
Proof. unfold forestKeys. now rewrite List.flat_map_app, List.map_app. Qed.

Lemma forestKeys_callerNode i sub :
  forestKeys [callerNode i sub] = getNodeKey i :: forestKeys sub.
Proof.
  unfold forestKeys. cbn [flat_map callerNode allNodes List.map app].
  now rewrite !app_nil_r.
Qed.

Lemma forestKeys_calleeNode i sub :
  forestKeys [calleeNode i sub] = getNodeKey i :: forestKeys sub.
Proof.
  unfold forestKeys. cbn [flat_map calleeNode allNodes List.map app].
  now rewrite !app_nil_r.
Qed.

Lemma explored_nil (visited : gset jsstring) : explored visited ([], visited).
Proof.
  split; [constructor|]. split; [intros k Hk; now apply elem_of_nil in Hk|].
  cbn. now rewrite (right_id_L ∅ (∪)).
Qed.

(** One more turn of an exploration: the forest and the visited keys stay
    as they must be with respect to the keys the loop started from. *)
Lemma explored_turn
    (below : CallHierarchyItem -> gset jsstring -> list CallHierarchyNode * gset jsstring)
    (mk : CallHierarchyItem -> list CallHierarchyNode -> CallHierarchyNode)
    (visited0 : gset jsstring) acc i :
  (forall i visited, explored visited (below i visited)) ->
  (forall i sub, forestKeys [mk i sub] = getNodeKey i :: forestKeys sub) ->
  explored visited0 acc ->
  explored visited0 (exploreTurn below mk acc i).
Proof.
  intros Hbelow Hmk. destruct acc as [found visited].
  intros (Hnodup & Hfresh & Hvisited). cbn [fst snd] in *.
  unfold exploreTurn. case_bool_decide as Hkey; [now repeat split|].
  pose proof (Hbelow i ({[getNodeKey i]} ∪ visited)) as Hsub.
  destruct (below i ({[getNodeKey i]} ∪ visited)) as [sub visited'].
  destruct Hsub as (Hnodup' & Hfresh' & Hvisited'). cbn [fst snd] in *.
  assert (Hin : forall k, k ∈ forestKeys found -> k ∈ visited).
  { intros k Hk. rewrite Hvisited. apply elem_of_union. right.
    now apply elem_of_list_to_set. }
  assert (Hkey' : forall k, k ∈ forestKeys sub -> k <> getNodeKey i /\ k ∉ visited).
  { intros k Hk. specialize (Hfresh' k Hk). rewrite elem_of_union in Hfresh'.
    split; [intros ->; apply Hfresh'; left; now apply elem_of_singleton|].
    intros Hv. apply Hfresh'. now right. }
  unfold explored. cbn [fst snd]. rewrite forestKeys_app, Hmk. repeat split.
  - apply NoDup_app. split; [exact Hnodup|]. split.
    + intros k Hk [->|Hk']%elem_of_cons; [now apply Hkey, Hin|].
      now apply (Hkey' k Hk'), Hin.
    + apply NoDup_cons. split; [|exact Hnodup'].
      intros Hk. now destruct (Hkey' _ Hk) as [Hne _].
  - intros k [Hk|[->|Hk]%elem_of_cons]%elem_of_app.
    + now apply Hfresh.
    + intros Hv. apply Hkey. rewrite Hvisited. apply elem_of_union. now left.
    + intros Hv. apply (Hkey' k Hk). rewrite Hvisited. apply elem_of_union. now left.
  - rewrite Hvisited', Hvisited. apply set_eq. intros k.
    rewrite list_to_set_app_L, list_to_set_cons.
    rewrite !elem_of_union, elem_of_singleton. tauto.
Qed.

Lemma explored_fold
    (below : CallHierarchyItem -> gset jsstring -> list CallHierarchyNode * gset jsstring)
    (mk : CallHierarchyItem -> list CallHierarchyNode -> CallHierarchyNode)
    (visited0 : gset jsstring) items :
  (forall i visited, explored visited (below i visited)) ->
  (forall i sub, forestKeys [mk i sub] = getNodeKey i :: forestKeys sub) ->
  forall acc,
    explored visited0 acc ->
    explored visited0 (fold_left (exploreTurn below mk) items acc).
Proof.
  intros Hbelow Hmk. induction items as [|i items IH]; intros acc Hacc; [exact Hacc|].
  cbn [fold_left]. apply IH. now apply explored_turn.
Qed.

Lemma getIncomingCalls_at_explored host remaining :
  forall item visited,
    explored visited (getIncomingCalls_at host remaining item visited).
Proof.
  induction remaining as [|remaining IH]; intros item visited;
    rewrite getIncomingCalls_at_fold;
    (apply explored_fold;
     [|apply forestKeys_callerNode|apply explored_nil]).
  - intros i v. apply explored_nil.
  - exact IH.
Qed.

Lemma getOutgoingCalls_at_explored host remaining :
  forall item visited,
    explored visited (getOutgoingCalls_at host remaining item visited).
Proof.
  induction remaining as [|remaining IH]; intros item visited;
    rewrite getOutgoingCalls_at_fold;
    (apply explored_fold;
     [|apply forestKeys_calleeNode|apply explored_nil]).
  - intros i v. apply explored_nil.
  - exact IH.
Qed.

Lemma getIncomingCalls_explored host item remainingDepth visited :
  explored visited (getIncomingCalls host item remainingDepth visited).
Proof.
  unfold getIncomingCalls. destruct (remainingDepth <? 0)%Z;
    [apply explored_nil|apply getIncomingCalls_at_explored].
Qed.

Lemma getOutgoingCalls_explored host item remainingDepth visited :
  explored visited (getOutgoingCalls host item remainingDepth visited).
Proof.
  unfold getOutgoingCalls. destruct (remainingDepth <? 0)%Z;
    [apply explored_nil|apply getOutgoingCalls_at_explored].
Qed.

(** What [getCallHierarchy] returns, when it returns: the first item the
    language server prepared, with the callers and then the callees
    explored from it. *)
Lemma getCallHierarchy_Some host document position depth tree :
  getCallHierarchy host document position depth = Some tree ->
  exists rootItem others,
    prepareCallHierarchy host document position = Some (rootItem :: others)
    /\ ((depth <= 0)%Z /\ tree = mkCallNode rootItem [] []
        \/ (0 < depth)%Z
           /\ tree = mkCallNode rootItem
                (fst (getIncomingCalls host rootItem (depth - 1)
                        ({[getNodeKey rootItem]} ∪ ∅)))
                (fst (getOutgoingCalls host rootItem (depth - 1)
                        (snd (getIncomingCalls host rootItem (depth - 1)
                                ({[getNodeKey rootItem]} ∪ ∅)))))).
Proof.
  unfold getCallHierarchy.
  destruct (prepareCallHierarchy host document position) as [[|rootItem others]|];
    [discriminate| |discriminate].
  intros Htree. exists rootItem, others. split; [reflexivity|].
  destruct (0 <? depth)%Z eqn:Hdepth.
  - right. apply Z.ltb_lt in Hdepth. split; [exact Hdepth|].
    destruct (getIncomingCalls _ _ _ _) as [callers visited].
    destruct (getOutgoingCalls _ _ _ _) as [callees visited'].
    now injection Htree as <-.
  - left. apply Z.ltb_ge in Hdepth. split; [exact Hdepth|]. now injection Htree as <-.
Qed.

(** X17. The hierarchy acquired for a cursor never holds the same key (file,
    start of the range, name) twice: its nodes, the root included, have
    pairwise distinct keys, so an item met again, in a cycle or along
    another path, appears once. *)
Theorem hierarchy_keys_distinct host document position depth tree :
  getCallHierarchy host document position depth = Some tree ->
  NoDup (List.map keyOf (allNodes tree)).
Proof.
  intros (rootItem & others & _ & [[_ ->]|[_ ->]])%getCallHierarchy_Some.
  - cbn. apply NoDup_singleton.
  - set (visited0 := ({[getNodeKey rootItem]} ∪ ∅ : gset jsstring)).
    pose proof (getIncomingCalls_explored host rootItem (depth - 1) visited0)
      as (Hnodup & Hfresh & Hvisited).
    destruct (getIncomingCalls host rootItem (depth - 1) visited0) as [callers visited].
    cbn [fst snd] in *.
    pose proof (getOutgoingCalls_explored host rootItem (depth - 1) visited)
      as (Hnodup' & Hfresh' & _).
    destruct (getOutgoingCalls host rootItem (depth - 1) visited) as [callees visited'].
    cbn [fst snd] in *.
    cbn [allNodes List.map]. rewrite List.map_app.
    fold (forestKeys callers). fold (forestKeys callees).
    assert (Hroot : keyOf (mkCallNode rootItem callers callees) ∈ visited0).
    { apply elem_of_union. left. now apply elem_of_singleton. }
    apply NoDup_cons. split.
    + intros [Hk|Hk]%elem_of_app; [now apply (Hfresh _ Hk)|].
      apply (Hfresh' _ Hk). rewrite Hvisited. apply elem_of_union. now left.
    + apply NoDup_app. split; [exact Hnodup|]. split; [|exact Hnodup'].
      intros k Hk Hk'. apply (Hfresh' _ Hk'). rewrite Hvisited.
      apply elem_of_union. right. now apply elem_of_list_to_set.
Qed.

Lemma hierarchy_keys_distinct_witness :
  NoDup (List.map keyOf (allNodes (mkCallNode itemA [mkCallNode itemB [] []] []))).
Proof.
  apply (hierarchy_keys_distinct cycleHost cursorDocument cursorPosition 2).
  vm_compute. reflexivity.
Defined.

(** A property of the nodes made by the turns of an exploration holds of the
    forest found. *)
Lemma explore_fold_Forall (P : CallHierarchyNode -> Prop)
    (below : CallHierarchyItem -> gset jsstring -> list CallHierarchyNode * gset jsstring)
    (mk : CallHierarchyItem -> list CallHierarchyNode -> CallHierarchyNode)
    (items : list CallHierarchyItem) :
  (forall i visited, i ∈ items -> P (mk i (fst (below i visited)))) ->
  forall acc,
    Forall P (fst acc) ->
    Forall P (fst (fold_left (exploreTurn below mk) items acc)).
Proof.
  induction items as [|i items IH]; intros Hmk acc Hacc; [exact Hacc|].
  cbn [fold_left]. apply IH.
  - intros i' visited Hin. apply Hmk. now apply list_elem_of_further.
  - destruct acc as [found visited]. unfold exploreTurn.
    case_bool_decide; [exact Hacc|].
    specialize (Hmk i ({[getNodeKey i]} ∪ visited) (list_elem_of_here _ _)).
    destruct (below i ({[getNodeKey i]} ∪ visited)) as [sub visited'].
    cbn [fst] in *. apply Forall_app. split; [exact Hacc|]. now constructor.
Qed.

Lemma list_max_levels (bound : nat) (sub : list CallHierarchyNode) :
  Forall (fun n => (levels n <= bound)%nat) sub ->
  (list_max (List.map (fun c => S (levels c)) sub) <= S bound)%nat.
Proof.
  intros Hsub. apply List.list_max_le, List.Forall_map.
  apply List.Forall_forall. intros n Hn%list_elem_of_In.
  rewrite Forall_forall in Hsub. specialize (Hsub n Hn). cbv beta in *. lia.
Qed.

Lemma callerLinks_found host bound i callers callees :
  Forall (callerFound host bound i) callers ->
  forall caller callee,
    (caller, callee) ∈ callerLinks (mkCallNode i callers callees) ->
    caller ∈ answered (provideIncomingCalls host callee).
Proof.
  intros Hsub caller callee. rewrite Forall_forall in Hsub. cbn [callerLinks].
  intros (c & Hc & Hlink)%elem_of_flat_map.
  destruct (Hsub c Hc) as (Hitem & Hlinks & _).
  apply elem_of_cons in Hlink as [[= -> ->]|Hlink]; [exact Hitem|now apply Hlinks].
Qed.

Lemma calleeLinks_found host bound i callers callees :
  Forall (calleeFound host bound i) callees ->
  forall caller callee,
    (caller, callee) ∈ calleeLinks (mkCallNode i callers callees) ->
    callee ∈ answered (provideOutgoingCalls host caller).
Proof.
  intros Hsub caller callee. rewrite Forall_forall in Hsub. cbn [calleeLinks].
  intros (c & Hc & Hlink)%elem_of_flat_map.
  destruct (Hsub c Hc) as (Hitem & Hlinks & _).
  apply elem_of_cons in Hlink as [[= -> ->]|Hlink]; [exact Hitem|now apply Hlinks].
Qed.

Lemma levels_found host bound i callers callees :
  Forall (callerFound host bound i) callers ->
  Forall (calleeFound host bound i) callees ->
  (levels (mkCallNode i callers callees) <= S bound)%nat.
Proof.
  intros Hcallers Hcallees. cbn [levels]. apply Nat.max_lub; apply list_max_levels.
  - eapply Forall_impl; [exact Hcallers|]. now intros c (_ & _ & Hc).
  - eapply Forall_impl; [exact Hcallees|]. now intros c (_ & _ & Hc).
Qed.

Lemma callerNode_found host bound parent i sub :
  i ∈ answered (provideIncomingCalls host parent) ->
  Forall (callerFound host bound i) sub ->
  callerFound host (S bound) parent (callerNode i sub).
Proof.
  intros Hin Hsub. split; [exact Hin|]. split.
  - now apply (callerLinks_found host bound).
  - apply (levels_found host bound); [exact Hsub|constructor].
Qed.

Lemma calleeNode_found host bound parent i sub :
  i ∈ answered (provideOutgoingCalls host parent) ->
  Forall (calleeFound host bound i) sub ->
  calleeFound host (S bound) parent (calleeNode i sub).
Proof.
  intros Hin Hsub. split; [exact Hin|]. split.
  - now apply (calleeLinks_found host bound).
  - apply (levels_found host bound); [constructor|exact Hsub].
Qed.

Lemma callerFound_leaf host parent i :
  i ∈ answered (provideIncomingCalls host parent) ->
  callerFound host 0 parent (callerNode i []).
Proof.
  intros Hin. repeat split; [exact Hin| |reflexivity].
  intros caller callee Hlink. now apply elem_of_nil in Hlink.
Qed.

Lemma calleeFound_leaf host parent i :
  i ∈ answered (provideOutgoingCalls host parent) ->
  calleeFound host 0 parent (calleeNode i []).
Proof.
  intros Hin. repeat split; [exact Hin| |reflexivity].
  intros caller callee Hlink. now apply elem_of_nil in Hlink.
Qed.

Lemma getIncomingCalls_at_found host remaining :
  forall item visited,
    Forall (callerFound host remaining item)
           (fst (getIncomingCalls_at host remaining item visited)).
Proof.
  induction remaining as [|remaining IH]; intros item visited;
    rewrite getIncomingCalls_at_fold;
    (apply explore_fold_Forall; [|constructor]); intros i v Hin.
  - now apply callerFound_leaf.
  - apply callerNode_found; [exact Hin|apply IH].
Qed.

Lemma getOutgoingCalls_at_found host remaining :
  forall item visited,
    Forall (calleeFound host remaining item)
           (fst (getOutgoingCalls_at host remaining item visited)).
Proof.
  induction remaining as [|remaining IH]; intros item visited;
    rewrite getOutgoingCalls_at_fold;
    (apply explore_fold_Forall; [|constructor]); intros i v Hin.
  - now apply calleeFound_leaf.
  - apply calleeNode_found; [exact Hin|apply IH].
Qed.

Lemma getIncomingCalls_found host item remainingDepth visited :
  Forall (callerFound host (Z.to_nat remainingDepth) item)
         (fst (getIncomingCalls host item remainingDepth visited)).
Proof.
  unfold getIncomingCalls. destruct (remainingDepth <? 0)%Z;
    [constructor|apply getIncomingCalls_at_found].
Qed.

Lemma getOutgoingCalls_found host item remainingDepth visited :
  Forall (calleeFound host (Z.to_nat remainingDepth) item)
         (fst (getOutgoingCalls host item remainingDepth visited)).
Proof.
  unfold getOutgoingCalls. destruct (remainingDepth <? 0)%Z;
    [constructor|apply getOutgoingCalls_at_found].
Qed.

(** X18. The depth asked for bounds the hierarchy: below the root there are
    at most [depth] levels of callers and of callees, and none when the depth
    is zero or negative. *)
Theorem hierarchy_depth_bound host document position depth tree :
  getCallHierarchy host document position depth = Some tree ->
  (levels tree <= Z.to_nat depth)%nat.
Proof.
  intros (rootItem & others & _ & [[_ ->]|[Hdepth ->]])%getCallHierarchy_Some.
  - cbn. lia.
  - replace (Z.to_nat depth) with (S (Z.to_nat (depth - 1))) by lia.
    apply (levels_found host);
      [apply getIncomingCalls_found|apply getOutgoingCalls_found].
Qed.

Lemma hierarchy_depth_bound_witness :
  (levels (mkCallNode itemR [mkCallNode itemB [] []; mkCallNode itemC [] []] [])
   <= Z.to_nat 1)%nat.
Proof.
  apply (hierarchy_depth_bound diamondHost cursorDocument cursorPosition 1).
  vm_compute. reflexivity.
Defined.

Lemma getCallHierarchy_reported host document position depth tree :
  getCallHierarchy host document position depth = Some tree ->
  head (answered (prepareCallHierarchy host document position)) = Some (node_item tree)
  /\ (forall caller callee, (caller, callee) ∈ callerLinks tree ->
        caller ∈ answered (provideIncomingCalls host callee))
  /\ (forall caller callee, (caller, callee) ∈ calleeLinks tree ->
        callee ∈ answered (provideOutgoingCalls host caller)).
Proof.
  intros (rootItem & others & Hroot & [[_ ->]|[Hdepth ->]])%getCallHierarchy_Some;
    rewrite Hroot; (split; [reflexivity|]).
  - split; intros caller callee Hlink; now apply elem_of_nil in Hlink.
  - split.
    + eapply callerLinks_found, getIncomingCalls_found.
    + eapply calleeLinks_found, getOutgoingCalls_found.
Qed.

(** X19. The hierarchy tells no call of its own: a caller sits above a node
    only if the language server named it among the incoming calls of that
    node, a callee below a node only if the server named it among its
    outgoing calls, and the root is the first item prepared for the
    cursor. *)
Theorem hierarchy_reported host document position depth tree :
  getCallHierarchy host document position depth = Some tree ->
  head (answered (prepareCallHierarchy host document position)) = Some (node_item tree)
  /\ (forall caller callee, (caller, callee) ∈ callerLinks tree ->
        caller ∈ answered (provideIncomingCalls host callee))
  /\ (forall caller callee, (caller, callee) ∈ calleeLinks tree ->
        callee ∈ answered (provideOutgoingCalls host caller)).
Proof.
  intros (rootItem & others & Hroot & [[_ ->]|[Hdepth ->]])%getCallHierarchy_Some;
    rewrite Hroot; (split; [reflexivity|]).
  - split; intros caller callee Hlink; now apply elem_of_nil in Hlink.
  - split.
    + eapply callerLinks_found, getIncomingCalls_found.
    + eapply calleeLinks_found, getOutgoingCalls_found.
Qed.

Lemma hierarchy_reported_witness :
  head (answered (prepareCallHierarchy diamondHost cursorDocument cursorPosition))
  = Some (node_item (mkCallNode itemR
                       [ mkCallNode itemB [mkCallNode itemD [] []] [];
                         mkCallNode itemC [] [] ] []))
  /\ (forall caller callee,
        (caller, callee)
        ∈ callerLinks (mkCallNode itemR
                         [ mkCallNode itemB [mkCallNode itemD [] []] [];
                           mkCallNode itemC [] [] ] []) ->
        caller ∈ answered (provideIncomingCalls diamondHost callee))
  /\ (forall caller callee,
        (caller, callee)
        ∈ calleeLinks (mkCallNode itemR
                         [ mkCallNode itemB [mkCallNode itemD [] []] [];
                           mkCallNode itemC [] [] ] []) ->
        callee ∈ answered (provideOutgoingCalls diamondHost caller)).
Proof.
  apply (hierarchy_reported diamondHost cursorDocument cursorPosition 2).
  vm_compute. reflexivity.
Defined.

(** ** More on the construction of the graph *)

Lemma keysOf_mono host links g g' :
  grows host links g g' -> forall k, k ∈ keysOf g -> k ∈ keysOf g'.
Proof. intros ((more & ->) & _) k Hk. apply elem_of_app. now left. Qed.

Lemma grows_refl host links g : grows host links g g.
Proof.
  split; [exists []; now rewrite app_nil_r|]. split; [easy|]. split; [easy|].
  exists []. split; [now rewrite app_nil_r|constructor].
Qed.

Lemma grows_trans host links g1 g2 g3 :
  grows host links g1 g2 -> grows host links g2 g3 -> grows host links g1 g3.
Proof.
  intros H12 H23. pose proof (keysOf_mono _ _ _ _ H23) as Hmono.
  destruct H12 as ((m1 & Hk1) & Hn1 & Hw1 & a1 & He1 & Ha1).
  destruct H23 as ((m2 & Hk2) & Hn2 & Hw2 & a2 & He2 & Ha2).
  split; [exists (m1 ++ m2); now rewrite Hk2, Hk1, app_assoc|].
  split; [auto|]. split; [auto|].
  exists (a1 ++ a2). split; [now rewrite He2, He1, app_assoc|].
  apply Forall_app. split; [|exact Ha2].
  eapply Forall_impl; [exact Ha1|].
  intros e (Hfrom & Hto & Hjoins). auto.
Qed.

Lemma grows_weaken host links links' g g' :
  (forall link, link ∈ links -> link ∈ links') ->
  grows host links g g' -> grows host links' g g'.
Proof.
  intros Hsub (Hk & Hn & Hw & added & He & Ha).
  split; [exact Hk|]. split; [exact Hn|]. split; [exact Hw|].
  exists added. split; [exact He|].
  eapply Forall_impl; [exact Ha|].
  intros e (Hfrom & Hto & caller & callee & Hlink & Hends).
  split; [exact Hfrom|]. split; [exact Hto|]. exists caller, callee. auto.
Qed.

Lemma map_set_Forall (P : jsstring * Node -> Prop) key value
    (m : list (jsstring * Node)) :
  P (key, value) -> Forall P m -> Forall P (map_set key value m).
Proof.
  intros Hnew. induction 1 as [|[k v] m Hkv Hm IH]; cbn [map_set].
  - now constructor.
  - destruct (str_eq k key); constructor; assumption.
Qed.

Lemma map_set_keys_more key value m :
  exists more, List.map fst (map_set key value m) = List.map fst m ++ more.
Proof.
  rewrite map_set_keys. case_bool_decide; [exists []; now rewrite app_nil_r|now eexists].
Qed.

(** Recording an item keeps the graph whole when the edge recorded joins the
    item to a key of the map. *)
Lemma grows_recordNode host links i e g :
  (from e = generateNodeId host i \/ from e ∈ keysOf g) ->
  (to e = generateNodeId host i \/ to e ∈ keysOf g) ->
  joins host links e ->
  grows host links g (recordNode host i e g).
Proof.
  intros Hfrom Hto Hjoins.
  assert (Hnew : generateNodeId host i ∈ keysOf (recordNode host i e g)).
  { unfold keysOf, recordNode. cbn [nodeMap]. apply map_set_key_in. }
  assert (Hold : forall k, k ∈ keysOf g -> k ∈ keysOf (recordNode host i e g)).
  { intros k. unfold keysOf, recordNode. cbn [nodeMap]. apply map_set_keys_mono. }
  split; [apply map_set_keys_more|].
  split; [apply map_set_keys_NoDup|].
  split; [apply map_set_Forall; now exists i|].
  exists [e]. split; [reflexivity|]. constructor; [|constructor].
  split; [destruct Hfrom as [->|Hfrom]; auto|].
  split; [destruct Hto as [->|Hto]; auto|exact Hjoins].
Qed.

(** A loop whose turns keep the graph whole while [parent] is a key keeps
    it whole. *)
Lemma grows_fold {A : Type} host links (parent : jsstring)
    (turn : Generator -> A -> Generator) (l : list A) :
  (forall x, x ∈ l -> forall g, parent ∈ keysOf g -> grows host links g (turn g x)) ->
  forall g, parent ∈ keysOf g -> grows host links g (fold_left turn l g).
Proof.
  induction l as [|x l IH]; intros Hturn g Hparent; cbn [fold_left].
  - apply grows_refl.
  - pose proof (Hturn x (list_elem_of_here _ _) g Hparent) as Hstep.
    eapply grows_trans; [exact Hstep|]. apply IH.
    + intros y Hy. apply Hturn. now apply list_elem_of_further.
    + now apply (keysOf_mono _ _ _ _ Hstep).
Qed.

Lemma callerLinks_child i callers callees caller :
  caller ∈ callers ->
  (node_item caller, i) ∈ callerLinks (mkCallNode i callers callees)
  /\ forall link, link ∈ callerLinks caller ->
                  link ∈ callerLinks (mkCallNode i callers callees).
Proof.
  intros Hin. cbn [callerLinks]. split.
  - apply elem_of_flat_map. exists caller. split; [exact Hin|apply list_elem_of_here].
  - intros link Hlink. apply elem_of_flat_map. exists caller.
    split; [exact Hin|now apply list_elem_of_further].
Qed.

Lemma calleeLinks_child i callers callees callee :
  callee ∈ callees ->
  (i, node_item callee) ∈ calleeLinks (mkCallNode i callers callees)
  /\ forall link, link ∈ calleeLinks callee ->
                  link ∈ calleeLinks (mkCallNode i callers callees).
Proof.
  intros Hin. cbn [calleeLinks]. split.
  - apply elem_of_flat_map. exists callee. split; [exact Hin|apply list_elem_of_here].
  - intros link Hlink. apply elem_of_flat_map. exists callee.
    split; [exact Hin|now apply list_elem_of_further].
Qed.

Lemma processCallers_grows host node :
  forall level g,
    generateNodeId host (node_item node) ∈ keysOf g ->
    grows host (callerLinks node) g
      (processCallers host node (generateNodeId host (node_item node)) level g).
Proof.
  induction node as [i callers callees IHcallers _] using CallHierarchyNode_nested_ind.
  intros level g Hparent. cbn [processCallers node_item] in *.
  apply (grows_fold host _ (generateNodeId host i)); [|exact Hparent].
  intros caller Hcaller g' Hparent'. cbv beta zeta.
  case_bool_decide; [apply grows_refl|].
  destruct (callerLinks_child i callers callees caller Hcaller) as [Hlink Hlinks].
  rewrite Forall_forall in IHcallers.
  apply (grows_trans host _ g'
           (recordNode host (node_item caller)
              {| from := generateNodeId host (node_item caller);
                 to := generateNodeId host i |} g')).
  - apply grows_recordNode; cbn [from to]; [now left|now right|].
    exists (node_item caller), i. auto.
  - eapply grows_weaken; [exact Hlinks|]. apply (IHcallers caller Hcaller).
    unfold keysOf, recordNode. cbn [nodeMap]. apply map_set_key_in.
Qed.

Lemma processCallees_grows host node :
  forall level g,
    generateNodeId host (node_item node) ∈ keysOf g ->
    grows host (calleeLinks node) g
      (processCallees host node (generateNodeId host (node_item node)) level g).
Proof.
  induction node as [i callers callees _ IHcallees] using CallHierarchyNode_nested_ind.
  intros level g Hparent. cbn [processCallees node_item] in *.
  apply (grows_fold host _ (generateNodeId host i)); [|exact Hparent].
  intros callee Hcallee g' Hparent'. cbv beta zeta.
  case_bool_decide; [apply grows_refl|].
  destruct (calleeLinks_child i callers callees callee Hcallee) as [Hlink Hlinks].
  rewrite Forall_forall in IHcallees.
  apply (grows_trans host _ g'
           (recordNode host (node_item callee)
              {| from := generateNodeId host i;
                 to := generateNodeId host (node_item callee) |} g')).
  - apply grows_recordNode; cbn [from to]; [now right|now left|].
    exists i, (node_item callee). auto.
  - eapply grows_weaken; [exact Hlinks|]. apply (IHcallees callee Hcallee).
    unfold keysOf, recordNode. cbn [nodeMap]. apply map_set_key_in.
Qed.

Lemma createdBy_ids host (g : Generator) :
  createdBy host g -> List.map id (List.map snd (nodeMap g)) = keysOf g.
Proof.
  unfold createdBy, keysOf. induction 1 as [|kv m (i & ->) _ IH]; [reflexivity|].
  cbn [List.map fst snd] in *. now rewrite IH.
Qed.

(** What a generation that returns a document has done: it acquired a
    hierarchy, stored its root first, and grew the graph from there along
    the calls of the hierarchy. *)
Lemma generate_grows host document position options g doc :
  fst (generateFromCodePosition host document position options g) = inr doc ->
  exists hierarchy g',
    getCallHierarchy host document position (default 2%Z (depth options))
    = Some hierarchy
    /\ workspaceOpened host = true
    /\ nodes doc = List.map snd (nodeMap g')
    /\ createdBy host g'
    /\ List.map id (nodes doc) = keysOf g'
    /\ edges doc = genEdges g'
    /\ (exists more, keysOf g' = generateNodeId host (node_item hierarchy) :: more)
    /\ NoDup (keysOf g')
    /\ Forall (fun e => from e ∈ keysOf g' /\ to e ∈ keysOf g'
                        /\ joins host (callerLinks hierarchy ++ calleeLinks hierarchy) e)
              (genEdges g').
Proof.
  unfold generateFromCodePosition.
  destruct (workspaceOpened host) eqn:Hopened; [cbn [negb]|discriminate].
  destruct (getCallHierarchy _ _ _ _) as [hierarchy|]; [|discriminate].
  unfold convertToGraphData. cbv zeta. cbn [nodeMap genEdges visitedNodes].
  set (rootNode := createNodeFromCallHierarchyItem host (node_item hierarchy)).
  set (rootId := id rootNode).
  set (g0 := {| nodeMap := map_set rootId rootNode []; genEdges := [];
                visitedNodes := ∅ |}).
  set (g1 := match default both (direction options) with
             | both | callersOnly => processCallers host hierarchy rootId 1 g0
             | calleesOnly => g0
             end).
  set (g2 := match default both (direction options) with
             | both | calleesOnly => processCallees host hierarchy rootId 1 g1
             | callersOnly => g1
             end).
  cbn [fst]. intros [= <-]. cbn [nodes edges].
  assert (Hroot : rootId = generateNodeId host (node_item hierarchy)) by reflexivity.
  assert (Hroot0 : rootId ∈ keysOf g0) by apply list_elem_of_here.
  assert (H01 : grows host (callerLinks hierarchy ++ calleeLinks hierarchy) g0 g1).
  { unfold g1. destruct (default both (direction options));
      [| |apply grows_refl];
      (eapply grows_weaken; [|rewrite Hroot; apply processCallers_grows; now rewrite <- Hroot]);
      intros link Hlink; apply elem_of_app; now left. }
  assert (H12 : grows host (callerLinks hierarchy ++ calleeLinks hierarchy) g1 g2).
  { pose proof (keysOf_mono _ _ _ _ H01 _ Hroot0) as Hroot1.
    unfold g2. destruct (default both (direction options));
      [|apply grows_refl|];
      (eapply grows_weaken; [|rewrite Hroot; apply processCallees_grows; now rewrite <- Hroot]);
      intros link Hlink; apply elem_of_app; now right. }
  destruct (grows_trans _ _ _ _ _ H01 H12)
    as ((more & Hkeys) & Hnodup & Hkeyed & added & Hedges & Hadded).
  assert (Hcreated : createdBy host g2).
  { apply Hkeyed. constructor; [|constructor]. now exists (node_item hierarchy). }
  exists hierarchy, g2. split; [reflexivity|].
  split; [reflexivity|]. split; [reflexivity|]. split; [exact Hcreated|].
  split; [now apply (createdBy_ids host)|].
  split; [reflexivity|].
  split; [exists more; now rewrite Hkeys|].
  split; [apply Hnodup, NoDup_singleton|].
  now rewrite Hedges.
Qed.



(** X21. A generated document draws no call of its own: every edge goes from
    the node of an item to the node of an item it calls, a call that a
    language server reported, as an incoming call of the callee or as an
    outgoing call of the caller. *)
Theorem generated_edges_reported host document position options g doc :
  fst (generateFromCodePosition host document position options g) = inr doc ->
  forall e, e ∈ edges doc ->
    exists caller callee,
      from e = generateNodeId host caller
      /\ to e = generateNodeId host callee
      /\ reportedCall host caller callee.
Proof.
  intros (hierarchy & g' & Hhierarchy & _ & _ & _ & _ & -> & _ & _ & Hedges)
           %generate_grows e He.
  apply getCallHierarchy_reported in Hhierarchy as (_ & Hcallers & Hcallees).
  rewrite Forall_forall in Hedges.
  destruct (Hedges e He) as (_ & _ & caller & callee & Hlink & Hfrom & Hto).
  exists caller, callee. split; [exact Hfrom|]. split; [exact Hto|].
  apply elem_of_app in Hlink as [Hlink|Hlink]; [left|right]; auto.
Qed.

Lemma generated_edges_reported_witness :
  fst (generateFromCodePosition diamondHost cursorDocument cursorPosition
         {| depth := None; direction := None |} newGenerator) = inr diamondDocument
  /\ forall e, e ∈ edges diamondDocument ->
       exists caller callee,
         from e = generateNodeId diamondHost caller
         /\ to e = generateNodeId diamondHost callee
         /\ reportedCall diamondHost caller callee.
Proof.
  assert (Hgenerated :
    fst (generateFromCodePosition diamondHost cursorDocument cursorPosition
           {| depth := None; direction := None |} newGenerator) = inr diamondDocument)
    by (vm_compute; reflexivity).
  split; [exact Hgenerated|].
  exact (generated_edges_reported diamondHost cursorDocument cursorPosition
           {| depth := None; direction := None |} newGenerator diamondDocument
           Hgenerated).
Defined.

(** *** Node identifiers *)

Lemma le_bytes_length (n : nat) (w : N) : length (MD5.le_bytes n w) = n.
Proof. revert w. induction n as [|n IH]; intros w; cbn; [reflexivity|now rewrite IH]. Qed.

Lemma le_bytes_byte (n : nat) (w : N) : Forall (fun b => b < 256) (MD5.le_bytes n w).
Proof.
  revert w. induction n as [|n IH]; intros w; cbn [MD5.le_bytes]; constructor.
  - change 255 with (N.ones 8). rewrite N.land_ones. now apply N.mod_lt.
  - apply IH.
Qed.

Lemma digest_bytes (msg : list N) :
  length (MD5.digest msg) = 16%nat /\ Forall (fun b => b < 256) (MD5.digest msg).
Proof.
  unfold MD5.digest.
  destruct (MD5.blocks _ _ _) as [[[a b] c] d].
  split.
  - now rewrite !length_app, !le_bytes_length.
  - repeat (apply Forall_app; split); apply le_bytes_byte.
Qed.

Lemma hex_digit_hex (n : N) : n < 16 -> is_hex_digit (MD5.hex_digit n) = true.
Proof.
  intros Hn. unfold MD5.hex_digit, is_hex_digit.
  destruct (n <? 10) eqn:Hlow.
  - apply N.ltb_lt in Hlow. apply orb_true_iff. left.
    apply andb_true_iff. split; apply N.leb_le; lia.
  - apply N.ltb_ge in Hlow. apply orb_true_iff. right.
    apply andb_true_iff. split; apply N.leb_le; lia.
Qed.

Lemma hex_digits (bytes : list N) :
  Forall (fun b => b < 256) bytes ->
  length (MD5.hex bytes) = (2 * length bytes)%nat
  /\ Forall (fun c => is_hex_digit c = true) (MD5.hex bytes).
Proof.
  unfold MD5.hex. induction 1 as [|b bytes Hb _ [IHlen IHall]]; [now split|].
  cbn [flat_map app length]. split; [rewrite IHlen; lia|].
  constructor; [|constructor; [|exact IHall]]; apply hex_digit_hex.
  - rewrite N.shiftr_div_pow2. change (2 ^ 4) with 16.
    apply N.Div0.div_lt_upper_bound. exact Hb.
  - change 15 with (N.ones 4). rewrite N.land_ones. now apply N.mod_lt.
Qed.

Lemma generateNodeId_digits (host : Host) (i : CallHierarchyItem) :
  length (generateNodeId host i) = 16%nat
  /\ Forall (fun c => is_hex_digit c = true) (generateNodeId host i).
Proof.
  unfold generateNodeId, md5_hex. cbv zeta.
  destruct (digest_bytes (utf8 (toWorkspaceRelative host (fsPath (uri i)) ++ js ":"
                                ++ dec (line (rangeStart i)) ++ js ":"
                                ++ dec (character (rangeStart i)) ++ js ":" ++ name i)))
    as [Hlen Hbytes].
  destruct (hex_digits _ Hbytes) as [Hlen' Hall].
  split.
  - rewrite length_take, Hlen', Hlen. reflexivity.
  - now apply Forall_take.
Qed.

(** *** Stored paths *)

Lemma slashes_no_backslash (s : jsstring) :
  Forall (fun c => chr "\" c = false) (slashes s).
Proof.
  unfold slashes. apply List.Forall_map, List.Forall_forall. intros c _.
  destruct (chr "\" c) eqn:E; [reflexivity|exact E].
Qed.

Lemma toWorkspaceRelative_slashes (host : Host) (absolutePath : jsstring) :
  if workspaceOpened host
  then Forall (fun c => chr "\" c = false) (toWorkspaceRelative host absolutePath)
  else toWorkspaceRelative host absolutePath = absolutePath.
Proof.
  unfold workspaceOpened, toWorkspaceRelative.
  destruct (workspaceFolders host) as [[|firstFolder others]|];
    [reflexivity| |reflexivity].
  destruct (List.find _ _); apply slashes_no_backslash.
Qed.

(** *** The nodes of a generated document *)

(** X22. Every node of a generated document is the node of a call-hierarchy
    item, as the data model wants it: its identifier is made of sixteen
    lower-case hexadecimal digits; it is a code node whose label is the name
    of its symbol; that name is a bare name (normalising it changes
    nothing); the path of the symbol holds no backslash; its line is
    present; and its signature, if present, is a parenthesised list. *)
Theorem generated_nodes_wellformed host document position options g doc :
  fst (generateFromCodePosition host document position options g) = inr doc ->
  forall node, node ∈ nodes doc ->
    length (id node) = 16%nat
    /\ Forall (fun c => is_hex_digit c = true) (id node)
    /\ type node = Some code
    /\ exists sym,
         symbol node = Some sym
         /\ label node = Some (symName sym)
         /\ bareOf (symName sym) = symName sym
         /\ Forall (fun c => chr "\" c = false) (symUri sym)
         /\ symLine sym <> None
         /\ forall s, symSignature sym = Some s -> parenthesised s.
Proof.
  intros (hierarchy & g' & _ & Hopened & -> & Hcreated & _)%generate_grows node Hnode.
  apply list_elem_of_fmap in Hnode as (kv & -> & Hkv).
  unfold createdBy in Hcreated. rewrite Forall_forall in Hcreated.
  destruct (Hcreated kv Hkv) as (i & ->). cbn [snd].
  destruct (generateNodeId_digits host i) as [Hlength Hdigits].
  split; [exact Hlength|]. split; [exact Hdigits|]. split; [reflexivity|].
  eexists. split; [reflexivity|]. cbn [symName symUri symLine label].
  split; [reflexivity|]. split; [apply bareOf_bareOf|].
  split.
  { pose proof (toWorkspaceRelative_slashes host (fsPath (uri i))) as Hpath.
    now rewrite Hopened in Hpath. }
  split; [discriminate|].
  intros s. now apply (createNode_signature host i).
Qed.

Lemma generated_nodes_wellformed_witness :
  fst (generateFromCodePosition diamondHost cursorDocument cursorPosition
         {| depth := None; direction := None |} newGenerator) = inr diamondDocument
  /\ forall node, node ∈ nodes diamondDocument ->
       length (id node) = 16%nat
       /\ Forall (fun c => is_hex_digit c = true) (id node)
       /\ type node = Some code
       /\ exists sym,
            symbol node = Some sym
            /\ label node = Some (symName sym)
            /\ bareOf (symName sym) = symName sym
            /\ Forall (fun c => chr "\" c = false) (symUri sym)
            /\ symLine sym <> None
            /\ forall s, symSignature sym = Some s -> parenthesised s.
Proof.
  assert (Hgenerated :
    fst (generateFromCodePosition diamondHost cursorDocument cursorPosition
           {| depth := None; direction := None |} newGenerator) = inr diamondDocument)
    by (vm_compute; reflexivity).
  split; [exact Hgenerated|].
  exact (generated_nodes_wellformed diamondHost cursorDocument cursorPosition
           {| depth := None; direction := None |} newGenerator diamondDocument
           Hgenerated).
Defined.

(** ** The symbol under the cursor *)

Lemma CursorSymbol_nested_ind (P : CursorSymbol -> Prop) :
  (forall r n d k rg l c children,
      Forall P children -> P (mkCursorSymbol r n d k rg l c children)) ->
  forall s, P s.
Proof.
  intros step. fix IH 1. intros [r n d k rg l c children]. apply step.
  induction children as [|ch children IHc]; constructor; [apply IH|exact IHc].
Qed.

Lemma allCursorSymbols_node_self s : s ∈ allCursorSymbols_node s.
Proof. destruct s. apply list_elem_of_here. Qed.

Lemma allCursorSymbols_node_below s x :
  x ∈ allCursorSymbols (cur_children s) -> x ∈ allCursorSymbols_node s.
Proof.
  destruct s. cbn [allCursorSymbols_node cur_children]. apply list_elem_of_further.
Qed.

Lemma first_some_None_Forall {A B : Type} (f : A -> option B) (l : list A) :
  first_some f l = None <-> Forall (fun x => f x = None) l.
Proof.
  induction l as [|x l IH]; cbn [first_some].
  - split; [constructor|reflexivity].
  - destruct (f x) eqn:E.
    + split; [discriminate|]. intros [Hx _]%Forall_cons. congruence.
    + rewrite IH. split; [now constructor|now intros [_ Hl]%Forall_cons].
Qed.

Lemma findSymbolAtPosition_node_unfold position symbol :
  findSymbolAtPosition_node position symbol
  = if contains (cur_range symbol) position then
      match findSymbolAtPosition (cur_children symbol) position with
      | Some child => Some child
      | None => Some symbol
      end
    else None.
Proof. destruct symbol. reflexivity. Qed.

Lemma findSymbolAtPosition_node_None position symbol :
  findSymbolAtPosition_node position symbol = None
  <-> contains (cur_range symbol) position = false.
Proof.
  rewrite findSymbolAtPosition_node_unfold.
  destruct (contains (cur_range symbol) position); [|easy].
  now destruct (findSymbolAtPosition (cur_children symbol) position).
Qed.

Lemma findSymbolAtPosition_None symbols position :
  findSymbolAtPosition symbols position = None
  <-> Forall (fun s => contains (cur_range s) position = false) symbols.
Proof.
  unfold findSymbolAtPosition. rewrite first_some_None_Forall.
  apply Forall_iff. intros s. apply findSymbolAtPosition_node_None.
Qed.

Lemma findSymbolAtPosition_node_Some position s :
  forall found,
    findSymbolAtPosition_node position s = Some found ->
    found ∈ allCursorSymbols_node s
    /\ contains (cur_range found) position = true
    /\ Forall (fun child => contains (cur_range child) position = false)
              (cur_children found).
Proof.
  induction s as [r n d k rg l c children IH] using CursorSymbol_nested_ind.
  intros found. rewrite findSymbolAtPosition_node_unfold.
  destruct (contains _ position) eqn:Hcontains; [|discriminate].
  destruct (findSymbolAtPosition _ position) as [child|] eqn:Hchild.
  - intros [= <-]. apply first_some_elem_of in Hchild as (s & Hin & Hs).
    rewrite Forall_forall in IH. destruct (IH s Hin _ Hs) as (Hbelow & Hrest).
    split; [|exact Hrest].
    apply allCursorSymbols_node_below, elem_of_flat_map. now exists s.
  - intros [= <-]. split; [apply allCursorSymbols_node_self|].
    split; [exact Hcontains|]. now apply findSymbolAtPosition_None.
Qed.

Lemma findSymbolAtPosition_Some symbols position found :
  findSymbolAtPosition symbols position = Some found ->
  found ∈ allCursorSymbols symbols
  /\ contains (cur_range found) position = true
  /\ Forall (fun child => contains (cur_range child) position = false)
            (cur_children found).
Proof.
  intros (s & Hin & Hs)%first_some_elem_of.
  apply findSymbolAtPosition_node_Some in Hs as (Hbelow & Hrest).
  split; [|exact Hrest]. apply elem_of_flat_map. now exists s.
Qed.

(** X23. [findSymbolAtPosition] returns an innermost symbol around the
    position: whatever it returns is a symbol of the tree whose range
    contains the position and none of whose children has a range that
    contains it.  It returns nothing exactly when no symbol of the top level
    has a range that contains the position; so it returns a symbol exactly
    when some symbol of the top level has. *)
Theorem findSymbolAtPosition_innermost symbols position :
  (forall found,
      findSymbolAtPosition symbols position = Some found ->
      found ∈ allCursorSymbols symbols
      /\ contains (cur_range found) position = true
      /\ Forall (fun child => contains (cur_range child) position = false)
                (cur_children found))
  /\ (findSymbolAtPosition symbols position = None
      <-> Forall (fun s => contains (cur_range s) position = false) symbols)
  /\ ((exists found, findSymbolAtPosition symbols position = Some found)
      <-> Exists (fun s => contains (cur_range s) position = true) symbols).
Proof.
  split; [intros found; apply findSymbolAtPosition_Some|].
  split; [apply findSymbolAtPosition_None|].
  destruct (findSymbolAtPosition symbols position) as [found|] eqn:Hfound.
  - split; [intros _|intros _; now exists found].
    apply first_some_elem_of in Hfound as (s & Hin & Hs).
    apply Exists_exists. exists s. split; [exact Hin|].
    destruct (contains (cur_range s) position) eqn:Hcontains; [reflexivity|].
    apply findSymbolAtPosition_node_None in Hcontains. congruence.
  - split; [now intros [found [=]]|].
    apply findSymbolAtPosition_None in Hfound.
    intros (s & Hin & Hs)%Exists_exists. rewrite Forall_forall in Hfound.
    specialize (Hfound s Hin). congruence.
Qed.

Lemma findSymbolAtPosition_innermost_witness :
  addAtCursor ∈ allCursorSymbols [calculatorAtCursor]
  /\ contains (cur_range addAtCursor) {| line := 25; character := 4 |} = true
  /\ Forall (fun child => contains (cur_range child) {| line := 25; character := 4 |}
                          = false)
            (cur_children addAtCursor).
Proof.
  exact (proj1 (findSymbolAtPosition_innermost [calculatorAtCursor]
                  {| line := 25; character := 4 |}) addAtCursor eq_refl).
Defined.

Lemma findContainerName_node_sound target s :
  forall container,
    findContainerName_node target s = Some container ->
    exists parent child,
      parent ∈ allCursorSymbols_node s /\ cur_name parent = container
      /\ child ∈ cur_children parent /\ cur_ref child = cur_ref target.
Proof.
  induction s as [r n d k rg l c children IH] using CursorSymbol_nested_ind.
  intros container. cbn [findContainerName_node cur_children cur_name].
  destruct (existsb _ children) eqn:Hdirect.
  - intros [= <-]. apply List.existsb_exists in Hdirect as (child & Hin & Href).
    apply list_elem_of_In in Hin. apply N.eqb_eq in Href.
    exists (mkCursorSymbol r n d k rg l c children), child.
    split; [apply allCursorSymbols_node_self|]. now repeat split.
  - intros (s & Hin & Hs)%truthy_Some%first_some_elem_of.
    rewrite Forall_forall in IH.
    destruct (IH s Hin _ Hs) as (parent & child & Hparent & Hrest).
    exists parent, child. split; [|exact Hrest].
    apply list_elem_of_further, elem_of_flat_map. now exists s.
Qed.

(** X24. The container name [findContainerName] returns is the name of a
    symbol of the tree that has the target among its children. *)
Theorem findContainerName_sound symbols target container :
  findContainerName symbols target = Some container ->
  exists parent child,
    parent ∈ allCursorSymbols symbols /\ cur_name parent = container
    /\ child ∈ cur_children parent /\ cur_ref child = cur_ref target.
Proof.
  intros (s & Hin & Hs)%first_some_elem_of.
  apply findContainerName_node_sound in Hs as (parent & child & Hparent & Hrest).
  exists parent, child. split; [|exact Hrest]. apply elem_of_flat_map. now exists s.
Qed.

Lemma findContainerName_sound_witness :
  exists parent child,
    parent ∈ allCursorSymbols [calculatorAtCursor]
    /\ cur_name parent = js "Calculator"
    /\ child ∈ cur_children parent /\ cur_ref child = cur_ref addAtCursor.
Proof.
  apply (findContainerName_sound [calculatorAtCursor] addAtCursor (js "Calculator")).
  reflexivity.
Defined.

Lemma allSymbols_asDocumentSymbol_node s :
  allSymbols_node (asDocumentSymbol s)
  = List.map asDocumentSymbol (allCursorSymbols_node s).
Proof.
  induction s as [r n d k rg l c children IH] using CursorSymbol_nested_ind.
  cbn [asDocumentSymbol allSymbols_node allCursorSymbols_node List.map]. f_equal.
  induction IH as [|ch children Hch _ IHc]; [reflexivity|].
  cbn [List.map flat_map]. now rewrite List.map_app, Hch, IHc.
Qed.

Lemma allSymbols_asDocumentSymbol symbols :
  allSymbols (List.map asDocumentSymbol symbols)
  = List.map asDocumentSymbol (allCursorSymbols symbols).
Proof.
  unfold allSymbols, allCursorSymbols.
  induction symbols as [|s symbols IH]; [reflexivity|].
  cbn [List.map flat_map].
  now rewrite List.map_app, allSymbols_asDocumentSymbol_node, IH.
Qed.

Lemma sym_name_asDocumentSymbol s : sym_name (asDocumentSymbol s) = cur_name s.
Proof. now destruct s. Qed.

Lemma sym_line_asDocumentSymbol s : sym_line (asDocumentSymbol s) = cur_line s.
Proof. now destruct s. Qed.

Lemma bareName_detail (rawName : jsstring) (rawDetail : option jsstring) :
  bareName (normalizeSymbolName rawName rawDetail) = bareOf rawName.
Proof.
  unfold bareOf, normalizeSymbolName.
  now destruct (exec_start re_symbolName rawName) as [[rest c]|].
Qed.

(** What [getSymbolAtCursor] returns, when it returns a method. *)
Lemma getSymbolAtCursor_method workspaceFolder provider relativePath position method :
  getSymbolAtCursor workspaceFolder provider relativePath position = inr method ->
  exists symbols symbol,
    provider = Answered (Some symbols)
    /\ findSymbolAtPosition symbols position = Some symbol
    /\ cur_kind symbol <> OtherKind
    /\ method
       = {| MethodLibrary.newName := bareOf (cur_name symbol);
            MethodLibrary.newUri := relativePath;
            MethodLibrary.newContainerName := findContainerName symbols symbol;
            MethodLibrary.newLine := cur_line symbol;
            MethodLibrary.newSignature :=
              signature (normalizeSymbolName (cur_name symbol) (cur_detail symbol)) |}.
Proof.
  unfold getSymbolAtCursor.
  destruct workspaceFolder; [|discriminate]. cbn [negb].
  destruct provider as [err|[[|s symbols]|]]; try discriminate.
  destruct (findSymbolAtPosition (s :: symbols) position) as [symbol|] eqn:Hfound;
    [|discriminate].
  intros Hmethod. exists (s :: symbols), symbol.
  split; [reflexivity|]. split; [exact Hfound|].
  rewrite <- (bareName_detail (cur_name symbol) (cur_detail symbol)).
  destruct (cur_kind symbol); try discriminate;
    (split; [discriminate|]); now injection Hmethod as <-.
Qed.

(** X25. From the cursor to navigation: a method [getSymbolAtCursor] returns
    was read off an innermost method, function or constructor around the
    cursor, and the relocator, asked for what was recorded of it (name,
    container, line) in the same symbol tree, finds a symbol of the tree. *)
Theorem cursor_method_relocated workspaceFolder symbols relativePath position method :
  getSymbolAtCursor workspaceFolder (Answered (Some symbols)) relativePath position
  = inr method ->
  (exists symbol,
      findSymbolAtPosition symbols position = Some symbol
      /\ cur_kind symbol <> OtherKind
      /\ MethodLibrary.newName method = bareOf (cur_name symbol)
      /\ MethodLibrary.newLine method = cur_line symbol)
  /\ exists found,
       findSymbol (List.map asDocumentSymbol symbols)
         (MethodLibrary.newName method) (MethodLibrary.newContainerName method)
         (Some (MethodLibrary.newLine method)) 0 = Some found
       /\ found ∈ allSymbols (List.map asDocumentSymbol symbols).
Proof.
  intros (symbols' & symbol & [= <-] & Hfound & Hkind & ->)%getSymbolAtCursor_method.
  cbn [MethodLibrary.newName MethodLibrary.newLine MethodLibrary.newContainerName].
  split; [now exists symbol|].
  destruct (findSymbol _ _ _ _ 0) as [found|] eqn:Hrelocated.
  - exists found. split; [reflexivity|]. now apply findSymbol_related in Hrelocated.
  - exfalso. revert Hrelocated.
    apply (findSymbol_named _ _ _ _ _ (asDocumentSymbol symbol)).
    + rewrite allSymbols_asDocumentSymbol.
      apply (list_elem_of_fmap_2 asDocumentSymbol).
      now apply findSymbolAtPosition_Some in Hfound as (Hin & _).
    + left. apply namedLike_stored. apply sym_name_asDocumentSymbol.
Qed.

Lemma cursor_method_relocated_witness :
  (exists symbol,
      findSymbolAtPosition [calculatorAtCursor] {| line := 25; character := 4 |}
      = Some symbol
      /\ cur_kind symbol <> OtherKind
      /\ js "add" = bareOf (cur_name symbol)
      /\ 22 = cur_line symbol)
  /\ exists found,
       findSymbol (List.map asDocumentSymbol [calculatorAtCursor])
         (js "add") (Some (js "Calculator")) (Some 22) 0 = Some found
       /\ found ∈ allSymbols (List.map asDocumentSymbol [calculatorAtCursor]).
Proof.
  apply (cursor_method_relocated true [calculatorAtCursor] (js "src/calc.ts")
           {| line := 25; character := 4 |}
           (MethodLibrary.mkNewMethod (js "add") (js "src/calc.ts")
              (Some (js "Calculator")) 22
              (Some (js "(a: number, b: number): number")))).
  reflexivity.
Defined.

(** ** Check boxes in notes *)

Lemma rmatch_checkbox (s : jsstring) :
  rmatch re_checkbox s [] accept
  = match s with
    | a :: b :: c :: rest => if isBox a b c then Some (rest, [(1%nat, [b])]) else None
    | _ => None
    end.
Proof.
  unfold re_checkbox, RLit, isBox. cbn [RCat].
  rewrite rmatch_seq, rmatch_set. destruct s as [|a s]; [reflexivity|].
  destruct (chr "[" a); [cbn [andb]|now destruct s as [|b [|c rest]]].
  rewrite rmatch_seq, rmatch_group, rmatch_set. destruct s as [|b s]; [reflexivity|].
  destruct (is_checkbox_state b); [|now destruct s].
  rewrite rmatch_set. destruct s as [|c rest]; [reflexivity|].
  destruct (chr "]" c); [|reflexivity].
  unfold accept. cbn [length]. now rewrite Nat.sub_succ_l, Nat.sub_diag by lia.
Qed.

Lemma toggling_box checkboxIndex calls a b c :
  isBox a b c = true ->
  toggling checkboxIndex calls [a; b; c] [(1%nat, [b])]
  = [a; if (Z.of_nat calls =? checkboxIndex)%Z then flipState b else b; c].
Proof.
  unfold isBox, toggling, flipState.
  intros [[->%chr_true Hb]%andb_true_iff ->%chr_true]%andb_true_iff.
  destruct (Z.of_nat calls =? checkboxIndex)%Z; [|reflexivity].
  cbn [group capture Nat.eqb default from_option].
  unfold str_eq. destruct (chr " " b) eqn:Hblank.
  - apply chr_true in Hblank. subst b. reflexivity.
  - rewrite bool_decide_eq_false_2; [reflexivity|].
    intros [= ->]. discriminate.
Qed.

(** One turn of the replacement of [toggleCheckbox]. *)
Lemma toggle_step checkboxIndex fuel calls s :
  replace_all re_checkbox (toggling checkboxIndex) (S fuel) calls s
  = match s with
    | a :: b :: c :: rest =>
        if isBox a b c
        then a :: (if (Z.of_nat calls =? checkboxIndex)%Z then flipState b else b)
               :: c :: replace_all re_checkbox (toggling checkboxIndex) fuel (S calls) rest
        else a :: replace_all re_checkbox (toggling checkboxIndex) fuel calls
                    (b :: c :: rest)
    | a :: s' => a :: replace_all re_checkbox (toggling checkboxIndex) fuel calls s'
    | [] => []
    end.
Proof.
  cbn [replace_all]. rewrite rmatch_checkbox.
  destruct s as [|a [|b [|c rest]]]; try reflexivity.
  destruct (isBox a b c) eqn:Hbox; [|reflexivity].
  cbv zeta. replace (length rest <? length (a :: b :: c :: rest))%nat with true
    by (symmetry; apply Nat.ltb_lt; cbn [length]; lia).
  replace (length (a :: b :: c :: rest) - length rest)%nat with 3%nat
    by (cbn [length]; lia).
  cbn [take]. now rewrite (toggling_box _ _ _ _ _ Hbox).
Qed.

Lemma toggleCheckbox_toggling text checkboxIndex :
  toggleCheckbox text checkboxIndex
  = replace_all re_checkbox (toggling checkboxIndex) (S (length text)) 0 text.
Proof. reflexivity. Qed.

Lemma alike_refl a : alike a a.
Proof. now left. Qed.

Lemma flipState_state b : is_checkbox_state (flipState b) = true.
Proof. unfold flipState. now destruct (chr " " b). Qed.

Lemma isBox_state a b c : isBox a b c = true -> is_checkbox_state b = true.
Proof. unfold isBox. now intros [[_ Hb]%andb_true_iff _]%andb_true_iff. Qed.

Lemma toggle_alike checkboxIndex fuel :
  forall calls s,
    Forall2 alike s (replace_all re_checkbox (toggling checkboxIndex) fuel calls s).
Proof.
  induction fuel as [|fuel IH]; intros calls s.
  - cbn [replace_all]. apply Forall2_same_length_lookup_2; [reflexivity|].
    intros i x y Hx Hy. left. congruence.
  - rewrite toggle_step. destruct s as [|a [|b [|c rest]]].
    + constructor.
    + constructor; [apply alike_refl|apply IH].
    + constructor; [apply alike_refl|apply IH].
    + destruct (isBox a b c) eqn:Hbox.
      * constructor; [apply alike_refl|]. constructor.
        { destruct (Z.of_nat calls =? checkboxIndex)%Z; [|apply alike_refl].
          right. split; [now apply isBox_state in Hbox|apply flipState_state]. }
        constructor; [apply alike_refl|apply IH].
      * constructor; [apply alike_refl|apply IH].
Qed.

Lemma toggle_before checkboxIndex fuel :
  forall calls s,
    (checkboxIndex < Z.of_nat calls)%Z ->
    replace_all re_checkbox (toggling checkboxIndex) fuel calls s = s.
Proof.
  induction fuel as [|fuel IH]; intros calls s Hcalls; [reflexivity|].
  rewrite toggle_step. destruct s as [|a [|b [|c rest]]]; [reflexivity| | |].
  - now rewrite IH.
  - now rewrite IH.
  - replace (Z.of_nat calls =? checkboxIndex)%Z with false
      by (symmetry; apply Z.eqb_neq; lia).
    rewrite !IH by lia. now destruct (isBox a b c).
Qed.

Lemma state_not_bracket c : is_checkbox_state c = true -> chr "]" c = false.
Proof.
  unfold is_checkbox_state. rewrite !orb_true_iff.
  intros [[->%chr_true| ->%chr_true]| ->%chr_true]; reflexivity.
Qed.

Lemma alike_state b b' : alike b b' -> is_checkbox_state b = is_checkbox_state b'.
Proof. intros [->|[-> ->]]; reflexivity. Qed.

Lemma alike_bracket c c' : alike c c' -> chr "]" c = chr "]" c'.
Proof.
  intros [->|[Hc Hc']]; [reflexivity|].
  now rewrite (state_not_bracket _ Hc), (state_not_bracket _ Hc').
Qed.

Lemma boxAhead_alike a (s t : jsstring) :
  Forall2 alike s t -> boxAhead a s = boxAhead a t.
Proof.
  intros Halike. destruct Halike as [|b b' s t Hb Halike]; [reflexivity|].
  destruct Halike as [|c c' s t Hc Halike]; [reflexivity|].
  cbn [boxAhead]. unfold isBox.
  now rewrite (alike_state _ _ Hb), (alike_bracket _ _ Hc).
Qed.

Lemma toggle_step_plain checkboxIndex fuel calls a t :
  boxAhead a t = false ->
  replace_all re_checkbox (toggling checkboxIndex) (S fuel) calls (a :: t)
  = a :: replace_all re_checkbox (toggling checkboxIndex) fuel calls t.
Proof.
  intros Hplain. rewrite toggle_step. destruct t as [|b [|c rest]]; try reflexivity.
  cbn [boxAhead] in Hplain. now rewrite Hplain.
Qed.

Lemma includes_tail (p : jsstring) (a : N) (s : jsstring) :
  includes p (a :: s) = false -> startsWith p (a :: s) = false /\ includes p s = false.
Proof. cbn [includes]. now intros [H1 H2]%orb_false_iff. Qed.

Lemma flipState_flipState a b c :
  isBox a b c = true -> startsWith (js "[X]") (a :: b :: c :: []) = false ->
  flipState (flipState b) = b.
Proof.
  unfold isBox, is_checkbox_state.
  intros [[->%chr_true Hb]%andb_true_iff ->%chr_true]%andb_true_iff.
  apply orb_true_iff in Hb as [[->%chr_true| ->%chr_true]%orb_true_iff| ->%chr_true];
    [reflexivity|reflexivity|discriminate].
Qed.

Lemma startsWith_three (p : jsstring) a b c rest :
  length p = 3%nat ->
  startsWith p (a :: b :: c :: rest) = startsWith p [a; b; c].
Proof.
  destruct p as [|x [|y [|z [|w p]]]]; try discriminate. intros _.
  cbn [startsWith]. reflexivity.
Qed.

(** Toggling twice gives back a text that writes no checked box with a
    capital letter. *)
Lemma toggle_twice checkboxIndex fuel :
  forall calls s,
    includes (js "[X]") s = false ->
    replace_all re_checkbox (toggling checkboxIndex) fuel calls
      (replace_all re_checkbox (toggling checkboxIndex) fuel calls s) = s.
Proof.
  induction fuel as [|fuel IH]; intros calls s Hplain; [reflexivity|].
  destruct s as [|a s']; [reflexivity|].
  apply includes_tail in Hplain as [Hhead Htail].
  destruct (boxAhead a s') eqn:Hbox.
  - destruct s' as [|b [|c rest]]; try discriminate. cbn [boxAhead] in Hbox.
    rewrite (toggle_step _ _ _ (a :: b :: c :: rest)), Hbox.
    assert (Hbox' : isBox a (if (Z.of_nat calls =? checkboxIndex)%Z
                             then flipState b else b) c = true).
    { destruct (Z.of_nat calls =? checkboxIndex)%Z; [|exact Hbox].
      unfold isBox in *. rewrite flipState_state.
      apply andb_true_iff in Hbox as [[-> _]%andb_true_iff ->]. reflexivity. }
    rewrite toggle_step, Hbox'.
    apply includes_tail in Htail as [_ Htail].
    apply includes_tail in Htail as [_ Htail].
    rewrite (IH _ _ Htail).
    destruct (Z.of_nat calls =? checkboxIndex)%Z; [|reflexivity].
    rewrite (flipState_flipState a b c Hbox); [reflexivity|].
    now rewrite <- (startsWith_three (js "[X]") a b c rest).
  - rewrite (toggle_step_plain _ _ _ _ _ Hbox).
    rewrite toggle_step_plain.
    + now rewrite (IH _ _ Htail).
    + rewrite <- Hbox. symmetry. apply boxAhead_alike, toggle_alike.
Qed.

(** X27. Toggling is its own inverse on the texts that write a checked box
    with a small letter: in a text that holds no box checked with a capital
    letter, toggling the same box twice gives the text back. *)
Theorem toggleCheckbox_twice (text : jsstring) (checkboxIndex : Z) :
  includes (js "[X]") text = false ->
  toggleCheckbox (toggleCheckbox text checkboxIndex) checkboxIndex = text.
Proof.
  intros Hplain. rewrite !toggleCheckbox_toggling.
  assert (Hlength : length (replace_all re_checkbox (toggling checkboxIndex)
                              (S (length text)) 0 text) = length text).
  { symmetry. eapply Forall2_length, toggle_alike. }
  rewrite Hlength. now apply toggle_twice.
Qed.

Lemma toggleCheckbox_twice_witness :
  toggleCheckbox (toggleCheckbox (js "- [ ] a [x] b") 1) 1 = js "- [ ] a [x] b".
Proof.
  apply (toggleCheckbox_twice (js "- [ ] a [x] b") 1). reflexivity.
Defined.

Lemma boxStates_plain a t : boxAhead a t = false -> boxStates (a :: t) = boxStates t.
Proof.
  intros Hplain. cbn [boxStates]. destruct t as [|b [|c rest]]; try reflexivity.
  cbn [boxAhead] in Hplain. now rewrite Hplain.
Qed.

(** The states after a replacement that has made [calls] calls before. *)
Lemma toggle_states checkboxIndex fuel :
  forall calls s,
    (length s < fuel)%nat ->
    boxStates (replace_all re_checkbox (toggling checkboxIndex) fuel calls s)
    = if (checkboxIndex <? Z.of_nat calls)%Z then boxStates s
      else alter flipState (Z.to_nat (checkboxIndex - Z.of_nat calls)) (boxStates s).
Proof.
  induction fuel as [|fuel IH]; intros calls s Hfuel; [lia|].
  destruct s as [|a s'].
  { rewrite toggle_step. now destruct (checkboxIndex <? Z.of_nat calls)%Z. }
  cbn [length] in Hfuel.
  destruct (boxAhead a s') eqn:Hbox.
  - destruct s' as [|b [|c rest]]; try discriminate. cbn [boxAhead] in Hbox.
    rewrite toggle_step, Hbox. cbn [length] in Hfuel.
    assert (Hbox' : isBox a (if (Z.of_nat calls =? checkboxIndex)%Z
                             then flipState b else b) c = true).
    { destruct (Z.of_nat calls =? checkboxIndex)%Z; [|exact Hbox].
      unfold isBox in *. rewrite flipState_state.
      apply andb_true_iff in Hbox as [[-> _]%andb_true_iff ->]. reflexivity. }
    cbn [boxStates]. rewrite Hbox, Hbox', IH by lia.
    destruct (Z.of_nat calls =? checkboxIndex)%Z eqn:Hhere.
    + apply Z.eqb_eq in Hhere.
      replace (checkboxIndex <? Z.of_nat (S calls))%Z with true
        by (symmetry; apply Z.ltb_lt; lia).
      replace (checkboxIndex <? Z.of_nat calls)%Z with false
        by (symmetry; apply Z.ltb_ge; lia).
      replace (Z.to_nat (checkboxIndex - Z.of_nat calls)) with 0%nat by lia.
      reflexivity.
    + apply Z.eqb_neq in Hhere.
      destruct (checkboxIndex <? Z.of_nat calls)%Z eqn:Hbefore.
      * apply Z.ltb_lt in Hbefore.
        replace (checkboxIndex <? Z.of_nat (S calls))%Z with true
          by (symmetry; apply Z.ltb_lt; lia).
        reflexivity.
      * apply Z.ltb_ge in Hbefore.
        replace (checkboxIndex <? Z.of_nat (S calls))%Z with false
          by (symmetry; apply Z.ltb_ge; lia).
        replace (Z.to_nat (checkboxIndex - Z.of_nat calls))
          with (S (Z.to_nat (checkboxIndex - Z.of_nat (S calls)))) by lia.
        reflexivity.
  - rewrite (toggle_step_plain _ _ _ _ _ Hbox), boxStates_plain.
    + rewrite IH by lia. now rewrite (boxStates_plain _ _ Hbox).
    + rewrite <- Hbox. symmetry. apply boxAhead_alike, toggle_alike.
Qed.

Lemma isBox_brackets a b c :
  isBox a b c = true -> a = 91 /\ is_checkbox_state b = true /\ c = 93.
Proof.
  unfold isBox.
  now intros [[->%chr_true Hb]%andb_true_iff ->%chr_true]%andb_true_iff.
Qed.

Lemma boxAhead_before a (before rest : jsstring) :
  boxAhead a (before ++ rest) = false -> (2 <= length rest)%nat ->
  boxAhead a before = false.
Proof.
  destruct before as [|x [|y before]]; [reflexivity|reflexivity|].
  intros Hplain _. exact Hplain.
Qed.

(** A replacement that has made [calls] calls before leaves the text as it
    is, when the index is behind it or beyond the last box, and else changes
    the state of the box of that index and no other unit. *)
Lemma toggle_one checkboxIndex fuel :
  forall calls s,
    (length s < fuel)%nat ->
    (replace_all re_checkbox (toggling checkboxIndex) fuel calls s = s
     /\ ((checkboxIndex < Z.of_nat calls)%Z
         \/ (Z.of_nat (calls + length (boxStates s)) <= checkboxIndex)%Z))
    \/ (exists before b after,
          s = before ++ js "[" ++ [b] ++ js "]" ++ after
          /\ is_checkbox_state b = true
          /\ boxStates s = boxStates before ++ b :: boxStates after
          /\ Z.of_nat (calls + length (boxStates before)) = checkboxIndex
          /\ replace_all re_checkbox (toggling checkboxIndex) fuel calls s
             = before ++ js "[" ++ [flipState b] ++ js "]" ++ after).
Proof.
  induction fuel as [|fuel IH]; intros calls s Hfuel; [lia|].
  destruct s as [|a s'].
  { left. split; [reflexivity|]. cbn [boxStates length]. lia. }
  cbn [length] in Hfuel.
  destruct (boxAhead a s') eqn:Hbox.
  - destruct s' as [|b [|c rest]]; try discriminate. cbn [boxAhead] in Hbox.
    rewrite toggle_step, Hbox. cbn [length] in Hfuel.
    pose proof (isBox_brackets _ _ _ Hbox) as (-> & Hstate & ->).
    assert (Hstates : boxStates (91 :: b :: 93 :: rest) = b :: boxStates rest).
    { cbn [boxStates]. now rewrite Hbox. }
    destruct (Z.of_nat calls =? checkboxIndex)%Z eqn:Hhere.
    + apply Z.eqb_eq in Hhere. right. exists [], b, rest.
      rewrite toggle_before by lia. rewrite Hstates.
      repeat split; [exact Hstate|cbn [boxStates length]; lia].
    + apply Z.eqb_neq in Hhere.
      destruct (IH (S calls) rest ltac:(lia))
        as [[Hsame Hout]|(before & b' & after & Hrest & Hstate' & Hsplit & Hcount & Hres)].
      * left. rewrite Hsame, Hstates. split; [reflexivity|]. cbn [length]. lia.
      * right. exists (91 :: b :: 93 :: before), b', after.
        assert (Hbefore : boxStates (91 :: b :: 93 :: before) = b :: boxStates before).
        { cbn [boxStates]. now rewrite Hbox. }
        rewrite Hres, Hstates, Hbefore, Hsplit.
        split; [now rewrite Hrest|]. split; [exact Hstate'|].
        split; [reflexivity|]. split; [cbn [length]; lia|reflexivity].
  - rewrite (toggle_step_plain _ _ _ _ _ Hbox), (boxStates_plain _ _ Hbox).
    destruct (IH calls s' ltac:(lia))
      as [[Hsame Hout]|(before & b' & after & Hrest & Hstate' & Hsplit & Hcount & Hres)].
    + left. now rewrite Hsame.
    + right. exists (a :: before), b', after.
      rewrite boxStates_plain.
      2:{ rewrite Hrest in Hbox. apply (boxAhead_before _ _ _ Hbox).
          change (js "[") with [91]. change (js "]") with [93].
          cbn [app length]. lia. }
      rewrite Hres. split; [now rewrite Hrest|]. now repeat split.
Qed.

(** X26. [toggleCheckbox] changes nothing but the state of one check box:
    either it returns the text as it is, which it does when the index is
    negative or not below the number of boxes of the text, or the text is
    some units, a box and the rest, the box being the one of the index given
    (counted from zero among the boxes of the text), and the result is the
    same units, the box with its state flipped, and the same rest.  So the
    text keeps its length and no unit outside that box changes. *)
Theorem toggleCheckbox_one_box (text : jsstring) (checkboxIndex : Z) :
  ((toggleCheckbox text checkboxIndex = text
    /\ ((checkboxIndex < 0)%Z
        \/ (Z.of_nat (length (boxStates text)) <= checkboxIndex)%Z))
   \/ (exists before b after,
         text = before ++ js "[" ++ [b] ++ js "]" ++ after
         /\ is_checkbox_state b = true
         /\ boxStates text = boxStates before ++ b :: boxStates after
         /\ Z.of_nat (length (boxStates before)) = checkboxIndex
         /\ toggleCheckbox text checkboxIndex
            = before ++ js "[" ++ [flipState b] ++ js "]" ++ after))
  /\ ((checkboxIndex < 0)%Z -> toggleCheckbox text checkboxIndex = text)
  /\ length (toggleCheckbox text checkboxIndex) = length text.
Proof.
  rewrite toggleCheckbox_toggling.
  split; [|split].
  - destruct (toggle_one checkboxIndex (S (length text)) 0 text ltac:(lia))
      as [[Hsame Hout]|(before & b & after & Htext & Hstate & Hsplit & Hcount & Hres)].
    + left. split; [exact Hsame|]. cbn [Nat.add Z.of_nat] in Hout. exact Hout.
    + right. exists before, b, after. now repeat split.
  - intros Hnegative. apply toggle_before. lia.
  - symmetry. eapply Forall2_length, toggle_alike.
Qed.

(** X28. [toggleCheckbox] toggles the box it is asked for and no other: the
    states of the boxes of the result are those of the text, but for the box
    of the index given, counted from zero, which is checked with a small
    letter if it was blank and blank if it was checked; an index that is
    negative or beyond the last box changes no state. *)
Theorem toggleCheckbox_flips (text : jsstring) (checkboxIndex : Z) :
  boxStates (toggleCheckbox text checkboxIndex)
  = if (checkboxIndex <? 0)%Z then boxStates text
    else alter flipState (Z.to_nat checkboxIndex) (boxStates text).
Proof.
  rewrite toggleCheckbox_toggling, toggle_states by lia.
  cbn [Z.of_nat]. now rewrite Z.sub_0_r.
Qed.

(** ** Signatures read off a hover *)

Lemma rmatch_lazy_set {R : Type} (p : N -> bool) (s : jsstring) (c : captures)
    (k : jsstring -> captures -> option R) :
  rmatch (RLazyStar (RSet p)) s c k = lazily p s c k.
Proof.
  cbn [rmatch].
  generalize (le_n (length s)). generalize (length s) at 2 3 as fuel.
  intros fuel. revert s.
  induction fuel as [|fuel IH]; intros s Hlen.
  - destruct s; [|simpl in Hlen; lia]. cbn [lazily]. now destruct (k [] c).
  - destruct s as [|ch s']; cbn [lazily]; destruct (k _ c); try reflexivity.
    destruct (p ch); [|reflexivity].
    replace (length s' <? length (ch :: s'))%nat with true
      by (symmetry; apply Nat.ltb_lt; simpl; lia).
    rewrite IH by (simpl in Hlen; lia). reflexivity.
Qed.

(** A lazily starred class stops at the first place where what follows
    succeeds. *)
Lemma lazily_first {R : Type} (p : N -> bool) (a b : jsstring) (c : captures)
    (k : jsstring -> captures -> option R) (x : R) :
  forallb p a = true ->
  (forall a1 y a2, a = a1 ++ y :: a2 -> k (y :: a2 ++ b) c = None) ->
  k b c = Some x ->
  lazily p (a ++ b) c k = Some x.
Proof.
  intros Hp Hfail Hk. induction a as [|y a IH].
  - cbn [app]. destruct b; cbn [lazily]; now rewrite Hk.
  - cbn [forallb] in Hp. apply andb_true_iff in Hp as [Hy Hp].
    cbn [app lazily]. rewrite (Hfail [] y a eq_refl), Hy.
    apply IH; [exact Hp|]. intros a1 z a2 ->. apply (Hfail (y :: a1) z a2). reflexivity.
Qed.

(** A search that cannot start on the units of a prefix starts after it. *)
Lemma exec_from_after (r : regex) (prefix s before : jsstring) :
  (forall p1 y p2, prefix = p1 ++ y :: p2 -> rmatch r (y :: p2 ++ s) [] accept = None) ->
  exec_from r before (prefix ++ s) = exec_from r (before ++ prefix) s.
Proof.
  revert before. induction prefix as [|y prefix IH]; intros before Hfail.
  - now rewrite app_nil_r.
  - cbn [app exec_from]. rewrite (Hfail [] y prefix eq_refl).
    rewrite IH.
    + now rewrite <- app_assoc.
    + intros p1 z p2 ->. apply (Hfail (y :: p1) z p2). reflexivity.
Qed.

Lemma skip_stable_app (p : N -> bool) (b rest : jsstring) :
  skip p b = b -> b <> [] -> skip p (b ++ rest) = b ++ rest.
Proof.
  destruct b as [|h b]; [contradiction|]. intros Hskip _.
  cbn [app skip] in *. destruct (p h) eqn:Hh; [|reflexivity].
  exfalso. pose proof (length_skip_le p b) as Hlen. rewrite Hskip in Hlen.
  cbn [length] in Hlen. lia.
Qed.

Lemma skip_stable_head (p : N -> bool) (h : N) (b : jsstring) :
  skip p (h :: b) = h :: b -> p h = false.
Proof.
  cbn [skip]. destruct (p h) eqn:Hh; [|reflexivity]. intros Hskip.
  pose proof (length_skip_le p b) as Hlen. rewrite Hskip in Hlen.
  cbn [length] in Hlen. lia.
Qed.

(** The end of a fenced block: an optional line feed and the closing
    fence. *)
Lemma fence_end_fail (y : N) (s : jsstring) (c : captures) :
  not_chr "`" y = true ->
  match s with z :: _ => not_chr "`" z = true | [] => True end ->
  rmatch (RCat [ROpt (RSet (N.eqb 10)); RLit "`"; RLit "`"; RLit "`"]) (y :: s) c accept
  = None.
Proof.
  intros Hy Hs. cbn [RCat]. unfold RLit.
  assert (Hlit : forall (u : jsstring) (c' : captures),
            rmatch (RSeq (RSet (chr "`")) (RSeq (RSet (chr "`")) (RSet (chr "`"))))
                   (y :: u) c' accept = None).
  { intros u c'. now rewrite rmatch_seq, rmatch_set, chr_not_chr, Hy. }
  rewrite rmatch_seq, rmatch_opt, rmatch_set, Hlit.
  destruct (10 =? y); [|reflexivity].
  destruct s as [|z s]; [reflexivity|].
  now rewrite rmatch_seq, rmatch_set, chr_not_chr, Hs.
Qed.

Lemma fence_end_ok (c : captures) :
  rmatch (RCat [ROpt (RSet (N.eqb 10)); RLit "`"; RLit "`"; RLit "`"])
         ([10] ++ js "```") c accept = Some ([], c).
Proof. reflexivity. Qed.

(** The pattern of a code block on a fenced hover: the block captured is the
    body. *)
Lemma exec_codeBlock (lang body : jsstring) :
  forallb is_word lang = true ->
  forallb (not_chr "`") body = true ->
  trimStart body = body -> body <> [] ->
  exists before rest c,
    exec re_codeBlock (fenced lang body) = Some (before, rest, c)
    /\ group 1 c = body.
Proof.
  intros Hlang Hticks Hstart Hbody.
  exists [], [], [(1%nat, body)]. split; [|reflexivity].
  unfold exec, fenced. change (js "```") with [96; 96; 96].
  cbn [app]. cbn [exec_from].
  assert (Hmatch :
    rmatch re_codeBlock (96 :: 96 :: 96 :: lang ++ 10 :: body ++ [10; 96; 96; 96]) []
           accept = Some ([], [(1%nat, body)])).
  { unfold re_codeBlock, RLit. cbn [RCat].
    rewrite rmatch_seq, rmatch_set. change (chr "`" 96) with true. cbv iota.
    rewrite rmatch_seq, rmatch_set. change (chr "`" 96) with true. cbv iota.
    rewrite rmatch_seq, rmatch_set. change (chr "`" 96) with true. cbv iota.
    rewrite rmatch_seq, rmatch_star_set. apply greedy_first.
    replace (skip is_word (lang ++ 10 :: body ++ [10; 96; 96; 96]))
      with (10 :: body ++ [10; 96; 96; 96]).
    2:{ symmetry. apply skip_app_stop; [now apply Forall_forallb|reflexivity]. }
    rewrite rmatch_seq, rmatch_star_set. apply greedy_first.
    cbn [skip]. change (is_space 10) with true. cbv iota.
    unfold trimStart in Hstart. rewrite (skip_stable_app _ _ _ Hstart Hbody).
    destruct body as [|h body]; [contradiction|].
    pose proof (skip_stable_head _ _ _ Hstart) as Hh.
    rewrite rmatch_seq, rmatch_opt, rmatch_set. cbn [app].
    replace (10 =? h) with false.
    2:{ symmetry. apply N.eqb_neq. intros <-. discriminate. }
    rewrite rmatch_seq, rmatch_group, rmatch_lazy_set.
    change ((h :: body) ++ [10; 96; 96; 96]) with ((h :: body) ++ ([10] ++ js "```")).
    change (h :: body ++ [10; 96; 96; 96]) with ((h :: body) ++ ([10] ++ js "```")).
    apply lazily_first.
    - apply List.forallb_forall. reflexivity.
    - intros a1 y a2 Hsplit.
      apply fence_end_fail.
      + rewrite Hsplit, forallb_app in Hticks. cbn [forallb] in Hticks.
        now apply andb_true_iff in Hticks as [_ [Hy _]%andb_true_iff].
      + destruct a2 as [|z a2]; [reflexivity|]. cbn [app].
        rewrite Hsplit, forallb_app in Hticks. cbn [forallb] in Hticks.
        apply andb_true_iff in Hticks as [_ [_ Hrest]%andb_true_iff].
        now apply andb_true_iff in Hrest as [Hz _].
    - rewrite fence_end_ok. unfold accept.
      rewrite length_app, Nat.add_sub, take_app_length. reflexivity. }
  now rewrite Hmatch.
Qed.

(** The pattern of a parameter list followed by the type of the result, on
    a declaration line: the list captured is the first one. *)
Lemma exec_withReturnType (name params blanks sep ret : jsstring) :
  forallb (not_chr "(") name = true ->
  forallb (not_chr ")") params = true ->
  forallb is_space blanks = true ->
  In sep [js ":"; js "=>"; js "->"] ->
  exists before rest c,
    exec re_withReturnType (declarationLine name params blanks sep ret)
    = Some (before, rest, c)
    /\ group 1 c = params.
Proof.
  intros Hname Hparams Hblanks Hsep.
  exists name, ret, [(1%nat, params)]. split; [|reflexivity].
  unfold exec, declarationLine.
  rewrite exec_from_after.
  2:{ intros p1 y p2 Hsplit. unfold re_withReturnType, RLit. cbn [RCat].
      rewrite rmatch_seq, rmatch_set, chr_not_chr.
      rewrite Hsplit, forallb_app in Hname. cbn [forallb] in Hname.
      apply andb_true_iff in Hname as [_ [Hy _]%andb_true_iff].
      now rewrite Hy. }
  change (js "(") with [40]. change (js ")") with [41].
  cbn [app]. cbn [exec_from].
  assert (Hmatch :
    rmatch re_withReturnType (40 :: params ++ 41 :: blanks ++ sep ++ ret) [] accept
    = Some (ret, [(1%nat, params)])).
  { unfold re_withReturnType, RLit. cbn [RCat].
    rewrite rmatch_seq, rmatch_set. change (chr "(" 40) with true. cbv iota.
    rewrite rmatch_seq, rmatch_group, rmatch_star_set. apply greedy_first.
    replace (skip (not_chr ")") (params ++ 41 :: blanks ++ sep ++ ret))
      with (41 :: blanks ++ sep ++ ret).
    2:{ symmetry. apply skip_app_stop; [now apply Forall_forallb|reflexivity]. }
    rewrite length_app, Nat.add_sub, take_app_length.
    rewrite rmatch_seq, rmatch_set. change (chr ")" 41) with true. cbv iota.
    rewrite rmatch_seq, rmatch_star_set. apply greedy_first.
    replace (skip is_space (blanks ++ sep ++ ret)) with (sep ++ ret).
    2:{ symmetry. apply skip_app_stop; [now apply Forall_forallb|].
        destruct Hsep as [<-|[<-|[<-|[]]]]; reflexivity. }
    destruct Hsep as [<-|[<-|[<-|[]]]]; reflexivity. }
  now rewrite Hmatch.
Qed.

(** X29. On a hover made of one fenced code block whose body is a declaration
    line, [extractSignatureFromHover] gives the types of the first parameter
    list of the line, as [extractTypesFromParams] reads them: the language
    tag, the fences and the type of the result leave no trace. *)
Theorem hover_signature (lang name params blanks sep ret : jsstring) :
  forallb is_word lang = true ->
  forallb (not_chr "`") (declarationLine name params blanks sep ret) = true ->
  trimStart (declarationLine name params blanks sep ret)
  = declarationLine name params blanks sep ret ->
  trimEnd (declarationLine name params blanks sep ret)
  = declarationLine name params blanks sep ret ->
  forallb (not_chr "(") name = true ->
  forallb (not_chr ")") params = true ->
  forallb is_space blanks = true ->
  In sep [js ":"; js "=>"; js "->"] ->
  extractSignatureFromHover (fenced lang (declarationLine name params blanks sep ret))
  = Some (extractTypesFromParams params).
Proof.
  intros Hlang Hticks Hstart Hend Hname Hparams Hblanks Hsep.
  assert (Hbody : declarationLine name params blanks sep ret <> []).
  { unfold declarationLine. now destruct name. }
  destruct (exec_codeBlock lang _ Hlang Hticks Hstart Hbody)
    as (before & rest & c & Hexec & Hgroup).
  destruct (exec_withReturnType name params blanks sep ret Hname Hparams Hblanks Hsep)
    as (before' & rest' & c' & Hexec' & Hgroup').
  unfold extractSignatureFromHover.
  change (is_empty (fenced lang (declarationLine name params blanks sep ret)))
    with false. cbv iota zeta.
  rewrite Hexec, Hgroup. unfold trim. rewrite Hstart, Hend.
  now rewrite Hexec', Hgroup'.
Qed.

Lemma hover_signature_witness :
  extractSignatureFromHover
    (js "```typescript" ++ [10] ++ js "function add(a: number, b: number): number"
     ++ [10] ++ js "```")
  = Some (js "(number, number)").
Proof.
  exact (hover_signature (js "typescript") (js "function add")
           (js "a: number, b: number") [] (js ":") (js " number")
           eq_refl eq_refl eq_refl eq_refl eq_refl eq_refl eq_refl
           (or_introl eq_refl)).
Defined.
